(** * advanced-vector: RawMemory<T> and Vector<T>

    A shallow embedding of [advanced-vector/vector.h].

    The memory of the program is explicit.  [operator new] hands out blocks
    of raw storage; a block is a list of slots and a slot is either
    uninitialised ([None]) or holds a live [T] ([Some x]).  A [Vector] object
    has an identity (the address [this]), so that [this == &rhs] can be
    asked, and its fields live in a store of objects.  Exceptions are
    results: an operation returns normally ([Ok]), raises ([Throw]) or
    breaks a contract ([Abort]: a failed [assert], a read of an
    uninitialised slot, a double free).  The state reached so far is kept
    in each case, and what runs during unwinding (a catch block of a
    standard algorithm, the destructor of a local) is written out.

    The element type [T] is a parameter, with the traits the header asks
    about.  Every invocation of one of [T]'s special members is recorded in
    a trace, the way an instrumented test element counts them, and a fuse
    in the state makes a potentially-throwing member raise.

    Sizes, capacities and indices are natural numbers.  The byte count of
    an allocation is computed as the header computes it, [n * sizeof(T)]
    in the 64 bits of [size_t]: [operator new] sees the wrapped product,
    and a block it grants has room for that many bytes only. *)

From stdpp Require Import gmap list.

(** ** Results, traces, pointers *)

Inductive exn :=
  | AllocationError   (* std::bad_alloc out of operator new *)
  | ElementError.     (* raised by a special member of T *)

Inductive outcome (A : Type) :=
  | Ok (a : A)
  | Throw (e : exn)
  | Abort.

Arguments Ok {A} a.
Arguments Throw {A} e.
Arguments Abort {A}.

(** The special members of [T] the container invokes. *)
Inductive special :=
  | DefaultCtor | ArgsCtor | CopyCtor | MoveCtor
  | CopyAssign | MoveAssign | Dtor.

Global Instance special_eq_dec : EqDecision special.
Proof. solve_decision. Defined.

Definition is_ctor (k : special) : bool :=
  match k with
  | DefaultCtor | ArgsCtor | CopyCtor | MoveCtor => true
  | _ => false
  end.

Definition is_dtor (k : special) : bool :=
  match k with Dtor => true | _ => false end.

(** Objects constructed and not yet destroyed, as an instrumented element
    type counts them. *)
Definition alive (tr : list special) : Z :=
  Z.of_nat (length (filter (λ k, is_ctor k = true) tr))
  - Z.of_nat (length (filter (λ k, is_dtor k = true) tr)).

(** [T*]: a block (or null) and an element offset in it. *)
Record ptr := Ptr { base : option nat; off : nat }.

Definition ptr_add (p : ptr) (n : nat) : ptr := Ptr (base p) (off p + n).
Definition ptr_prev (p : ptr) : ptr := Ptr (base p) (off p - 1).
Definition distance (first last : ptr) : nat := off last - off first.
Definition ptr_le (p q : ptr) : bool :=
  bool_decide (base p = base q) && bool_decide (off p ≤ off q).
Definition ptr_lt (p q : ptr) : bool :=
  bool_decide (base p = base q) && bool_decide (off p < off q).

(** The fields of the two classes. *)
Record RawMemory := mkRawMemory { buffer_ : option nat; capacity_ : nat }.
Record Vector := mkVector { data_ : RawMemory; size_ : nat }.

Definition GetAddress (m : RawMemory) : ptr := Ptr (buffer_ m) 0.

(** RawMemory(RawMemory&& other): the new object and what is left of [other]. *)
Definition RawMemory_move (other : RawMemory) : RawMemory * RawMemory :=
  (mkRawMemory (buffer_ other) (capacity_ other), mkRawMemory None 0).

(** a.Swap(b): the new [a] and the new [b]. *)
Definition RawMemory_Swap (a b : RawMemory) : RawMemory * RawMemory :=
  (mkRawMemory (buffer_ b) (capacity_ b), mkRawMemory (buffer_ a) (capacity_ a)).

(** Vector() = default *)
Definition Vector_default : Vector := mkVector (mkRawMemory None 0) 0.

(** sizeof(T), in bytes: an element type comes with its size. *)
Class SizeOf (T : Type) := size_of : positive.

(** [size_t] has 64 bits: arithmetic in it is modulo 2^64. *)
Definition size_t_modulus : N := 18446744073709551616.

Section AdvancedVector.

Variable T : Type.
(** [T()], the value-initialised element. *)
Variable T_default : T.
(** The state a [T] is left in once it has been moved from. *)
Variable moved_from : T → T.
(** Which special members of [T] are not [noexcept]. *)
Variable may_throw : special → bool.
Variable is_copy_constructible : bool.
Context {T_size : SizeOf T}.

Definition is_nothrow_move_constructible : bool := negb (may_throw MoveCtor).

(** ** The state of the program *)

Record World := mkWorld {
  heap : gmap nat (list (option T));  (* blocks of operator new *)
  fresh_addr : nat;                   (* the next block address *)
  avail : nat;                        (* elements the provider can still supply *)
  vecs : gmap nat Vector;             (* the Vector objects, by address *)
  fuse : option nat;                  (* fallible calls left before one throws *)
  trace : list special                (* special members of T invoked so far *)
}.

Definition set_heap (h : gmap nat (list (option T))) (w : World) : World :=
  mkWorld h (fresh_addr w) (avail w) (vecs w) (fuse w) (trace w).
Definition set_vecs (vs : gmap nat Vector) (w : World) : World :=
  mkWorld (heap w) (fresh_addr w) (avail w) vs (fuse w) (trace w).
Definition set_fuse (f : option nat) (w : World) : World :=
  mkWorld (heap w) (fresh_addr w) (avail w) (vecs w) f (trace w).
Definition set_trace (tr : list special) (w : World) : World :=
  mkWorld (heap w) (fresh_addr w) (avail w) (vecs w) (fuse w) tr.

Definition M (A : Type) : Type := World → outcome A * World.

#[local] Instance M_ret : MRet M := λ A a w, (Ok a, w).

#[local] Instance M_bind : MBind M := λ A B k m w,
  match m w with
  | (Ok a, w') => k a w'
  | (Throw e, w') => (Throw e, w')
  | (Abort, w') => (Abort, w')
  end.

Definition throw {A} (e : exn) : M A := λ w, (Throw e, w).
Definition abort {A} : M A := λ w, (Abort, w).
Definition assert (b : bool) : M unit := if b then mret tt else abort.

(** try { m } catch (...) { cleanup; throw; } *)
Definition on_throw {A} (m : M A) (cleanup : M unit) : M A := λ w,
  match m w with
  | (Throw e, w') => (cleanup;; throw e) w'
  | r => r
  end.

(** A local object of automatic storage whose destructor [dtor] runs when
    the scope [m] is left, by return or by exception. *)
Definition scope_exit {A} (m : M A) (dtor : M unit) : M A := λ w,
  match m w with
  | (Ok a, w') => (dtor;; mret a) w'
  | (Throw e, w') => (dtor;; throw e) w'
  | (Abort, w') => (Abort, w')
  end.

(** ** Raw storage *)

Definition load (p : ptr) : M T := λ w,
  match base p with
  | Some a =>
      match heap w !! a with
      | Some blk =>
          match blk !! off p with
          | Some (Some x) => (Ok x, w)
          | _ => (Abort, w)
          end
      | None => (Abort, w)
      end
  | None => (Abort, w)
  end.

Definition store (p : ptr) (s : option T) : M unit := λ w,
  match base p with
  | Some a =>
      match heap w !! a with
      | Some blk =>
          if decide (off p < length blk)
          then (Ok tt, set_heap (<[a := <[off p := s]> blk]> (heap w)) w)
          else (Abort, w)
      | None => (Abort, w)
      end
  | None => (Abort, w)
  end.

(** [n * sizeof(T)] as the header computes it, in [size_t]. *)
Definition byte_count (n : nat) : N :=
  (N.of_nat n * Npos size_of) mod size_t_modulus.

(** The whole elements a block of [bytes] bytes has room for. *)
Definition slots_of (bytes : N) : nat := N.to_nat (bytes / Npos size_of).

(** operator new(bytes): the provider supplies storage for the bytes it is
    asked for, or raises when it has not that much left. *)
Definition operator_new (bytes : N) : M nat := λ w,
  let n := slots_of bytes in
  if decide (n ≤ avail w)
  then (Ok (fresh_addr w),
        mkWorld (<[fresh_addr w := replicate n None]> (heap w))
                (S (fresh_addr w)) (avail w - n) (vecs w) (fuse w) (trace w))
  else (Throw AllocationError, w).

Definition operator_delete (buf : option nat) : M unit := λ w,
  match buf with
  | None => (Ok tt, w)
  | Some a =>
      match heap w !! a with
      | Some blk =>
          (Ok tt, mkWorld (delete a (heap w)) (fresh_addr w)
                          (avail w + length blk) (vecs w) (fuse w) (trace w))
      | None => (Abort, w)
      end
  end.

(** ** The special members of T *)

Definition record (k : special) : M unit := λ w,
  (Ok tt, set_trace (trace w ++ [k]) w).

(** A call of the special member [k]: it raises when [k] may throw and the
    fuse has run down, and is recorded otherwise. *)
Definition invoke (k : special) : M unit := λ w,
  if may_throw k then
    match fuse w with
    | Some 0 => (Throw ElementError, set_fuse None w)
    | Some (S n) => record k (set_fuse (Some n) w)
    | None => record k w
    end
  else record k w.

(** [const T&] and [T&&] arguments: a reference into a block, or to an
    object that lives outside the heap and holds [x]. *)
Inductive ref :=
  | At (p : ptr)
  | Outside (x : T).

(** The arguments forwarded to a constructor of [T]. *)
Inductive Args :=
  | CopyOf (r : ref)      (* const T& *)
  | MoveOf (r : ref)      (* T&& *)
  | Build (x : T).        (* other constructor arguments, giving [x] *)

Definition deref (r : ref) : M T :=
  match r with
  | At p => load p
  | Outside x => mret x
  end.

Definition leave_moved_from (r : ref) (x : T) : M unit :=
  match r with
  | At p => store p (Some (moved_from x))
  | Outside _ => mret tt
  end.

(** T(std::forward<Args>(args)...): the value of the new object. *)
Definition construct (args : Args) : M T :=
  match args with
  | CopyOf r => x ← deref r; invoke CopyCtor;; mret x
  | MoveOf r => x ← deref r; invoke MoveCtor;; leave_moved_from r x;; mret x
  | Build x => invoke ArgsCtor;; mret x
  end.

Definition construct_at (p : ptr) (args : Args) : M unit :=
  x ← construct args; store p (Some x).

Definition value_construct_at (p : ptr) : M unit :=
  invoke DefaultCtor;; store p (Some T_default).

Definition destroy_at (p : ptr) : M unit :=
  _ ← load p; record Dtor;; store p None.

(** the assignment of the object at [src] to the one at [dst] *)
Definition copy_assign (dst src : ptr) : M unit :=
  x ← load src; _ ← load dst; invoke CopyAssign;; store dst (Some x).

(** the same by move, which leaves [src] moved from *)
Definition move_assign (dst src : ptr) : M unit :=
  x ← load src; _ ← load dst; invoke MoveAssign;;
  store src (Some (moved_from x));; store dst (Some x).

(** move assignment from a local object that holds [x] *)
Definition move_assign_local (dst : ptr) (x : T) : M unit :=
  _ ← load dst; invoke MoveAssign;; store dst (Some x).

(** ** The standard algorithms the header calls *)

Fixpoint destroy_n (first : ptr) (n : nat) : M unit :=
  match n with
  | 0 => mret tt
  | S n' => destroy_at first;; destroy_n (ptr_add first 1) n'
  end.

Definition destroy (first last : ptr) : M unit :=
  destroy_n first (distance first last).

(** The loop shared by the std::uninitialized_* algorithms: elements
    [i, i + n) are constructed in turn, and when one construction raises,
    the elements built so far are destroyed and the exception goes on. *)
Fixpoint uninitialized_loop (construct_ith : nat → ptr → M unit)
    (d_first : ptr) (i n : nat) : M unit :=
  match n with
  | 0 => mret tt
  | S n' =>
      on_throw (construct_ith i (ptr_add d_first i)) (destroy_n d_first i);;
      uninitialized_loop construct_ith d_first (S i) n'
  end.

Definition uninitialized_copy (first last d_first : ptr) : M unit :=
  uninitialized_loop
    (λ i cur, construct_at cur (CopyOf (At (ptr_add first i))))
    d_first 0 (distance first last).

Definition uninitialized_move (first last d_first : ptr) : M unit :=
  uninitialized_loop
    (λ i cur, construct_at cur (MoveOf (At (ptr_add first i))))
    d_first 0 (distance first last).

Definition uninitialized_value_construct_n (first : ptr) (n : nat) : M unit :=
  uninitialized_loop (λ _ cur, value_construct_at cur) first 0 n.

Definition uninitialized_value_construct (first last : ptr) : M unit :=
  uninitialized_value_construct_n first (distance first last).

Definition uninitialized_fill_n (first : ptr) (n : nat) (value : ref) : M unit :=
  uninitialized_loop (λ _ cur, construct_at cur (CopyOf value)) first 0 n.

(** std::uninitialized_copy out of an initializer_list or an outside range *)
Definition uninitialized_copy_values (values : list T) (d_first : ptr) : M unit :=
  uninitialized_loop
    (λ i cur, match values !! i with
              | Some x => construct_at cur (CopyOf (Outside x))
              | None => abort
              end)
    d_first 0 (length values).

Fixpoint assign_forward (assign : ptr → ptr → M unit)
    (first d_first : ptr) (n : nat) : M unit :=
  match n with
  | 0 => mret tt
  | S n' =>
      assign d_first first;;
      assign_forward assign (ptr_add first 1) (ptr_add d_first 1) n'
  end.

Fixpoint assign_backward (assign : ptr → ptr → M unit)
    (last d_last : ptr) (n : nat) : M unit :=
  match n with
  | 0 => mret tt
  | S n' =>
      assign (ptr_prev d_last) (ptr_prev last);;
      assign_backward assign (ptr_prev last) (ptr_prev d_last) n'
  end.

Definition std_copy_n (first : ptr) (count : nat) (result : ptr) : M unit :=
  assign_forward copy_assign first result count.

Definition std_copy (first last d_first : ptr) : M unit :=
  assign_forward copy_assign first d_first (distance first last).

Definition std_move (first last d_first : ptr) : M unit :=
  assign_forward move_assign first d_first (distance first last).

Definition std_move_backward (first last d_last : ptr) : M unit :=
  assign_backward move_assign last d_last (distance first last).

(** ** RawMemory<T> *)

Definition Allocate (n : nat) : M (option nat) :=
  if decide (0 < n) then a ← operator_new (byte_count n); mret (Some a)
  else mret None.

Definition Deallocate (buf : option nat) : M unit := operator_delete buf.

Definition RawMemory_ctor (capacity : nat) : M RawMemory :=
  buf ← Allocate capacity; mret (mkRawMemory buf capacity).

Definition RawMemory_dtor (m : RawMemory) : M unit := Deallocate (buffer_ m).

(** operator+(offset) *)
Definition RawMemory_plus (m : RawMemory) (offset : nat) : M ptr :=
  assert (bool_decide (offset ≤ capacity_ m));;
  mret (ptr_add (GetAddress m) offset).

(** operator[](index): the address of the slot *)
Definition RawMemory_index (m : RawMemory) (index : nat) : M ptr :=
  assert (bool_decide (index < capacity_ m));;
  mret (ptr_add (GetAddress m) index).

(** [RawMemory<T> new_data(capacity); body]: [body] returns the final state
    of the local, whose destructor runs as the scope is left.  The header
    changes the local only by the closing [Swap], which is [noexcept], so an
    exception always finds the local as it was constructed. *)
Definition with_RawMemory {A} (capacity : nat)
    (body : RawMemory → M (RawMemory * A)) : M A :=
  new_data ← RawMemory_ctor capacity;
  ((λ w, match body new_data w with
         | (Ok (nd, a), w') => (RawMemory_dtor nd;; mret a) w'
         | (Throw e, w') => (RawMemory_dtor new_data;; throw e) w'
         | (Abort, w') => (Abort, w')
         end) : M A).

(** ** Vector<T> *)

Definition this_ (this : nat) : M Vector := λ w,
  match vecs w !! this with
  | Some v => (Ok v, w)
  | None => (Abort, w)
  end.

Definition set_this (this : nat) (v : Vector) : M unit := λ w,
  (Ok tt, set_vecs (<[this := v]> (vecs w)) w).

Definition Size (this : nat) : M nat := v ← this_ this; mret (size_ v).

Definition Capacity (this : nat) : M nat :=
  v ← this_ this; mret (capacity_ (data_ v)).

Definition Vector_begin (this : nat) : M ptr :=
  v ← this_ this; mret (GetAddress (data_ v)).

Definition Vector_end (this : nat) : M ptr :=
  v ← this_ this; RawMemory_plus (data_ v) (size_ v).

(** The address of Back(): std::prev(end()) *)
Definition Back (this : nat) : M ptr :=
  e ← Vector_end this; mret (ptr_prev e).

(** The address of Front(): begin() *)
Definition Front (this : nat) : M ptr := Vector_begin this.

(** operator[](index): the address of the element *)
Definition Vector_index (this : nat) (index : nat) : M ptr :=
  v ← this_ this;
  assert (bool_decide (index < size_ v));;
  RawMemory_index (data_ v) index.

Definition use_move : bool :=
  is_nothrow_move_constructible || negb is_copy_constructible.

Definition OverwriteData (InpFirst InpLast DestIter : ptr) : M unit :=
  if use_move
  then uninitialized_move InpFirst InpLast DestIter
  else uninitialized_copy InpFirst InpLast DestIter.

(** The constructors return the fields of the new object; when the body of
    a constructor raises, the member [data_] already built is destroyed. *)

Definition Vector_sized (size : nat) : M Vector :=
  data ← RawMemory_ctor size;
  on_throw (uninitialized_value_construct_n (GetAddress data) size)
           (RawMemory_dtor data);;
  mret (mkVector data size).

Definition Vector_filled (size : nat) (value : ref) : M Vector :=
  data ← RawMemory_ctor size;
  on_throw (uninitialized_fill_n (GetAddress data) size value)
           (RawMemory_dtor data);;
  mret (mkVector data size).

Definition Vector_of_list (values : list T) : M Vector :=
  data ← RawMemory_ctor (length values);
  on_throw (uninitialized_copy_values values (GetAddress data))
           (RawMemory_dtor data);;
  mret (mkVector data (capacity_ data)).

Definition Vector_of_range (first last : ptr) : M Vector :=
  data ← RawMemory_ctor (distance first last);
  on_throw (uninitialized_copy first last (GetAddress data))
           (RawMemory_dtor data);;
  mret (mkVector data (capacity_ data)).

Definition Vector_copy (other : nat) : M Vector :=
  o ← this_ other;
  data ← RawMemory_ctor (size_ o);
  on_throw (b ← Vector_begin other; e ← Vector_end other;
            uninitialized_copy b e (GetAddress data))
           (RawMemory_dtor data);;
  mret (mkVector data (size_ o)).

Definition Vector_move (other : nat) : M Vector :=
  o ← this_ other;
  let '(data, other_data) := RawMemory_move (data_ o) in
  set_this other (mkVector other_data 0);;
  mret (mkVector data (size_ o)).

Definition Vector_dtor (v : Vector) : M unit :=
  match buffer_ (data_ v) with
  | Some _ => destroy_n (GetAddress (data_ v)) (size_ v)
  | None => mret tt
  end;;
  RawMemory_dtor (data_ v).

(** An object at address [this] comes to life by one of the constructors. *)
Definition new_Vector (this : nat) (ctor : M Vector) : M unit :=
  v ← ctor; set_this this v.

Definition delete_Vector (this : nat) : M unit :=
  v ← this_ this; Vector_dtor v;;
  ((λ w, (Ok tt, set_vecs (delete this (vecs w)) w)) : M unit).

Definition Vector_Swap (this rhs : nat) : M unit :=
  a ← this_ this; b ← this_ rhs;
  let '(d, rd) := RawMemory_Swap (data_ a) (data_ b) in
  set_this this (mkVector d (size_ b));;
  set_this rhs (mkVector rd (size_ a)).

Definition Vector_copy_assign (this rhs : nat) : M unit :=
  if decide (this = rhs) then mret tt else
  c ← Capacity this; r ← this_ rhs;
  if decide (size_ r ≤ c) then
    v ← this_ this;
    let min_size := size_ v `min` size_ r in
    rb ← Vector_begin rhs; b ← Vector_begin this;
    std_copy_n rb min_size b;;
    (if decide (size_ r < size_ v)
     then destroy (ptr_add b min_size) (ptr_add b (size_ v))
     else re ← Vector_end rhs;
          uninitialized_copy (ptr_add rb min_size) re (ptr_add b min_size));;
    set_this this (mkVector (data_ v) (size_ r))
  else
    tmp ← Vector_copy rhs;
    v ← this_ this;
    set_this this tmp;;      (* Swap(tmp) *)
    Vector_dtor v.           (* ~tmp, which holds the old fields *)

Definition Vector_move_assign (this rhs : nat) : M unit :=
  if decide (this ≠ rhs) then Vector_Swap this rhs else mret tt.

Definition Reserve (this : nat) (new_capacity : nat) : M unit :=
  v ← this_ this;
  if decide (new_capacity ≤ capacity_ (data_ v)) then mret tt else
  with_RawMemory new_capacity (λ new_data,
    b ← Vector_begin this; e ← Vector_end this;
    OverwriteData b e (GetAddress new_data);;
    destroy_n b (size_ v);;
    let '(d, nd) := RawMemory_Swap (data_ v) new_data in
    set_this this (mkVector d (size_ v));;
    mret (nd, tt)).

Definition Resize (this : nat) (new_size : nat) : M unit :=
  v ← this_ this;
  if decide (new_size < size_ v) then
    b ← Vector_begin this; e ← Vector_end this;
    destroy (ptr_add b new_size) e;;
    set_this this (mkVector (data_ v) new_size)
  else
    (if decide (capacity_ (data_ v) < new_size) then
       with_RawMemory new_size (λ new_data,
         p ← RawMemory_plus new_data (size_ v);
         q ← RawMemory_plus new_data new_size;
         uninitialized_value_construct p q;;
         b ← Vector_begin this; e ← Vector_end this;
         OverwriteData b e (GetAddress new_data);;
         destroy b e;;
         let '(d, nd) := RawMemory_Swap (data_ v) new_data in
         set_this this (mkVector d (size_ v));;
         mret (nd, tt))
     else
       e ← Vector_end this; b ← Vector_begin this;
       uninitialized_value_construct e (ptr_add b new_size));;
    v' ← this_ this;
    set_this this (mkVector (data_ v') new_size).

Definition PopBack (this : nat) : M unit :=
  v ← this_ this;
  assert (bool_decide (size_ v ≠ 0));;
  bk ← Back this;
  destroy_at bk;;
  set_this this (mkVector (data_ v) (size_ v - 1)).

Definition Emplace (this : nat) (it : ptr) (args : Args) : M ptr :=
  b ← Vector_begin this; e ← Vector_end this;
  assert (ptr_le b it && ptr_le it e);;
  let it_pos := distance b it in
  v ← this_ this;
  (if decide (capacity_ (data_ v) = size_ v) then
     with_RawMemory (if decide (size_ v = 0) then 1 else size_ v * 2)
       (λ new_data,
         let it_in_new_data := ptr_add (GetAddress new_data) it_pos in
         construct_at it_in_new_data args;;
         OverwriteData b it (GetAddress new_data);;
         OverwriteData it e (ptr_add it_in_new_data 1);;
         destroy b e;;
         let '(d, nd) := RawMemory_Swap (data_ v) new_data in
         set_this this (mkVector d (size_ v));;
         mret (nd, tt))
   else if decide (it_pos = size_ v) then
     construct_at e args
   else
     new_value ← construct args;
     scope_exit
       (bk ← Back this;
        (if use_move
         then construct_at e (MoveOf (At bk))
         else construct_at e (CopyOf (At bk)));;
        std_move_backward it (ptr_prev e) e;;
        move_assign_local it new_value)
       (record Dtor));;
  v' ← this_ this;
  set_this this (mkVector (data_ v') (size_ v' + 1));;
  b' ← Vector_begin this;
  mret (ptr_add b' it_pos).

Definition EmplaceBack (this : nat) (args : Args) : M ptr :=
  e ← Vector_end this; Emplace this e args.

(** PushBack(const T&) and PushBack(T&&) *)
Definition PushBack (this : nat) (value : ref) : M unit :=
  _ ← EmplaceBack this (CopyOf value); mret tt.

Definition PushBack_move (this : nat) (value : ref) : M unit :=
  _ ← EmplaceBack this (MoveOf value); mret tt.

(** Insert(it, const T&) and Insert(it, T&&) *)
Definition Insert (this : nat) (it : ptr) (val : ref) : M ptr :=
  Emplace this it (CopyOf val).

Definition Insert_move (this : nat) (it : ptr) (val : ref) : M ptr :=
  Emplace this it (MoveOf val).

Definition Erase (this : nat) (it : ptr) : M ptr :=
  b ← Vector_begin this; e ← Vector_end this;
  assert (ptr_le b it && ptr_lt it e);;
  (if use_move
   then std_move (ptr_add it 1) e it
   else std_copy (ptr_add it 1) e it);;
  bk ← Back this;
  destroy_at bk;;
  v ← this_ this;
  set_this this (mkVector (data_ v) (size_ v - 1));;
  mret it.

(** ** Well-formed states and what a Vector represents *)

(** No potentially-throwing member of [T] will raise: nothing is scheduled
    to fail, or [T] has no member that can. *)
Definition calm (w : World) : Prop :=
  fuse w = None ∨ ∀ k, may_throw k = false.

(** [n] elements fit into the address space: their byte count is a value
    of [size_t]. *)
Definition addressable (n : nat) : Prop :=
  (N.of_nat n * Npos size_of < size_t_modulus)%N.

(** Addresses not yet handed out are not in use, and the memory the
    provider has left fits into the address space. *)
Definition wf (w : World) : Prop :=
  (∀ a, fresh_addr w ≤ a → heap w !! a = None)
  ∧ addressable (avail w).

(** The object at [this] has buffer [buf] of capacity [cap] and holds the
    elements [xs]: [xs] are the live objects of the first slots and the
    rest of the block is uninitialised. *)
Definition rep (w : World) (this : nat) (buf : option nat)
    (xs : list T) (cap : nat) : Prop :=
  vecs w !! this = Some (mkVector (mkRawMemory buf cap) (length xs))
  ∧ length xs ≤ cap
  ∧ match buf with
    | Some a =>
        heap w !! a = Some ((Some <$> xs) ++ replicate (cap - length xs) None)
    | None => cap = 0
    end.

Definition slot_live (s : option T) : bool :=
  match s with Some _ => true | None => false end.

(** The class invariant, as a check on a state: [size_ <= capacity_], the
    block has [capacity_] slots, the first [size_] are live and the others
    are not. *)
Definition invariant (w : World) (this : nat) : bool :=
  match vecs w !! this with
  | Some v =>
      bool_decide (size_ v ≤ capacity_ (data_ v))
      && match buffer_ (data_ v) with
         | Some a =>
             match heap w !! a with
             | Some blk =>
                 bool_decide (length blk = capacity_ (data_ v))
                 && forallb slot_live (take (size_ v) blk)
                 && forallb (λ s, negb (slot_live s)) (drop (size_ v) blk)
             | None => false
             end
         | None => bool_decide (capacity_ (data_ v) = 0)
         end
  | None => false
  end.

(** The elements of the object at [this], read out of its block. *)
Definition contents (w : World) (this : nat) : option (list T) :=
  v ← vecs w !! this;
  match buffer_ (data_ v) with
  | Some a => blk ← heap w !! a; mapM id (take (size_ v) blk)
  | None => Some []
  end.

(** ** Notions the statements use *)

(** What a transfer leaves in the source slot, and the constructor it calls. *)
Definition transferred (x : T) : T := if use_move then moved_from x else x.
Definition transfer_ctor : special := if use_move then MoveCtor else CopyCtor.

(** What the shift of Erase leaves in a source slot, and the assignment it
    calls. *)
Definition erase_leave : T → T := if use_move then moved_from else id.
Definition erase_assign : special := if use_move then MoveAssign else CopyAssign.

(** The capacity Emplace asks for when the buffer is full. *)
Definition next_capacity (n : nat) : nat := if decide (n = 0) then 1 else n * 2.

(** The constructor of [T] a call with [args] selects. *)
Definition arg_kind (args : Args) : special :=
  match args with
  | CopyOf _ => CopyCtor
  | MoveOf _ => MoveCtor
  | Build _ => ArgsCtor
  end.

(** The live object a pointer designates, if any. *)
Definition slot (w : World) (p : ptr) : option T :=
  a ← base p; blk ← heap w !! a; s ← blk !! off p; s.

(** The value a constructor call builds from [args] in the state [w], for
    the arguments whose evaluation leaves the heap as it is. *)
Definition arg_value (w : World) (args : Args) : option T :=
  match args with
  | CopyOf (At p) => slot w p
  | CopyOf (Outside x) | MoveOf (Outside x) | Build x => Some x
  | MoveOf (At _) => None
  end.

(** The elements of a range after std::move_backward has shifted [mid] one
    slot to the right, over a slot that held [z]: the first slot is left
    moved from. *)
Definition shifted_right (mid : list T) (z : T) : list T :=
  match mid with
  | [] => [z]
  | m :: _ => moved_from m :: mid
  end.

(** The elements of a range after [mid] has been assigned one slot to the
    left, over a slot that held [z]; [leave] says what an assignment leaves
    in its source. *)
Fixpoint shifted_left (leave : T → T) (z : T) (mid : list T) : list T :=
  match mid with
  | [] => [z]
  | m :: mid' => m :: shifted_left leave (leave m) mid'
  end.

(** A run of PushBack calls, each by [const T&] or by [T&&] ([true]), that
    reads Capacity() after every call. *)
Fixpoint PushBack_all (this : nat) (values : list (bool * T)) : M (list nat) :=
  match values with
  | [] => mret []
  | (by_move, y) :: rest =>
      (if by_move
       then PushBack_move this (Outside y)
       else PushBack this (Outside y));;
      c ← Capacity this;
      cs ← PushBack_all this rest;
      mret (c :: cs)
  end.

(** The capacities [cs] read one after the other, starting from [c], never
    go down. *)
Fixpoint nondecreasing (c : nat) (cs : list nat) : Prop :=
  match cs with
  | [] => True
  | c' :: cs' => c ≤ c' ∧ nondecreasing c' cs'
  end.

(** ** The mid-array insertion as the specification words it *)

Definition std_copy_backward (first last d_last : ptr) : M unit :=
  assign_backward copy_assign last d_last (distance first last).

(** The steps the specification lists for an insertion before [it] with
    room in the buffer: the new value is built in a temporary, the last
    element is move-or-copy-constructed into the end slot, the range is
    shifted by move-backward when T's move cannot fail (or T cannot be
    copied) and by copy-backward otherwise, and the temporary is assigned
    into the slot. *)
Definition insert_in_place_as_specified (this : nat) (it : ptr)
    (args : Args) : M unit :=
  e ← Vector_end this;
  new_value ← construct args;
  scope_exit
    (bk ← Back this;
     (if use_move
      then construct_at e (MoveOf (At bk))
      else construct_at e (CopyOf (At bk)));;
     (if use_move
      then std_move_backward it (ptr_prev e) e
      else std_copy_backward it (ptr_prev e) e);;
     move_assign_local it new_value)
    (record Dtor).

(** The constructor [ctor] brings a vector to life at [this] that holds
    exactly [xs], in a new buffer of exactly that many slots: the blocks
    and the other vectors are as before, each element was built by one call
    of the constructor [kd] of [T], and the memory taken is the size. *)
Definition constructs (w : World) (this : nat) (ctor : M Vector)
    (xs : list T) (kd : special) : Prop :=
  ∃ buf w',
    new_Vector this ctor w = (Ok tt, w')
    ∧ rep w' this buf xs (length xs)
    ∧ (∀ a, buf = Some a → heap w !! a = None)
    ∧ (∀ a blk, heap w !! a = Some blk → heap w' !! a = Some blk)
    ∧ (∀ other, other ≠ this → vecs w' !! other = vecs w !! other)
    ∧ avail w' + length xs = avail w
    ∧ fuse w' = fuse w
    ∧ trace w' = trace w ++ replicate (length xs) kd
    ∧ wf w'.

(** What a failed operation with the strong guarantee leaves: the blocks,
    the vectors, the free memory and the count of live objects are as
    before the call. *)
Definition rolled_back (w w' : World) : Prop :=
  heap w' = heap w ∧ vecs w' = vecs w ∧ avail w' = avail w
  ∧ alive (trace w') = alive (trace w).

(** The arguments of a constructor call can be read: a reference into a
    block designates a live object. *)
Definition readable (w : World) (args : Args) : Prop :=
  match args with
  | CopyOf (At p) | MoveOf (At p) => is_Some (slot w p)
  | _ => True
  end.

(** The special members of [T] a successful call invokes, in order, read
    off the branches of the header: [n] is the size and [cap] the capacity
    before the call. *)
Definition Emplace_calls (n cap p : nat) (kind : special) : list special :=
  if decide (n = cap) then
    [kind] ++ replicate n transfer_ctor ++ replicate n Dtor
  else if decide (p = n) then [kind]
  else [kind; transfer_ctor] ++ replicate (n - p) MoveAssign ++ [Dtor].

Definition Erase_calls (n p : nat) : list special :=
  replicate (n - S p) erase_assign ++ [Dtor].

Definition Reserve_calls (n cap new_capacity : nat) : list special :=
  if decide (new_capacity ≤ cap) then []
  else replicate n transfer_ctor ++ replicate n Dtor.

Definition Resize_calls (n cap new_size : nat) : list special :=
  if decide (new_size < n) then replicate (n - new_size) Dtor
  else if decide (cap < new_size) then
    replicate (new_size - n) DefaultCtor
    ++ replicate n transfer_ctor ++ replicate n Dtor
  else replicate (new_size - n) DefaultCtor.

(** A call that copies an element. *)
Definition is_copy (k : special) : bool :=
  match k with CopyCtor | CopyAssign => true | _ => false end.

(** Between [w] and [w'] no element was copied. *)
Definition copies_nothing (w w' : World) : Prop :=
  ∃ added, trace w' = trace w ++ added
           ∧ Forall (λ k, is_copy k = false) added.

(** ** Running the monad *)

Lemma bind_Ok {A B} (m : M A) (k : A → M B) w a w' :
  m w = (Ok a, w') → (m ≫= k) w = k a w'.
Proof. intros H. unfold mbind, M_bind. by rewrite H. Qed.

Lemma bind_Throw {A B} (m : M A) (k : A → M B) w e w' :
  m w = (Throw e, w') → (m ≫= k) w = (Throw e, w').
Proof. intros H. unfold mbind, M_bind. by rewrite H. Qed.

Lemma ret_Ok {A} (a : A) w : (mret a : M A) w = (Ok a, w).
Proof. reflexivity. Qed.

Lemma on_throw_Ok {A} (m : M A) cleanup w a w' :
  m w = (Ok a, w') → on_throw m cleanup w = (Ok a, w').
Proof. intros H. unfold on_throw. by rewrite H. Qed.

Lemma on_throw_Throw {A} (m : M A) cleanup w e w' w'' :
  m w = (Throw e, w') → cleanup w' = (Ok tt, w'') →
  on_throw m cleanup w = (Throw e, w'').
Proof.
  intros H Hc. unfold on_throw. rewrite H.
  by rewrite (bind_Ok _ _ _ _ _ Hc).
Qed.

Lemma scope_exit_Ok {A} (m : M A) dtor w a w' w'' :
  m w = (Ok a, w') → dtor w' = (Ok tt, w'') →
  scope_exit m dtor w = (Ok a, w'').
Proof.
  intros H Hd. unfold scope_exit. rewrite H.
  by rewrite (bind_Ok _ _ _ _ _ Hd).
Qed.

Ltac wsimpl :=
  try unfold ptr_add, ptr_prev, GetAddress in *;
  cbn [heap fresh_addr avail vecs fuse trace
       set_heap set_vecs set_fuse set_trace
       base off buffer_ capacity_ data_ size_ fst snd] in *.

(** One step of a run: the first action returns normally, by [tac]. *)
Ltac wnorm :=
  try unfold set_heap, set_vecs, set_fuse, set_trace in *; wsimpl.

Ltac step_by tac :=
  erewrite bind_Ok; [ | solve [tac] ]; cbv beta; wnorm.

Lemma load_ok w a i blk x :
  heap w !! a = Some blk → blk !! i = Some (Some x) →
  load (Ptr (Some a) i) w = (Ok x, w).
Proof. intros Ha Hi. unfold load. wsimpl. by rewrite Ha, Hi. Qed.

Lemma store_ok w a i blk s :
  heap w !! a = Some blk → i < length blk →
  store (Ptr (Some a) i) s w
  = (Ok tt, set_heap (<[a := <[i := s]> blk]> (heap w)) w).
Proof.
  intros Ha Hi. unfold store. wsimpl. rewrite Ha.
  by rewrite decide_True.
Qed.

Lemma invoke_calm w k : calm w → invoke k w = record k w.
Proof.
  intros [Hf | Hn]; unfold invoke.
  - rewrite Hf. by destruct (may_throw k).
  - by rewrite Hn.
Qed.

Lemma invoke_ok w k :
  calm w → invoke k w = (Ok tt, set_trace (trace w ++ [k]) w).
Proof. intros H. by rewrite invoke_calm. Qed.

Lemma calm_fuse w w' : fuse w' = fuse w → calm w → calm w'.
Proof. unfold calm. intros ->. done. Qed.

Lemma this_ok w this v : vecs w !! this = Some v → this_ this w = (Ok v, w).
Proof. intros H. unfold this_. by rewrite H. Qed.

Lemma assert_ok b w : b = true → assert b w = (Ok tt, w).
Proof. by intros ->. Qed.

(** ** Single element operations *)

Lemma construct_at_copy_ok w s i sblk x d j dblk :
  calm w →
  heap w !! s = Some sblk → sblk !! i = Some (Some x) →
  heap w !! d = Some dblk → j < length dblk →
  construct_at (Ptr (Some d) j) (CopyOf (At (Ptr (Some s) i))) w
  = (Ok tt, set_heap (<[d := <[j := Some x]> dblk]> (heap w))
              (set_trace (trace w ++ [CopyCtor]) w)).
Proof.
  intros Hc Hs Hi Hd Hj. unfold construct_at, construct, deref.
  step_by ltac:(step_by ltac:(eapply load_ok; eauto);
                step_by ltac:(by apply invoke_ok);
                apply ret_Ok).
  erewrite store_ok; eauto.
Qed.

Lemma construct_at_move_ok w s i sblk x d j dblk :
  calm w → s ≠ d →
  heap w !! s = Some sblk → sblk !! i = Some (Some x) → i < length sblk →
  heap w !! d = Some dblk → j < length dblk →
  construct_at (Ptr (Some d) j) (MoveOf (At (Ptr (Some s) i))) w
  = (Ok tt, set_heap (<[d := <[j := Some x]> dblk]>
                        (<[s := <[i := Some (moved_from x)]> sblk]> (heap w)))
              (set_trace (trace w ++ [MoveCtor]) w)).
Proof.
  intros Hc Hne Hs Hi Hil Hd Hj.
  unfold construct_at, construct, deref, leave_moved_from.
  step_by ltac:(step_by ltac:(eapply load_ok; eauto);
                step_by ltac:(by apply invoke_ok);
                step_by ltac:(eapply store_ok; eauto);
                apply ret_Ok).
  erewrite store_ok; wsimpl; eauto.
  by rewrite lookup_insert_ne.
Qed.

(** ** The loops, when nothing raises *)

Lemma world_eta (w : World) :
  mkWorld (heap w) (fresh_addr w) (avail w) (vecs w) (fuse w) (trace w) = w.
Proof. by destruct w. Qed.

Lemma insert_middle {A} (l1 l2 : list A) y x n :
  length l1 = n → <[n := x]> (l1 ++ y :: l2) = l1 ++ x :: l2.
Proof.
  intros <-. replace (length l1) with (length l1 + 0) by lia.
  by rewrite insert_app_r.
Qed.

Lemma lookup_middle {A} (l1 l2 : list A) x n :
  length l1 = n → (l1 ++ x :: l2) !! n = Some x.
Proof. intros <-. by apply list_lookup_middle. Qed.

Lemma insert_twice {A} (h : gmap nat A) s d S1 S2 D1 D2 :
  <[d := D2]> (<[s := S2]> (<[d := D1]> (<[s := S1]> h)))
  = <[d := D2]> (<[s := S2]> h).
Proof.
  apply map_eq. intros k.
  destruct (decide (d = k)) as [-> | Hd]; [by rewrite !lookup_insert_eq |].
  rewrite !(lookup_insert_ne _ d) by done.
  destruct (decide (s = k)) as [-> | Hs]; [by rewrite !lookup_insert_eq |].
  repeat (rewrite lookup_insert_ne by done). done.
Qed.

Lemma uninitialized_copy_loop_ok xs : ∀ i w s so spre spost d do dpre dmid dpost,
  calm w → 
  heap w !! s = Some (spre ++ (Some <$> xs) ++ spost) → length spre = so + i →
  heap w !! d = Some (dpre ++ dmid ++ dpost) → length dpre = do + i →
  length dmid = length xs → s ≠ d →
  uninitialized_loop
    (λ i cur, construct_at cur (CopyOf (At (Ptr (Some s) (so + i)))))
    (Ptr (Some d) do) i (length xs) w
  = (Ok tt, set_heap (<[d := dpre ++ (Some <$> xs) ++ dpost]> (heap w))
              (set_trace (trace w ++ replicate (length xs) CopyCtor) w)).
Proof.
  induction xs as [| x xs IH]; intros i w s so spre spost d do dpre dmid dpost
    Hc Hs Hsl Hd Hdl Hm Hne.
  - destruct dmid; [| done]. cbn [uninitialized_loop length replicate fmap list_fmap].
    rewrite ret_Ok. unfold set_heap, set_trace. wsimpl.
    rewrite app_nil_r, insert_id by done. by rewrite world_eta.
  - destruct dmid as [| y dmid]; [done |].
    cbn [uninitialized_loop length]. wsimpl.
    rewrite fmap_cons in Hs. cbn [app] in Hd.
    step_by ltac:(apply on_throw_Ok; eapply construct_at_copy_ok; eauto; wsimpl;
                  [ by apply lookup_middle
                  | rewrite length_app; cbn [length]; lia ]).
    rewrite (IH (S i) _ s so (spre ++ [Some x]) spost d do (dpre ++ [Some x]) dmid dpost).
    + unfold set_heap, set_trace. wsimpl. do 2 f_equal.
      * rewrite insert_insert_eq. by rewrite <- app_assoc.
      * by rewrite <- app_assoc.
    + done.
    + wsimpl. rewrite lookup_insert_ne by done. rewrite Hs.
      by rewrite <- app_assoc.
    + rewrite length_app. cbn [length]. lia.
    + wsimpl. rewrite lookup_insert_eq.
      rewrite insert_middle by done. by rewrite <- app_assoc.
    + rewrite length_app. cbn [length]. lia.
    + by simplify_eq/=.
    + done.
Qed.

Ltac list_len :=
  cbn [app length] in *;
  repeat (rewrite ?length_app, ?length_fmap, ?length_replicate,
            ?length_insert, ?length_take, ?length_drop; cbn [length app]);
  lia.

Lemma uninitialized_move_loop_ok xs : ∀ i w s so spre spost d do dpre dmid dpost,
  calm w →
  heap w !! s = Some (spre ++ (Some <$> xs) ++ spost) → length spre = so + i →
  heap w !! d = Some (dpre ++ dmid ++ dpost) → length dpre = do + i →
  length dmid = length xs → s ≠ d →
  uninitialized_loop
    (λ i cur, construct_at cur (MoveOf (At (Ptr (Some s) (so + i)))))
    (Ptr (Some d) do) i (length xs) w
  = (Ok tt, set_heap (<[d := dpre ++ (Some <$> xs) ++ dpost]>
                        (<[s := spre ++ (Some <$> (moved_from <$> xs)) ++ spost]>
                           (heap w)))
              (set_trace (trace w ++ replicate (length xs) MoveCtor) w)).
Proof.
  induction xs as [| x xs IH]; intros i w s so spre spost d do dpre dmid dpost
    Hc Hs Hsl Hd Hdl Hm Hne.
  - destruct dmid; [| done]. cbn [uninitialized_loop length replicate fmap list_fmap].
    rewrite ret_Ok. unfold set_heap, set_trace. wsimpl.
    rewrite app_nil_r. rewrite (insert_id (heap w) s) by done.
    rewrite insert_id by done. by rewrite world_eta.
  - destruct dmid as [| y dmid]; [done |].
    cbn [uninitialized_loop length]. wsimpl.
    rewrite fmap_cons in Hs. cbn [app] in Hs, Hd.
    step_by ltac:(apply on_throw_Ok; eapply construct_at_move_ok; eauto; wsimpl;
                  [ by apply lookup_middle
                  | list_len
                  | list_len ]).
    rewrite !insert_middle by done.
    rewrite (IH (S i) _ s so (spre ++ [Some (moved_from x)]) spost
               d do (dpre ++ [Some x]) dmid dpost).
    + unfold set_heap, set_trace. wsimpl. do 2 f_equal.
      * rewrite insert_twice. rewrite !fmap_cons. by rewrite <- !app_assoc.
      * by rewrite <- app_assoc.
    + done.
    + wsimpl. rewrite lookup_insert_ne by done. rewrite lookup_insert_eq.
      by rewrite <- app_assoc.
    + list_len.
    + wsimpl. rewrite lookup_insert_eq. by rewrite <- app_assoc.
    + list_len.
    + by simplify_eq/=.
    + done.
Qed.

Lemma uninitialized_value_construct_loop_ok dmid : ∀ i w d do dpre dpost,
  calm w →
  heap w !! d = Some (dpre ++ dmid ++ dpost) → length dpre = do + i →
  uninitialized_loop (λ _ cur, value_construct_at cur)
    (Ptr (Some d) do) i (length dmid) w
  = (Ok tt, set_heap (<[d := dpre ++ replicate (length dmid) (Some T_default)
                                 ++ dpost]> (heap w))
              (set_trace (trace w ++ replicate (length dmid) DefaultCtor) w)).
Proof.
  induction dmid as [| y dmid IH]; intros i w d do dpre dpost Hc Hd Hdl.
  - cbn [uninitialized_loop length replicate].
    rewrite ret_Ok. unfold set_heap, set_trace. wsimpl.
    rewrite app_nil_r, insert_id by done. by rewrite world_eta.
  - cbn [uninitialized_loop length]. wsimpl. cbn [app] in Hd.
    step_by ltac:(apply on_throw_Ok; unfold value_construct_at;
                  step_by ltac:(by apply invoke_ok);
                  eapply store_ok; wsimpl; eauto;
                  list_len).
    rewrite insert_middle by done.
    rewrite (IH (S i) _ d do (dpre ++ [Some T_default]) dpost).
    + unfold set_heap, set_trace. wsimpl. do 2 f_equal.
      * rewrite insert_insert_eq. cbn [replicate]. by rewrite <- app_assoc.
      * by rewrite <- app_assoc.
    + done.
    + wsimpl. rewrite lookup_insert_eq. by rewrite <- app_assoc.
    + list_len.
Qed.

Lemma destroy_n_ok ys : ∀ w a o pre post,
  heap w !! a = Some (pre ++ (Some <$> ys) ++ post) → length pre = o →
  destroy_n (Ptr (Some a) o) (length ys) w
  = (Ok tt, set_heap (<[a := pre ++ replicate (length ys) None ++ post]> (heap w))
              (set_trace (trace w ++ replicate (length ys) Dtor) w)).
Proof.
  induction ys as [| y ys IH]; intros w a o pre post Ha Hl.
  - cbn [destroy_n length replicate].
    rewrite ret_Ok. unfold set_heap, set_trace. wsimpl.
    rewrite app_nil_r, insert_id by done. by rewrite world_eta.
  - cbn [destroy_n length]. wsimpl. rewrite fmap_cons in Ha. cbn [app] in Ha.
    step_by ltac:(unfold destroy_at;
                  step_by ltac:(eapply load_ok; eauto; by apply lookup_middle);
                  step_by ltac:(reflexivity);
                  eapply store_ok; wsimpl; eauto;
                  list_len).
    rewrite insert_middle by done.
    rewrite (IH _ a (o + 1) (pre ++ [None]) post).
    + unfold set_heap, set_trace. wsimpl. do 2 f_equal.
      * rewrite insert_insert_eq. cbn [replicate]. by rewrite <- app_assoc.
      * by rewrite <- app_assoc.
    + wsimpl. rewrite lookup_insert_eq. by rewrite <- app_assoc.
    + list_len.
Qed.

(** ** Allocation *)

(** A request that fits into the address space asks the provider for as
    many elements as the caller means. *)
Lemma slots_of_byte_count n : addressable n → slots_of (byte_count n) = n.
Proof.
  unfold addressable, slots_of, byte_count. intros Hn.
  rewrite N.mod_small by done. rewrite N.div_mul by done. apply Nat2N.id.
Qed.

Lemma addressable_le n m : n ≤ m → addressable m → addressable n.
Proof.
  unfold addressable. intros Hle Hm.
  eapply N.le_lt_trans; [| exact Hm]. apply N.mul_le_mono_r. lia.
Qed.

Lemma wf_heap w a : wf w → fresh_addr w ≤ a → heap w !! a = None.
Proof. intros [Hh _]. apply Hh. Qed.

Lemma RawMemory_ctor_ok w n :
  wf w → 0 < n → n ≤ avail w →
  RawMemory_ctor n w
  = (Ok (mkRawMemory (Some (fresh_addr w)) n),
     mkWorld (<[fresh_addr w := replicate n None]> (heap w))
             (S (fresh_addr w)) (avail w - n) (vecs w) (fuse w) (trace w)).
Proof.
  intros [_ Hadr] Hn Ha. unfold RawMemory_ctor, Allocate, operator_new.
  rewrite decide_True by done.
  rewrite slots_of_byte_count by (by eapply addressable_le).
  step_by ltac:(step_by ltac:(cbv zeta; rewrite decide_True by done;
                              reflexivity);
                apply ret_Ok).
  reflexivity.
Qed.

Lemma RawMemory_ctor_zero w :
  RawMemory_ctor 0 w = (Ok (mkRawMemory None 0), w).
Proof. reflexivity. Qed.

Lemma RawMemory_ctor_fail w n :
  avail w < slots_of (byte_count n) →
  RawMemory_ctor n w = (Throw AllocationError, w).
Proof.
  intros Ha. unfold RawMemory_ctor, Allocate, operator_new.
  assert (Hn : 0 < n).
  { destruct n; [| lia]. change (slots_of (byte_count 0)) with 0 in Ha. lia. }
  rewrite decide_True by done.
  erewrite bind_Throw; [done |].
  erewrite bind_Throw; [done |].
  cbv zeta. rewrite decide_False by lia. done.
Qed.

Lemma RawMemory_dtor_ok w a blk cap :
  heap w !! a = Some blk →
  RawMemory_dtor (mkRawMemory (Some a) cap) w
  = (Ok tt, mkWorld (delete a (heap w)) (fresh_addr w) (avail w + length blk)
                    (vecs w) (fuse w) (trace w)).
Proof.
  intros Ha. unfold RawMemory_dtor, Deallocate, operator_delete. wsimpl.
  by rewrite Ha.
Qed.

Lemma RawMemory_dtor_null w cap :
  RawMemory_dtor (mkRawMemory None cap) w = (Ok tt, w).
Proof. reflexivity. Qed.

Lemma with_RawMemory_ok {A} n (body : RawMemory → M (RawMemory * A))
    w nd0 w0 nd a w1 w2 :
  RawMemory_ctor n w = (Ok nd0, w0) →
  body nd0 w0 = (Ok (nd, a), w1) →
  RawMemory_dtor nd w1 = (Ok tt, w2) →
  with_RawMemory n body w = (Ok a, w2).
Proof.
  intros Hc Hb Hd. unfold with_RawMemory.
  rewrite (bind_Ok _ _ _ _ _ Hc). rewrite Hb.
  by rewrite (bind_Ok _ _ _ _ _ Hd).
Qed.

Lemma with_RawMemory_fail {A} n (body : RawMemory → M (RawMemory * A)) w :
  avail w < slots_of (byte_count n) →
  with_RawMemory n body w = (Throw AllocationError, w).
Proof.
  intros Ha. unfold with_RawMemory.
  erewrite bind_Throw; [done |]. by apply RawMemory_ctor_fail.
Qed.

(** ** OverwriteData *)

Lemma OverwriteData_ok xs w s first last sblk spre spost d do dblk dpre dmid dpost :
  calm w →
  heap w !! s = Some sblk → sblk = spre ++ (Some <$> xs) ++ spost →
  length spre = first → last - first = length xs →
  heap w !! d = Some dblk → dblk = dpre ++ dmid ++ dpost →
  length dpre = do → length dmid = length xs → s ≠ d →
  OverwriteData (Ptr (Some s) first) (Ptr (Some s) last) (Ptr (Some d) do) w
  = (Ok tt, set_heap (<[d := dpre ++ (Some <$> xs) ++ dpost]>
                        (<[s := spre ++ (Some <$> (transferred <$> xs)) ++ spost]>
                           (heap w)))
              (set_trace (trace w ++ replicate (length xs) transfer_ctor) w)).
Proof.
  intros Hc Hs -> Hsl Hn Hd -> Hdl Hm Hne.
  unfold OverwriteData, transferred, transfer_ctor.
  unfold uninitialized_move, uninitialized_copy, distance. wsimpl.
  rewrite Hn. destruct use_move.
  - apply (uninitialized_move_loop_ok xs 0 w s first spre spost d do dpre dmid dpost);
      auto with lia.
  - rewrite (uninitialized_copy_loop_ok xs 0 w s first spre spost d do dpre dmid dpost);
      auto with lia.
    unfold set_heap, set_trace. wsimpl. do 3 f_equal.
    rewrite list_fmap_id. by rewrite insert_id.
Qed.

Lemma OverwriteData_nil w first last d_first :
  distance first last = 0 → OverwriteData first last d_first w = (Ok tt, w).
Proof.
  intros H. unfold OverwriteData, uninitialized_move, uninitialized_copy.
  rewrite H. by destruct use_move.
Qed.

Lemma destroy_ok ys w a first last blk pre post :
  heap w !! a = Some blk → blk = pre ++ (Some <$> ys) ++ post →
  length pre = first → last - first = length ys →
  destroy (Ptr (Some a) first) (Ptr (Some a) last) w
  = (Ok tt, set_heap (<[a := pre ++ replicate (length ys) None ++ post]> (heap w))
              (set_trace (trace w ++ replicate (length ys) Dtor) w)).
Proof.
  intros Ha -> Hl Hn. unfold destroy, distance. wsimpl. rewrite Hn.
  by apply destroy_n_ok.
Qed.

Lemma destroy_nil w first last :
  distance first last = 0 → destroy first last w = (Ok tt, w).
Proof. intros H. unfold destroy. by rewrite H. Qed.

(** ** Constructor arguments *)

Lemma slot_Some w p x :
  slot w p = Some x →
  ∃ a blk, base p = Some a ∧ heap w !! a = Some blk
           ∧ blk !! off p = Some (Some x).
Proof.
  unfold slot. destruct (base p) as [a |]; [| done]. cbn.
  destruct (heap w !! a) as [blk |] eqn:Ha; [| done]. cbn.
  destruct (blk !! off p) as [[y |] |] eqn:Hi; cbn; try done.
  intros [= ->]. eauto.
Qed.

Lemma load_slot w p x : slot w p = Some x → load p w = (Ok x, w).
Proof.
  intros (a & blk & Hb & Ha & Hi)%slot_Some. unfold load.
  by rewrite Hb, Ha, Hi.
Qed.

Lemma construct_ok w args x :
  calm w → arg_value w args = Some x →
  construct args w = (Ok x, set_trace (trace w ++ [arg_kind args]) w).
Proof.
  intros Hc Hv. destruct args as [[p | y] | [p | y] | y]; cbn in Hv;
    simplify_eq; unfold construct, deref, leave_moved_from.
  - step_by ltac:(by apply load_slot).
    step_by ltac:(by apply invoke_ok). reflexivity.
  - step_by ltac:(apply ret_Ok).
    step_by ltac:(by apply invoke_ok). reflexivity.
  - step_by ltac:(apply ret_Ok).
    step_by ltac:(by apply invoke_ok).
    step_by ltac:(apply ret_Ok). reflexivity.
  - step_by ltac:(by apply invoke_ok). reflexivity.
Qed.

Lemma construct_at_ok w args x d j dblk :
  calm w → arg_value w args = Some x →
  heap w !! d = Some dblk → j < length dblk →
  construct_at (Ptr (Some d) j) args w
  = (Ok tt, set_heap (<[d := <[j := Some x]> dblk]> (heap w))
              (set_trace (trace w ++ [arg_kind args]) w)).
Proof.
  intros Hc Hv Hd Hj. unfold construct_at.
  step_by ltac:(by apply construct_ok).
  by erewrite store_ok.
Qed.

Lemma slot_frame w w' p x :
  (∀ a blk, heap w !! a = Some blk → heap w' !! a = Some blk) →
  slot w p = Some x → slot w' p = Some x.
Proof.
  intros Hf (a & blk & Hb & Ha & Hi)%slot_Some. unfold slot.
  rewrite Hb. cbn. rewrite (Hf _ _ Ha). cbn. by rewrite Hi.
Qed.

Lemma arg_value_frame w w' args x :
  (∀ a blk, heap w !! a = Some blk → heap w' !! a = Some blk) →
  arg_value w args = Some x → arg_value w' args = Some x.
Proof.
  intros Hf. destruct args as [[p | y] | [p | y] | y]; cbn; try done.
  by apply slot_frame.
Qed.

(** ** Vector accessors *)

Lemma Vector_begin_ok w this v :
  vecs w !! this = Some v →
  Vector_begin this w = (Ok (Ptr (buffer_ (data_ v)) 0), w).
Proof.
  intros H. unfold Vector_begin. step_by ltac:(by apply this_ok). done.
Qed.

Lemma Vector_end_ok w this v :
  vecs w !! this = Some v → size_ v ≤ capacity_ (data_ v) →
  Vector_end this w = (Ok (Ptr (buffer_ (data_ v)) (size_ v)), w).
Proof.
  intros H Hle. unfold Vector_end, RawMemory_plus.
  step_by ltac:(by apply this_ok).
  step_by ltac:(apply assert_ok; by apply bool_decide_eq_true).
  done.
Qed.

Lemma ptr_le_same buf i j : i ≤ j → ptr_le (Ptr buf i) (Ptr buf j) = true.
Proof.
  intros H. unfold ptr_le. wsimpl.
  rewrite !bool_decide_eq_true_2; done.
Qed.

Lemma ptr_lt_same buf i j : i < j → ptr_lt (Ptr buf i) (Ptr buf j) = true.
Proof.
  intros H. unfold ptr_lt. wsimpl.
  rewrite !bool_decide_eq_true_2; done.
Qed.

Lemma wf_fresh w a blk : wf w → heap w !! a = Some blk → a < fresh_addr w.
Proof.
  intros Hwf Ha. destruct (decide (a < fresh_addr w)); [done |].
  rewrite (wf_heap _ _ Hwf) in Ha by lia. done.
Qed.

(** ** Emplace *)

Lemma replicate_three {A} (x : A) p n c :
  p ≤ n → S n ≤ c →
  replicate c x
  = replicate p x ++ x :: replicate (n - p) x ++ replicate (c - S n) x.
Proof.
  intros Hp Hn. rewrite <- replicate_add.
  change (x :: replicate (n - p + (c - S n)) x)
    with (replicate (S (n - p + (c - S n))) x).
  rewrite <- replicate_add. f_equal. lia.
Qed.

Lemma fmap_take_drop {A B} (f : A → B) p (xs : list A) :
  (f <$> take p xs) ++ (f <$> drop p xs) = f <$> xs.
Proof. by rewrite <- fmap_app, take_drop. Qed.

Ltac calm_tac := eapply calm_fuse; [| eassumption]; reflexivity.

Ltac list_eq :=
  rewrite ?app_nil_r; repeat rewrite <- app_assoc; cbn [app];
  rewrite ?app_nil_r; reflexivity.

(** Lookups in a heap built by inserts and deletes at known addresses. *)
Ltac hlookup :=
  wnorm;
  repeat first
    [ rewrite lookup_insert_eq
    | rewrite lookup_insert_ne by (done || lia || congruence)
    | rewrite lookup_delete_eq
    | rewrite lookup_delete_ne by (done || lia || congruence) ];
  try eassumption; try reflexivity.

Lemma Emplace_grow_ok w this a xs p args x :
  calm w → wf w → rep w this (Some a) xs (length xs) → p ≤ length xs →
  arg_value w args = Some x →
  next_capacity (length xs) ≤ avail w →
  Emplace this (Ptr (Some a) p) args w
  = (Ok (Ptr (Some (fresh_addr w)) p),
     mkWorld
       (<[fresh_addr w :=
            (Some <$> take p xs) ++ Some x :: (Some <$> drop p xs)
            ++ replicate (next_capacity (length xs) - S (length xs)) None]>
          (delete a (heap w)))
       (S (fresh_addr w))
       (avail w - next_capacity (length xs) + length xs)
       (<[this := mkVector (mkRawMemory (Some (fresh_addr w))
                              (next_capacity (length xs)))
                           (S (length xs))]> (vecs w))
       (fuse w)
       (trace w ++ [arg_kind args]
          ++ replicate (length xs) transfer_ctor
          ++ replicate (length xs) Dtor)).
Proof.
  intros Hc Hwf (Hv & _ & Ha) Hp Hx Hav.
  assert (Hfa : a ≠ fresh_addr w).
  { apply wf_fresh in Ha; [lia | done]. }
  assert (Hnc : S (length xs) ≤ next_capacity (length xs)).
  { unfold next_capacity. case_decide; lia. }
  rewrite Nat.sub_diag in Ha. cbn [replicate] in Ha. rewrite app_nil_r in Ha.
  unfold Emplace.
  step_by ltac:(by eapply Vector_begin_ok).
  step_by ltac:(by eapply Vector_end_ok).
  step_by ltac:(apply assert_ok; rewrite !ptr_le_same by lia; done).
  step_by ltac:(by apply this_ok).
  rewrite decide_True by done.
  unfold distance. wsimpl. rewrite Nat.sub_0_r.
  change (if decide (length xs = 0) then 1 else length xs * 2)
    with (next_capacity (length xs)).
  erewrite bind_Ok; cycle 1.
  { eapply with_RawMemory_ok.
    - apply RawMemory_ctor_ok; [done | lia | done].
    - cbv beta. wsimpl. rewrite Nat.add_0_l.
      rewrite (replicate_three None p (length xs)) by lia.
      step_by ltac:(eapply construct_at_ok;
        [ done
        | eapply arg_value_frame; [| exact Hx];
          intros a0 blk0 H0; wsimpl;
          rewrite lookup_insert_ne; [done |];
          apply wf_fresh in H0; [lia | done]
        | hlookup
        | list_len ]).
      rewrite insert_middle by list_len.
      rewrite insert_insert_eq.
      step_by ltac:(eapply (OverwriteData_ok (take p xs) _ a 0 p _
                       [] (Some <$> drop p xs) _ 0 _ [] (replicate p None));
        [ calm_tac
        | hlookup
        | by rewrite app_nil_l, fmap_take_drop
        | done
        | list_len
        | hlookup
        | done
        | done
        | list_len
        | done ]).
      step_by ltac:(eapply (OverwriteData_ok (drop p xs) _ a p (length xs) _
                       ([] ++ (Some <$> (transferred <$> take p xs))) [] _ (p + 1) _
                       ([] ++ (Some <$> take p xs) ++ [Some x])
                       (replicate (length xs - p) None)
                       (replicate (next_capacity (length xs) - S (length xs)) None));
        [ calm_tac
        | hlookup
        | list_eq
        | list_len
        | list_len
        | hlookup
        | list_eq
        | list_len
        | list_len
        | done ]).
      step_by ltac:(eapply (destroy_ok (transferred <$> xs) _ a 0 (length xs) _ [] []);
        [ hlookup
        | rewrite app_nil_l, !app_nil_r, <- !fmap_app, take_drop; done
        | done
        | list_len ]).
      cbn [RawMemory_Swap buffer_ capacity_].
      step_by ltac:(reflexivity).
      reflexivity.
    - eapply RawMemory_dtor_ok. hlookup. }
  cbv beta. wnorm.
  step_by ltac:(apply this_ok; hlookup).
  step_by ltac:(reflexivity).
  step_by ltac:(eapply Vector_begin_ok; hlookup).
  rewrite ret_Ok. wnorm. rewrite Nat.add_0_l.
  f_equal. f_equal.
  - apply map_eq. intros k.
    destruct (decide (k = a)) as [-> |]; [by hlookup |].
    destruct (decide (k = fresh_addr w)) as [-> |]; hlookup.
    f_equal. list_eq.
  - list_len.
  - rewrite insert_insert_eq. do 2 f_equal. lia.
  - rewrite length_take, length_drop, length_fmap, Nat.min_l by done.
    repeat rewrite <- app_assoc. do 2 f_equal.
    rewrite app_assoc, <- replicate_add. do 2 f_equal. lia.
Qed.

(** ** Assignments inside one block *)

Lemma move_assign_ok w a blk i j x y :
  calm w → heap w !! a = Some blk →
  blk !! i = Some (Some x) → blk !! j = Some (Some y) →
  move_assign (Ptr (Some a) j) (Ptr (Some a) i) w
  = (Ok tt, set_heap (<[a := <[j := Some x]> (<[i := Some (moved_from x)]> blk)]>
                        (heap w))
              (set_trace (trace w ++ [MoveAssign]) w)).
Proof.
  intros Hc Ha Hi Hj. unfold move_assign.
  step_by ltac:(by eapply load_ok).
  step_by ltac:(by eapply load_ok).
  step_by ltac:(apply invoke_ok; calm_tac).
  step_by ltac:(eapply store_ok; wsimpl; [done | by eapply lookup_lt_Some]).
  erewrite store_ok; [| hlookup | rewrite length_insert; by eapply lookup_lt_Some].
  wnorm. by rewrite insert_insert_eq.
Qed.

Lemma copy_assign_ok w a blk i j x y :
  calm w → heap w !! a = Some blk →
  blk !! i = Some (Some x) → blk !! j = Some (Some y) →
  copy_assign (Ptr (Some a) j) (Ptr (Some a) i) w
  = (Ok tt, set_heap (<[a := <[j := Some x]> blk]> (heap w))
              (set_trace (trace w ++ [CopyAssign]) w)).
Proof.
  intros Hc Ha Hi Hj. unfold copy_assign.
  step_by ltac:(by eapply load_ok).
  step_by ltac:(by eapply load_ok).
  step_by ltac:(apply invoke_ok; calm_tac).
  erewrite store_ok; [| hlookup | by eapply lookup_lt_Some].
  by wnorm.
Qed.

Lemma shifted_right_snoc mid m z :
  shifted_right (mid ++ [m]) z = shifted_right mid (moved_from m) ++ [m].
Proof. by destruct mid. Qed.

Lemma move_backward_loop_ok mid : ∀ w a pre z post last,
  calm w →
  heap w !! a = Some (pre ++ (Some <$> mid) ++ Some z :: post) →
  last = length pre + length mid →
  assign_backward move_assign (Ptr (Some a) last) (Ptr (Some a) (S last))
    (length mid) w
  = (Ok tt, set_heap (<[a := pre ++ (Some <$> shifted_right mid z) ++ post]>
                        (heap w))
              (set_trace (trace w ++ replicate (length mid) MoveAssign) w)).
Proof.
  induction mid as [| m mid IH] using rev_ind; intros w a pre z post last Hc Ha Hl.
  - cbn [assign_backward length replicate shifted_right fmap list_fmap].
    rewrite ret_Ok. wnorm. cbn [app] in Ha.
    rewrite app_nil_r, insert_id by done. by rewrite world_eta.
  - rewrite length_app, Nat.add_1_r in *. cbn [length] in *.
    cbn [assign_backward]. wsimpl.
    rewrite fmap_app, <- app_assoc in Ha. cbn [fmap list_fmap app] in Ha.
    replace (S last - 1) with last by lia.
    replace (last - 1) with (length pre + length mid) by lia.
    replace last with (S (length pre + length mid)) by lia.
    step_by ltac:(eapply (move_assign_ok _ a _ _ _ m z);
      [ done | done
      | rewrite app_assoc; apply lookup_middle; list_len
      | change (Some m :: Some z :: post) with ([Some m] ++ Some z :: post);
        rewrite !app_assoc; apply lookup_middle; list_len ]).
    rewrite (IH _ a pre (moved_from m) (Some m :: post)).
    + wnorm. do 2 f_equal.
      * rewrite insert_insert_eq. f_equal.
        rewrite shifted_right_snoc, fmap_app. by rewrite <- app_assoc.
      * by rewrite <- app_assoc.
    + calm_tac.
    + hlookup. f_equal.
      rewrite (app_assoc pre).
      rewrite (insert_middle _ _ (Some m)) by list_len.
      rewrite <- app_assoc. cbn [app].
      change (Some (moved_from m) :: Some z :: post)
        with ([Some (moved_from m)] ++ Some z :: post).
      rewrite !app_assoc.
      rewrite (insert_middle _ _ (Some z)) by list_len.
      by rewrite <- !app_assoc.
    + lia.
Qed.

Lemma shifted_left_length leave z mid :
  length (shifted_left leave z mid) = S (length mid).
Proof. revert z. induction mid; intros; cbn; auto. Qed.

Lemma shifted_left_front leave mid : ∀ z,
  ∃ y, shifted_left leave z mid = mid ++ [y].
Proof.
  induction mid as [| m mid IH]; intros z; cbn.
  - by exists z.
  - destruct (IH (leave m)) as [y ->]. by exists y.
Qed.

Lemma assign_forward_loop_ok (mv : bool) mid : ∀ w a pre z post first,
  calm w →
  heap w !! a = Some (pre ++ Some z :: (Some <$> mid) ++ post) →
  first = length pre →
  assign_forward (if mv then move_assign else copy_assign)
    (Ptr (Some a) (first + 1)) (Ptr (Some a) first) (length mid) w
  = (Ok tt,
     set_heap (<[a := pre ++ (Some <$> shifted_left
                                (if mv then moved_from else id) z mid) ++ post]>
                 (heap w))
       (set_trace (trace w ++ replicate (length mid)
                                (if mv then MoveAssign else CopyAssign)) w)).
Proof.
  induction mid as [| m mid IH]; intros w a pre z post first Hc Ha Hl.
  - cbn [assign_forward length replicate shifted_left fmap list_fmap app].
    rewrite ret_Ok. wnorm.
    rewrite app_nil_r, insert_id by done. by rewrite world_eta.
  - cbn [assign_forward length]. wsimpl.
    rewrite fmap_cons in Ha.
    assert (Hsrc : (pre ++ Some z :: Some m :: (Some <$> mid) ++ post)
                   !! (first + 1) = Some (Some m)).
    { change (Some z :: Some m :: (Some <$> mid) ++ post)
        with ([Some z] ++ Some m :: (Some <$> mid) ++ post).
      rewrite app_assoc. apply lookup_middle. list_len. }
    assert (Hdst : (pre ++ Some z :: Some m :: (Some <$> mid) ++ post)
                   !! first = Some (Some z)).
    { by apply lookup_middle. }
    cbn [app] in Ha.
    destruct mv.
    + step_by ltac:(by eapply move_assign_ok).
      rewrite (IH _ a (pre ++ [Some m]) (moved_from m) post (first + 1)).
      * wnorm. do 2 f_equal.
        -- rewrite insert_insert_eq. f_equal. cbn [shifted_left].
           rewrite fmap_cons. by rewrite <- app_assoc.
        -- by rewrite <- app_assoc.
      * calm_tac.
      * hlookup. f_equal.
        change (Some z :: Some m :: (Some <$> mid) ++ post)
          with ([Some z] ++ Some m :: (Some <$> mid) ++ post).
        rewrite app_assoc.
        rewrite (insert_middle _ _ (Some m)) by list_len.
        rewrite <- app_assoc. cbn [app].
        rewrite (insert_middle _ _ (Some z)) by list_len.
        by rewrite <- app_assoc.
      * list_len.
    + step_by ltac:(by eapply copy_assign_ok).
      rewrite (IH _ a (pre ++ [Some m]) m post (first + 1)).
      * wnorm. do 2 f_equal.
        -- rewrite insert_insert_eq. f_equal. cbn [shifted_left].
           rewrite fmap_cons. by rewrite <- app_assoc.
        -- by rewrite <- app_assoc.
      * calm_tac.
      * hlookup. f_equal.
        rewrite (insert_middle _ _ (Some z)) by list_len.
        by rewrite <- app_assoc.
      * list_len.
Qed.

Lemma Emplace_null_ok w this args x :
  calm w → wf w → rep w this None [] 0 →
  arg_value w args = Some x → 1 ≤ avail w →
  Emplace this (Ptr None 0) args w
  = (Ok (Ptr (Some (fresh_addr w)) 0),
     mkWorld (<[fresh_addr w := [Some x]]> (heap w)) (S (fresh_addr w))
       (avail w - 1)
       (<[this := mkVector (mkRawMemory (Some (fresh_addr w)) 1) 1]> (vecs w))
       (fuse w) (trace w ++ [arg_kind args])).
Proof.
  intros Hc Hwf (Hv & _ & _) Hx Hav. cbn [length] in Hv.
  unfold Emplace.
  step_by ltac:(by eapply Vector_begin_ok).
  step_by ltac:(by eapply Vector_end_ok).
  step_by ltac:(apply assert_ok; rewrite !ptr_le_same by lia; done).
  step_by ltac:(by apply this_ok).
  rewrite decide_True by done. rewrite decide_True by done.
  unfold distance. wsimpl. cbn [Nat.sub].
  erewrite bind_Ok; cycle 1.
  { eapply with_RawMemory_ok.
    - apply RawMemory_ctor_ok; [done | lia | done].
    - cbv beta. wsimpl. cbn [Nat.add replicate].
      step_by ltac:(eapply construct_at_ok;
        [ done
        | eapply arg_value_frame; [| exact Hx];
          intros a0 blk0 H0; wsimpl;
          rewrite lookup_insert_ne; [done |];
          apply wf_fresh in H0; [lia | done]
        | hlookup
        | list_len ]).
      step_by ltac:(by apply OverwriteData_nil).
      step_by ltac:(by apply OverwriteData_nil).
      step_by ltac:(by apply destroy_nil).
      cbn [RawMemory_Swap buffer_ capacity_].
      step_by ltac:(reflexivity).
      reflexivity.
    - apply RawMemory_dtor_null. }
  cbv beta. wnorm.
  step_by ltac:(apply this_ok; hlookup).
  step_by ltac:(reflexivity).
  step_by ltac:(eapply Vector_begin_ok; hlookup).
  rewrite ret_Ok. wnorm.
  do 2 f_equal.
  - by rewrite insert_insert_eq.
  - by rewrite insert_insert_eq.
Qed.

Lemma Emplace_end_ok w this a xs cap args x :
  calm w → rep w this (Some a) xs cap → length xs < cap →
  arg_value w args = Some x →
  Emplace this (Ptr (Some a) (length xs)) args w
  = (Ok (Ptr (Some a) (length xs)),
     mkWorld
       (<[a := (Some <$> xs) ++ Some x :: replicate (cap - S (length xs)) None]>
          (heap w))
       (fresh_addr w) (avail w)
       (<[this := mkVector (mkRawMemory (Some a) cap) (S (length xs))]> (vecs w))
       (fuse w) (trace w ++ [arg_kind args])).
Proof.
  intros Hc (Hv & _ & Ha) Hlt Hx.
  replace (cap - length xs) with (S (cap - S (length xs))) in Ha by lia.
  cbn [replicate] in Ha.
  unfold Emplace.
  step_by ltac:(by eapply Vector_begin_ok).
  step_by ltac:(eapply Vector_end_ok; [done | wsimpl; lia]).
  step_by ltac:(apply assert_ok; rewrite !ptr_le_same by lia; done).
  step_by ltac:(by apply this_ok).
  rewrite decide_False by lia.
  unfold distance. wsimpl. rewrite Nat.sub_0_r.
  rewrite decide_True by done.
  step_by ltac:(eapply construct_at_ok; [done | done | done | list_len ]).
  step_by ltac:(apply this_ok; hlookup).
  step_by ltac:(reflexivity).
  step_by ltac:(eapply Vector_begin_ok; hlookup).
  rewrite ret_Ok. wnorm. rewrite Nat.add_0_l.
  do 2 f_equal.
  - by rewrite insert_middle by list_len.
  - do 2 f_equal. lia.
Qed.

Lemma construct_at_transfer_ok w a blk i j l :
  calm w → heap w !! a = Some blk →
  blk !! i = Some (Some l) → j < length blk →
  (if use_move
   then construct_at (Ptr (Some a) j) (MoveOf (At (Ptr (Some a) i)))
   else construct_at (Ptr (Some a) j) (CopyOf (At (Ptr (Some a) i)))) w
  = (Ok tt, set_heap (<[a := <[j := Some l]> (<[i := Some (transferred l)]> blk)]>
                        (heap w))
              (set_trace (trace w ++ [transfer_ctor]) w)).
Proof.
  intros Hc Ha Hi Hj. unfold transferred, transfer_ctor.
  destruct use_move.
  - unfold construct_at, construct, deref, leave_moved_from.
    step_by ltac:(
      step_by ltac:(by eapply load_ok);
      step_by ltac:(by apply invoke_ok);
      step_by ltac:(eapply store_ok; wsimpl; [done | by eapply lookup_lt_Some]);
      apply ret_Ok).
    erewrite store_ok; [| hlookup | by rewrite length_insert].
    wnorm. by rewrite insert_insert_eq.
  - rewrite (list_insert_id blk i) by done.
    by eapply construct_at_copy_ok.
Qed.

Lemma shifted_right_cons mid z : ∃ y, shifted_right mid z = y :: mid.
Proof. destruct mid; cbn; eauto. Qed.

Lemma move_assign_local_ok w a blk i x y :
  calm w → heap w !! a = Some blk → blk !! i = Some (Some y) →
  move_assign_local (Ptr (Some a) i) x w
  = (Ok tt, set_heap (<[a := <[i := Some x]> blk]> (heap w))
              (set_trace (trace w ++ [MoveAssign]) w)).
Proof.
  intros Hc Ha Hi. unfold move_assign_local.
  step_by ltac:(by eapply load_ok).
  step_by ltac:(apply invoke_ok; calm_tac).
  erewrite store_ok; [| hlookup | by eapply lookup_lt_Some].
  by wnorm.
Qed.

Lemma insert_app3 {A} (l1 l2 l3 : list A) y x n :
  length l1 + length l2 = n →
  <[n := x]> (l1 ++ l2 ++ y :: l3) = l1 ++ l2 ++ x :: l3.
Proof.
  intros H. rewrite !app_assoc. apply insert_middle. list_len.
Qed.

Lemma insert_app3_next {A} (l1 l2 l3 : list A) y0 y x n :
  length l1 + length l2 = n →
  <[S n := x]> (l1 ++ l2 ++ y0 :: y :: l3) = l1 ++ l2 ++ y0 :: x :: l3.
Proof.
  intros H.
  change (y0 :: y :: l3) with ([y0] ++ y :: l3).
  change (y0 :: x :: l3) with ([y0] ++ x :: l3).
  rewrite !app_assoc. apply insert_middle. list_len.
Qed.

Lemma lookup_app3 {A} (l1 l2 l3 : list A) y n :
  length l1 + length l2 = n → (l1 ++ l2 ++ y :: l3) !! n = Some y.
Proof.
  intros H. rewrite !app_assoc. apply lookup_middle. list_len.
Qed.

Lemma Emplace_mid_ok w this a pre mid l cap args x :
  calm w → rep w this (Some a) (pre ++ mid ++ [l]) cap →
  length (pre ++ mid ++ [l]) < cap →
  arg_value w args = Some x →
  Emplace this (Ptr (Some a) (length pre)) args w
  = (Ok (Ptr (Some a) (length pre)),
     mkWorld
       (<[a := (Some <$> pre ++ x :: mid ++ [l])
               ++ replicate (cap - S (length (pre ++ mid ++ [l]))) None]>
          (heap w))
       (fresh_addr w) (avail w)
       (<[this := mkVector (mkRawMemory (Some a) cap)
                           (S (length (pre ++ mid ++ [l])))]> (vecs w))
       (fuse w)
       (trace w ++ [arg_kind args; transfer_ctor]
          ++ replicate (length mid) MoveAssign ++ [MoveAssign; Dtor])).
Proof.
  intros Hc (Hv & _ & Ha) Hlt Hx.
  assert (Hn : length (pre ++ mid ++ [l]) = S (length pre + length mid))
    by list_len.
  rewrite Hn in *.
  replace (cap - S (length pre + length mid))
    with (S (cap - S (S (length pre + length mid)))) in Ha by lia.
  cbn [replicate] in Ha.
  rewrite !fmap_app, <- !app_assoc in Ha. cbn [fmap list_fmap app] in Ha.
  unfold Emplace.
  step_by ltac:(by eapply Vector_begin_ok).
  step_by ltac:(eapply Vector_end_ok; [done | wsimpl; lia]).
  step_by ltac:(apply assert_ok; rewrite !ptr_le_same by lia; done).
  step_by ltac:(by apply this_ok).
  rewrite decide_False by lia.
  unfold distance. wsimpl. rewrite Nat.sub_0_r.
  rewrite decide_False by lia.
  erewrite bind_Ok; cycle 1.
  { step_by ltac:(by apply construct_ok).
    eapply scope_exit_Ok; [| reflexivity].
    unfold Back.
    step_by ltac:(
      step_by ltac:(eapply Vector_end_ok; [done | wsimpl; lia]);
      apply ret_Ok).
    replace (S (length pre + length mid) - 1) with (length pre + length mid) by lia.
    step_by ltac:(eapply (construct_at_transfer_ok _ a _ _ _ l);
      [ calm_tac | hlookup
      | apply lookup_app3; list_len
      | list_len ]).
    unfold std_move_backward, distance. wsimpl.
    replace (length pre + length mid - length pre) with (length mid) by lia.
    step_by ltac:(eapply (move_backward_loop_ok mid _ a (Some <$> pre)
                            (transferred l)
                            (Some l :: replicate
                               (cap - S (S (length pre + length mid))) None));
      [ calm_tac
      | hlookup; f_equal;
        rewrite insert_app3 by list_len;
        by rewrite insert_app3_next by list_len
      | list_len ]).
    destruct (shifted_right_cons mid (transferred l)) as [y Hy].
    eapply (move_assign_local_ok _ a _ _ x y);
      [ calm_tac | hlookup
      | rewrite Hy, fmap_cons; cbn [app]; apply lookup_middle; list_len ]. }
  cbv beta. wnorm.
  destruct (shifted_right_cons mid (transferred l)) as [y Hy].
  step_by ltac:(apply this_ok; hlookup).
  step_by ltac:(reflexivity).
  step_by ltac:(eapply Vector_begin_ok; hlookup).
  rewrite ret_Ok. wnorm. rewrite Nat.add_0_l.
  do 2 f_equal.
  - rewrite !insert_insert_eq. f_equal.
    rewrite Hy, fmap_cons. cbn [app].
    rewrite insert_middle by list_len.
    rewrite !fmap_app, fmap_cons, !fmap_app. cbn [fmap list_fmap app].
    rewrite <- ?app_assoc. cbn [app]. by rewrite <- !app_assoc.
  - do 2 f_equal. lia.
  - rewrite <- !app_assoc. done.
Qed.

Lemma drop_snoc_exists {A} (xs : list A) p :
  p < length xs → ∃ mid l, drop p xs = mid ++ [l].
Proof.
  intros H. destruct (drop p xs) as [| d ds] eqn:E using rev_ind.
  - apply (f_equal length) in E. rewrite length_drop in E. cbn in E. lia.
  - eauto.
Qed.

Lemma wf_update w w' a blk :
  wf w → heap w !! a = Some blk →
  fresh_addr w' = fresh_addr w →
  (∀ k, k ≠ a → heap w' !! k = heap w !! k) →
  avail w' ≤ avail w →
  wf w'.
Proof.
  intros Hwf Ha Hf Hh Hav. split.
  - intros k Hk. rewrite Hf in Hk.
    rewrite Hh; [by apply (wf_heap _ _ Hwf) |].
    apply wf_fresh in Ha; [lia | done].
  - eapply addressable_le; [exact Hav | apply Hwf].
Qed.

(** A state whose unused addresses are those of [w] and whose provider has
    no more left than that of [w]. *)
Lemma wf_intro w w' :
  wf w → (∀ a, fresh_addr w' ≤ a → heap w' !! a = None) →
  avail w' ≤ avail w → wf w'.
Proof.
  intros Hwf Hh Hav. split; [done |].
  eapply addressable_le; [exact Hav | apply Hwf].
Qed.

(** Emplace in a state where nothing raises and memory suffices: it returns
    the position of the new element, and the vector holds the old elements
    with the new one at [p]. *)
Lemma Emplace_rep w this buf xs cap p args x :
  calm w → wf w → rep w this buf xs cap → p ≤ length xs →
  arg_value w args = Some x →
  (length xs = cap → next_capacity cap ≤ avail w) →
  ∃ buf' cap' w',
    Emplace this (Ptr buf p) args w = (Ok (Ptr buf' p), w')
    ∧ rep w' this buf' (take p xs ++ x :: drop p xs) cap'
    ∧ calm w' ∧ wf w'
    ∧ cap' = (if decide (length xs = cap) then next_capacity cap else cap)
    ∧ avail w' + cap' = avail w + cap
    ∧ (length xs < cap → buf' = buf).
Proof.
  intros Hc Hwf Hrep Hp Hx Hav.
  assert (Hlen : length (take p xs ++ x :: drop p xs) = S (length xs)) by list_len.
  destruct (decide (length xs = cap)) as [Hfull | Hroom].
  - specialize (Hav Hfull). subst cap.
    assert (Hnc : S (length xs) ≤ next_capacity (length xs)).
    { unfold next_capacity. case_decide; lia. }
    destruct buf as [a |].
    + eexists _, _, _. split; [by apply Emplace_grow_ok |].
      destruct Hrep as (Hv & _ & Ha).
      split; [| split; [calm_tac | split; [| split; [done | split; [wsimpl; lia | lia]]]]].
      * split; [| split].
        -- hlookup. by rewrite Hlen.
        -- lia.
        -- hlookup. rewrite Hlen. f_equal.
           rewrite fmap_app, fmap_cons, <- app_assoc. done.
      * apply (wf_intro w); [done | | wsimpl; lia].
        intros k Hk. wsimpl.
        rewrite lookup_insert_ne by lia.
        destruct (decide (k = a)) as [-> |]; [by rewrite lookup_delete_eq |].
        rewrite lookup_delete_ne by done. apply (wf_heap _ _ Hwf). lia.
    + destruct xs; [| destruct Hrep as (_ & _ & ?); done].
      cbn [length] in *. assert (p = 0) as -> by lia.
      unfold next_capacity in *. cbn [decide] in *.
      rewrite decide_True in * by done.
      eexists _, _, _. split; [by apply Emplace_null_ok |].
      split; [| split; [calm_tac | split; [| split; [done | split; [wsimpl; lia | lia]]]]].
      * split; [| split]; [hlookup | cbn; lia | hlookup].
      * apply (wf_intro w); [done | | wsimpl; lia].
        intros k Hk. wsimpl.
        rewrite lookup_insert_ne by lia. apply (wf_heap _ _ Hwf). lia.
  - destruct Hrep as (Hv & Hle & Ha).
    destruct buf as [a |]; [| lia].
    assert (Hwf' : ∀ blk' vs' tr',
      wf (mkWorld (<[a := blk']> (heap w)) (fresh_addr w) (avail w) vs'
                  (fuse w) tr')).
    { intros blk' vs' tr'. eapply (wf_update w); [done | done | done | | wsimpl; lia].
      intros k Hk. wsimpl. by rewrite lookup_insert_ne. }
    destruct (decide (p = length xs)) as [-> | Hmid].
    + eexists _, _, _. split; [apply Emplace_end_ok; [done | by split | lia | done] |].
      split; [| split; [calm_tac | split; [apply Hwf' | split; [done | done]]]].
      split; [| split].
      * hlookup. by rewrite Hlen.
      * lia.
      * hlookup. rewrite Hlen. f_equal.
        rewrite take_ge, drop_ge by lia.
        rewrite fmap_app, <- app_assoc. done.
    + destruct (drop_snoc_exists xs p) as (mid & l & Hd); [lia |].
      assert (Hxs : xs = take p xs ++ mid ++ [l]) by (by rewrite <- Hd, take_drop).
      assert (Hpl : length (take p xs) = p) by (rewrite length_take; lia).
      pose proof (Emplace_mid_ok w this a (take p xs) mid l cap args x Hc) as Hm.
      rewrite <- Hxs, Hpl in Hm.
      specialize (Hm (conj Hv (conj Hle Ha)) ltac:(lia) Hx).
      eexists _, _, _. split; [exact Hm |].
      rewrite Hd.
      assert (Hml : length mid + 1 = length xs - p).
      { rewrite <- (length_drop xs p), Hd. list_len. }
      clear Hm Hxs Hd Hlen.
      split; [| split; [calm_tac | split; [apply Hwf' | split; [done | done]]]].
      split; [| split].
      * hlookup. do 2 f_equal. list_len.
      * list_len.
      * hlookup. do 3 f_equal. list_len.
Qed.

(** ** Erase *)

Lemma destroy_at_ok w a blk i y :
  heap w !! a = Some blk → blk !! i = Some (Some y) →
  destroy_at (Ptr (Some a) i) w
  = (Ok tt, set_heap (<[a := <[i := None]> blk]> (heap w))
              (set_trace (trace w ++ [Dtor]) w)).
Proof.
  intros Ha Hi. unfold destroy_at.
  step_by ltac:(by eapply load_ok).
  step_by ltac:(reflexivity).
  erewrite store_ok; [| hlookup | by eapply lookup_lt_Some].
  by wnorm.
Qed.

Lemma Erase_ok w this a pre z mid cap :
  calm w → rep w this (Some a) (pre ++ z :: mid) cap →
  Erase this (Ptr (Some a) (length pre)) w
  = (Ok (Ptr (Some a) (length pre)),
     mkWorld
       (<[a := (Some <$> pre ++ mid)
               ++ replicate (cap - (length pre + length mid)) None]> (heap w))
       (fresh_addr w) (avail w)
       (<[this := mkVector (mkRawMemory (Some a) cap)
                           (length pre + length mid)]> (vecs w))
       (fuse w)
       (trace w ++ replicate (length mid) erase_assign ++ [Dtor])).
Proof.
  intros Hc (Hv & Hle & Ha).
  assert (Hn : length (pre ++ z :: mid) = S (length pre + length mid))
    by list_len.
  rewrite Hn in *.
  rewrite fmap_app, fmap_cons, <- app_assoc in Ha. cbn [app] in Ha.
  unfold Erase.
  step_by ltac:(by eapply Vector_begin_ok).
  step_by ltac:(by eapply Vector_end_ok).
  step_by ltac:(apply assert_ok; rewrite ptr_le_same, ptr_lt_same by lia; done).
  destruct (shifted_left_front erase_leave mid z) as [y Hy].
  assert (Hshift :
    (if use_move
     then std_move (Ptr (Some a) (length pre + 1))
            (Ptr (Some a) (S (length pre + length mid)))
            (Ptr (Some a) (length pre))
     else std_copy (Ptr (Some a) (length pre + 1))
            (Ptr (Some a) (S (length pre + length mid)))
            (Ptr (Some a) (length pre))) w
    = (Ok tt,
       set_heap (<[a := (Some <$> pre)
                        ++ (Some <$> shifted_left erase_leave z mid)
                        ++ replicate (cap - S (length pre + length mid)) None]>
                   (heap w))
         (set_trace (trace w ++ replicate (length mid) erase_assign) w))).
  { unfold std_move, std_copy, distance, erase_leave, erase_assign. wsimpl.
    replace (S (length pre + length mid) - (length pre + 1))
      with (length mid) by lia.
    pose proof (assign_forward_loop_ok use_move mid w a (Some <$> pre) z
                  (replicate (cap - S (length pre + length mid)) None)
                  (length pre) Hc Ha ltac:(list_len)) as Hloop.
    destruct use_move; exact Hloop. }
  rewrite (bind_Ok _ _ _ _ _ Hshift). clear Hshift.
  cbv beta. wnorm. rewrite Hy.
  unfold Back.
  step_by ltac:(
    step_by ltac:(eapply Vector_end_ok; [done | wsimpl; lia]);
    apply ret_Ok).
  replace (S (length pre + length mid) - 1) with (length pre + length mid) by lia.
  step_by ltac:(eapply (destroy_at_ok _ a _ _ y);
    [ hlookup
    | rewrite fmap_app; cbn [fmap list_fmap]; rewrite <- app_assoc;
      apply lookup_app3; list_len ]).
  step_by ltac:(by apply this_ok).
  step_by ltac:(reflexivity).
  rewrite ret_Ok. do 2 f_equal.
  - rewrite insert_insert_eq. f_equal.
    rewrite fmap_app. cbn [fmap list_fmap]. rewrite <- app_assoc. cbn [app].
    rewrite insert_app3 by list_len.
    rewrite fmap_app, <- app_assoc. do 2 f_equal.
    replace (cap - (length pre + length mid))
      with (S (cap - S (length pre + length mid))) by lia.
    done.
  - do 2 f_equal. lia.
  - by rewrite <- app_assoc.
Qed.

(** Erase at a valid position, when nothing raises: the element at [p] is
    gone and the others keep their order. *)
Lemma Erase_rep w this buf xs cap p :
  calm w → wf w → rep w this buf xs cap → p < length xs →
  ∃ w',
    Erase this (Ptr buf p) w = (Ok (Ptr buf p), w')
    ∧ rep w' this buf (take p xs ++ drop (S p) xs) cap
    ∧ calm w' ∧ wf w' ∧ avail w' = avail w.
Proof.
  intros Hc Hwf Hrep Hp.
  destruct buf as [a |]; [| destruct Hrep as (_ & ? & ?); lia].
  destruct (drop p xs) as [| z mid] eqn:Hd.
  { apply (f_equal length) in Hd. rewrite length_drop in Hd. cbn in Hd. lia. }
  assert (Hxs : xs = take p xs ++ z :: mid) by (by rewrite <- Hd, take_drop).
  assert (Hpl : length (take p xs) = p) by (rewrite length_take; lia).
  assert (Hmid : drop (S p) xs = mid).
  { replace (S p) with (p + 1) by lia. by rewrite <- drop_drop, Hd. }
  pose proof (Erase_ok w this a (take p xs) z mid cap Hc) as He.
  rewrite <- Hxs, Hpl in He. specialize (He Hrep).
  destruct Hrep as (Hv & Hle & Ha).
  assert (Hml : S (p + length mid) = length xs).
  { rewrite <- (take_drop p xs), Hd, length_app, Hpl. cbn [length]. lia. }
  eexists. split; [exact He |]. rewrite Hmid. clear He Hxs Hd Hmid.
  split; [| split; [calm_tac | split; [| done]]].
  - split; [| split].
    + hlookup. do 2 f_equal. list_len.
    + list_len.
    + hlookup. do 3 f_equal. list_len.
  - eapply (wf_update w); [done | done | done | | wsimpl; lia].
    intros k Hk. wsimpl. by rewrite lookup_insert_ne.
Qed.

(** ** Resize *)

Lemma uninitialized_value_construct_ok w d first last blk dpre dmid dpost :
  calm w → heap w !! d = Some blk → blk = dpre ++ dmid ++ dpost →
  length dpre = first → last - first = length dmid →
  uninitialized_value_construct (Ptr (Some d) first) (Ptr (Some d) last) w
  = (Ok tt, set_heap (<[d := dpre ++ replicate (length dmid) (Some T_default)
                                 ++ dpost]> (heap w))
              (set_trace (trace w ++ replicate (length dmid) DefaultCtor) w)).
Proof.
  intros Hc Hd -> Hl Hn.
  unfold uninitialized_value_construct, uninitialized_value_construct_n, distance.
  wsimpl. rewrite Hn.
  apply uninitialized_value_construct_loop_ok; [done | done | lia].
Qed.

Lemma uninitialized_value_construct_nil w first last :
  distance first last = 0 →
  uninitialized_value_construct first last w = (Ok tt, w).
Proof.
  intros H. unfold uninitialized_value_construct. by rewrite H.
Qed.

Lemma RawMemory_plus_ok w m offset :
  offset ≤ capacity_ m →
  RawMemory_plus m offset w = (Ok (Ptr (buffer_ m) offset), w).
Proof.
  intros H. unfold RawMemory_plus.
  step_by ltac:(apply assert_ok; by apply bool_decide_eq_true).
  by rewrite Nat.add_0_l.
Qed.

Lemma Resize_shrink_ok w this a xs cap k :
  rep w this (Some a) xs cap → k < length xs →
  Resize this k w
  = (Ok tt,
     mkWorld (<[a := (Some <$> take k xs) ++ replicate (cap - k) None]> (heap w))
       (fresh_addr w) (avail w)
       (<[this := mkVector (mkRawMemory (Some a) cap) k]> (vecs w))
       (fuse w) (trace w ++ replicate (length xs - k) Dtor)).
Proof.
  intros (Hv & Hle & Ha) Hk. unfold Resize.
  step_by ltac:(by apply this_ok).
  rewrite decide_True by done.
  step_by ltac:(by eapply Vector_begin_ok).
  step_by ltac:(by eapply Vector_end_ok).
  rewrite Nat.add_0_l.
  step_by ltac:(eapply (destroy_ok (drop k xs) _ a k (length xs) _
                          (Some <$> take k xs)
                          (replicate (cap - length xs) None));
    [ done
    | by rewrite app_assoc, fmap_take_drop
    | list_len
    | list_len ]).
  unfold set_this. wnorm. do 2 f_equal.
  - f_equal. rewrite <- replicate_add, length_drop. do 2 f_equal. lia.
  - by rewrite length_drop.
Qed.

Lemma Resize_within_ok w this a xs cap k :
  calm w → rep w this (Some a) xs cap → length xs ≤ k → k ≤ cap →
  Resize this k w
  = (Ok tt,
     mkWorld (<[a := (Some <$> xs ++ replicate (k - length xs) T_default)
                     ++ replicate (cap - k) None]> (heap w))
       (fresh_addr w) (avail w)
       (<[this := mkVector (mkRawMemory (Some a) cap) k]> (vecs w))
       (fuse w) (trace w ++ replicate (k - length xs) DefaultCtor)).
Proof.
  intros Hc (Hv & Hle & Ha) Hk Hkc. unfold Resize.
  step_by ltac:(by apply this_ok).
  rewrite decide_False by lia. rewrite decide_False by lia.
  erewrite bind_Ok; cycle 1.
  { step_by ltac:(by eapply Vector_end_ok).
    step_by ltac:(by eapply Vector_begin_ok).
    rewrite Nat.add_0_l.
    eapply (uninitialized_value_construct_ok _ a _ _ _ (Some <$> xs)
              (replicate (k - length xs) None) (replicate (cap - k) None));
      [ done | done
      | rewrite <- replicate_add; do 3 f_equal; lia
      | list_len | list_len ]. }
  cbv beta. wnorm.
  step_by ltac:(by apply this_ok).
  unfold set_this. wnorm. rewrite length_replicate. do 2 f_equal.
  f_equal. rewrite fmap_app, fmap_replicate, <- app_assoc. done.
Qed.

Lemma Resize_null_ok w this :
  rep w this None [] 0 → Resize this 0 w = (Ok tt, w).
Proof.
  intros (Hv & _ & _). cbn [length] in Hv. unfold Resize.
  step_by ltac:(by apply this_ok).
  rewrite decide_False by lia. rewrite decide_False by lia.
  erewrite bind_Ok; cycle 1.
  { step_by ltac:(by eapply Vector_end_ok).
    step_by ltac:(by eapply Vector_begin_ok).
    by apply uninitialized_value_construct_nil. }
  cbv beta.
  step_by ltac:(by apply this_ok).
  unfold set_this. wnorm. rewrite insert_id by done. by rewrite world_eta.
Qed.

Lemma Resize_grow_ok w this a xs cap k :
  calm w → wf w → rep w this (Some a) xs cap → cap < k → k ≤ avail w →
  Resize this k w
  = (Ok tt,
     mkWorld
       (<[fresh_addr w := Some <$> xs ++ replicate (k - length xs) T_default]>
          (delete a (heap w)))
       (S (fresh_addr w)) (avail w - k + cap)
       (<[this := mkVector (mkRawMemory (Some (fresh_addr w)) k) k]> (vecs w))
       (fuse w)
       (trace w ++ replicate (k - length xs) DefaultCtor
          ++ replicate (length xs) transfer_ctor
          ++ replicate (length xs) Dtor)).
Proof.
  intros Hc Hwf (Hv & Hle & Ha) Hk Hav.
  assert (Hfa : a ≠ fresh_addr w).
  { apply wf_fresh in Ha; [lia | done]. }
  unfold Resize.
  step_by ltac:(by apply this_ok).
  rewrite decide_False by lia. rewrite decide_True by lia.
  erewrite bind_Ok; cycle 1.
  { eapply with_RawMemory_ok.
    - apply RawMemory_ctor_ok; [done | lia | done].
    - cbv beta. wsimpl.
      step_by ltac:(apply RawMemory_plus_ok; wsimpl; lia).
      step_by ltac:(apply RawMemory_plus_ok; wsimpl; lia).
      step_by ltac:(eapply (uninitialized_value_construct_ok _ _ _ _ _
                              (replicate (length xs) None)
                              (replicate (k - length xs) None) []);
        [ calm_tac | hlookup
        | rewrite app_nil_r, <- replicate_add; f_equal; lia
        | list_len | list_len ]).
      step_by ltac:(eapply Vector_begin_ok; hlookup).
      step_by ltac:(eapply Vector_end_ok; [hlookup | done]).
      step_by ltac:(eapply (OverwriteData_ok xs _ a 0 (length xs) _
                       [] (replicate (cap - length xs) None) _ 0 _ []
                       (replicate (length xs) None));
        [ calm_tac
        | hlookup
        | done
        | done
        | lia
        | hlookup
        | done
        | done
        | list_len
        | done ]).
      step_by ltac:(eapply (destroy_ok (transferred <$> xs) _ a 0 (length xs) _
                              [] (replicate (cap - length xs) None));
        [ hlookup | done | done | list_len ]).
      cbn [RawMemory_Swap buffer_ capacity_].
      step_by ltac:(reflexivity).
      reflexivity.
    - eapply RawMemory_dtor_ok. hlookup. }
  cbv beta. wnorm.
  step_by ltac:(apply this_ok; hlookup).
  unfold set_this. wnorm.
  do 2 f_equal.
  - apply map_eq. intros j.
    destruct (decide (j = a)) as [-> |]; [by hlookup |].
    destruct (decide (j = fresh_addr w)) as [-> |]; hlookup.
    f_equal. rewrite length_replicate, fmap_app, fmap_replicate. list_eq.
  - list_len.
  - by rewrite insert_insert_eq.
  - rewrite !length_replicate, length_fmap. by rewrite <- !app_assoc.
Qed.

Lemma Resize_grow_null_ok w this k :
  calm w → wf w → rep w this None [] 0 → 0 < k → k ≤ avail w →
  Resize this k w
  = (Ok tt,
     mkWorld (<[fresh_addr w := Some <$> replicate k T_default]> (heap w))
       (S (fresh_addr w)) (avail w - k)
       (<[this := mkVector (mkRawMemory (Some (fresh_addr w)) k) k]> (vecs w))
       (fuse w) (trace w ++ replicate k DefaultCtor)).
Proof.
  intros Hc Hwf (Hv & _ & _) Hk Hav. cbn [length] in Hv.
  unfold Resize.
  step_by ltac:(by apply this_ok).
  rewrite decide_False by lia. rewrite decide_True by lia.
  erewrite bind_Ok; cycle 1.
  { eapply with_RawMemory_ok.
    - apply RawMemory_ctor_ok; [done | lia | done].
    - cbv beta. wsimpl.
      step_by ltac:(apply RawMemory_plus_ok; wsimpl; lia).
      step_by ltac:(apply RawMemory_plus_ok; wsimpl; lia).
      step_by ltac:(eapply (uninitialized_value_construct_ok _ _ _ _ _
                              [] (replicate k None) []);
        [ calm_tac | hlookup
        | by rewrite app_nil_r
        | list_len | list_len ]).
      step_by ltac:(eapply Vector_begin_ok; hlookup).
      step_by ltac:(eapply Vector_end_ok; [hlookup | done]).
      step_by ltac:(by apply OverwriteData_nil).
      step_by ltac:(by apply destroy_nil).
      cbn [RawMemory_Swap buffer_ capacity_].
      step_by ltac:(reflexivity).
      reflexivity.
    - apply RawMemory_dtor_null. }
  cbv beta. wnorm.
  step_by ltac:(apply this_ok; hlookup).
  unfold set_this. wnorm.
  do 2 f_equal.
  - rewrite insert_insert_eq. f_equal.
    rewrite length_replicate, fmap_replicate. list_eq.
  - by rewrite insert_insert_eq.
  - by rewrite length_replicate.
Qed.

(** Resize when nothing raises and memory suffices: the first elements are
    kept and the tail is value-initialised. *)
Lemma Resize_rep w this buf xs cap k :
  calm w → wf w → rep w this buf xs cap →
  (cap < k → k ≤ avail w) →
  ∃ buf' cap' w',
    Resize this k w = (Ok tt, w')
    ∧ rep w' this buf' (take k xs ++ replicate (k - length xs) T_default) cap'
    ∧ calm w' ∧ wf w'
    ∧ cap' = (if decide (cap < k) then k else cap).
Proof.
  intros Hc Hwf Hrep Hav.
  assert (Hlen : length (take k xs ++ replicate (k - length xs) T_default) = k)
    by list_len.
  destruct (decide (cap < k)) as [Hgrow | Hfit].
  - specialize (Hav Hgrow).
    assert (Hxs : take k xs = xs).
    { destruct Hrep as (_ & ? & _). apply take_ge. lia. }
    rewrite Hxs in *.
    destruct buf as [a |].
    + eexists _, _, _. split; [by apply Resize_grow_ok |].
      destruct Hrep as (Hv & Hle & Ha).
      split; [| split; [calm_tac | split; [| done]]].
      * split; [| split].
        -- hlookup. by rewrite Hlen.
        -- lia.
        -- hlookup. rewrite Hlen, Nat.sub_diag. cbn [replicate].
           by rewrite app_nil_r.
      * apply (wf_intro w); [done | | wsimpl; lia].
        intros j Hj. wsimpl.
        rewrite lookup_insert_ne by lia.
        destruct (decide (j = a)) as [-> |]; [by rewrite lookup_delete_eq |].
        rewrite lookup_delete_ne by done. apply (wf_heap _ _ Hwf). lia.
    + assert (xs = []) as ->.
      { destruct Hrep as (_ & ? & ?). destruct xs; [done | cbn in *; lia]. }
      assert (cap = 0) as -> by (by destruct Hrep as (_ & _ & ?)).
      cbn [length app] in *. rewrite Nat.sub_0_r in *.
      eexists _, _, _. split; [by apply Resize_grow_null_ok |].
      split; [| split; [calm_tac | split; [| done]]].
      * split; [| split].
        -- hlookup. by rewrite length_replicate.
        -- list_len.
        -- hlookup. rewrite length_replicate, Nat.sub_diag. cbn [replicate].
           by rewrite app_nil_r.
      * apply (wf_intro w); [done | | wsimpl; lia].
        intros j Hj. wsimpl.
        rewrite lookup_insert_ne by lia. apply (wf_heap _ _ Hwf). lia.
  - destruct buf as [a |].
    + destruct (decide (k < length xs)) as [Hshrink | Hext].
      * eexists _, _, _. split; [by apply Resize_shrink_ok |].
        destruct Hrep as (Hv & Hle & Ha).
        replace (k - length xs) with 0 in * by lia.
        cbn [replicate] in *. rewrite app_nil_r in *.
        split; [| split; [calm_tac | split; [| done]]].
        -- split; [| split]; [hlookup; by rewrite Hlen | lia |].
           hlookup. by rewrite Hlen.
        -- eapply (wf_update w); [done | done | done | | wsimpl; lia].
           intros j Hj. wsimpl. by rewrite lookup_insert_ne.
      * eexists _, _, _. split; [apply Resize_within_ok; [done | done | lia | lia] |].
        destruct Hrep as (Hv & Hle & Ha).
        rewrite take_ge in * by lia.
        split; [| split; [calm_tac | split; [| done]]].
        -- split; [| split]; [hlookup; by rewrite Hlen | lia |].
           hlookup. by rewrite Hlen.
        -- eapply (wf_update w); [done | done | done | | wsimpl; lia].
           intros j Hj. wsimpl. by rewrite lookup_insert_ne.
    + assert (xs = []) as ->.
      { destruct Hrep as (_ & ? & ?). destruct xs; [done | cbn in *; lia]. }
      assert (cap = 0) as -> by (by destruct Hrep as (_ & _ & ?)).
      assert (k = 0) as -> by lia.
      eexists _, _, _. split; [by apply Resize_null_ok |].
      done.
Qed.

(** ** The invariant and the contents of a represented vector *)

Lemma forallb_live (xs : list T) : forallb slot_live (Some <$> xs) = true.
Proof. induction xs; cbn; auto. Qed.

Lemma forallb_raw n :
  forallb (λ s : option T, negb (slot_live s)) (replicate n None) = true.
Proof. induction n; cbn; auto. Qed.

Lemma rep_invariant w this buf xs cap :
  rep w this buf xs cap → invariant w this = true.
Proof.
  intros (Hv & Hle & Hb). unfold invariant. rewrite Hv. wsimpl.
  rewrite bool_decide_eq_true_2 by done. cbn [andb].
  destruct buf as [a |]; [| by apply bool_decide_eq_true_2].
  rewrite Hb.
  rewrite take_app_length', drop_app_length' by list_len.
  rewrite forallb_live, forallb_raw.
  rewrite bool_decide_eq_true_2 by list_len. done.
Qed.

Lemma mapM_id_Some (xs : list T) : mapM id (Some <$> xs) = Some xs.
Proof. apply mapM_Some. induction xs; constructor; auto. Qed.

Lemma rep_contents w this buf xs cap :
  rep w this buf xs cap → contents w this = Some xs.
Proof.
  intros (Hv & Hle & Hb). unfold contents. rewrite Hv. cbn. 
  destruct buf as [a |].
  - rewrite Hb. cbn. rewrite take_app_length' by list_len.
    apply mapM_id_Some.
  - subst cap. by destruct xs; [| cbn in Hle; lia].
Qed.

(** ** Allocation failure *)

Lemma Reserve_alloc_fail w this buf xs cap n :
  rep w this buf xs cap → cap < n → avail w < slots_of (byte_count n) →
  Reserve this n w = (Throw AllocationError, w).
Proof.
  intros (Hv & _ & _) Hn Hav. unfold Reserve.
  step_by ltac:(by apply this_ok).
  rewrite decide_False by lia.
  by apply with_RawMemory_fail.
Qed.

Lemma Resize_alloc_fail w this buf xs cap n :
  rep w this buf xs cap → cap < n → avail w < slots_of (byte_count n) →
  Resize this n w = (Throw AllocationError, w).
Proof.
  intros (Hv & Hle & _) Hn Hav. unfold Resize.
  step_by ltac:(by apply this_ok).
  rewrite decide_False by lia. rewrite decide_True by lia.
  erewrite bind_Throw; [done |].
  by apply with_RawMemory_fail.
Qed.

Lemma Emplace_alloc_fail w this buf xs p args :
  rep w this buf xs (length xs) → p ≤ length xs →
  avail w < slots_of (byte_count (next_capacity (length xs))) →
  Emplace this (Ptr buf p) args w = (Throw AllocationError, w).
Proof.
  intros (Hv & _ & _) Hp Hav. unfold Emplace.
  step_by ltac:(by eapply Vector_begin_ok).
  step_by ltac:(by eapply Vector_end_ok).
  step_by ltac:(apply assert_ok; rewrite !ptr_le_same by lia; done).
  step_by ltac:(by apply this_ok).
  rewrite decide_True by done.
  erewrite bind_Throw; [done |].
  by apply with_RawMemory_fail.
Qed.

(** C4.  When the allocation of a growing operation fails (the memory
    provider has less left than the byte count [n * sizeof(T)], computed in
    [size_t], asks for), Reserve, Resize past the capacity and an insertion
    into a full buffer raise AllocationError and leave the whole state,
    hence the length, the capacity and the elements of the vector, as it
    was: nothing is touched before the new buffer exists.  For a capacity
    whose byte count does not wrap, the provider is asked for that many
    elements. *)
Theorem allocation_failure_changes_nothing w this buf xs cap :
  rep w this buf xs cap →
  (∀ n, cap < n → avail w < slots_of (byte_count n) →
        Reserve this n w = (Throw AllocationError, w))
  ∧ (∀ n, cap < n → avail w < slots_of (byte_count n) →
          Resize this n w = (Throw AllocationError, w))
  ∧ (∀ p args, length xs = cap → p ≤ length xs →
               avail w < slots_of (byte_count (next_capacity cap)) →
               Emplace this (Ptr buf p) args w = (Throw AllocationError, w))
  ∧ (∀ n, addressable n → slots_of (byte_count n) = n).
Proof.
  intros Hrep. split; [| split; [| split]].
  - intros n. by eapply Reserve_alloc_fail.
  - intros n. by eapply Resize_alloc_fail.
  - intros p args <- Hp Hav. by apply (Emplace_alloc_fail w this buf xs).
  - apply slots_of_byte_count.
Qed.

(** ** Self assignment and moves *)

(** C9.  Assigning a vector to itself, by copy or by move, returns at once
    and leaves the state as it was. *)
Theorem self_assignment_is_noop w this :
  Vector_copy_assign this this w = (Ok tt, w)
  ∧ Vector_move_assign this this w = (Ok tt, w).
Proof.
  split.
  - unfold Vector_copy_assign. by rewrite decide_True.
  - unfold Vector_move_assign. rewrite decide_False; [done |]. by intros [].
Qed.

Lemma rep_vecs_frame w w' this this' buf xs cap v :
  rep w this buf xs cap → heap w' = heap w → vecs w' !! this' = Some v →
  v = mkVector (mkRawMemory buf cap) (length xs) →
  rep w' this' buf xs cap.
Proof.
  intros (Hv & Hle & Hb) Hh Hv' ->. split; [done | split; [done |]].
  by rewrite Hh.
Qed.

(** C2, as the code has it.  Move construction of B from A leaves A empty
    (length 0, capacity 0, no buffer) and gives B the buffer, and so the
    elements, A had.  Move assignment of A to another object B swaps the
    two: B gets what A had and A gets what B had, so A ends empty only when
    B was empty.  Neither touches the heap or invokes a member of T. *)
Theorem move_transfers_the_buffer w A B bufA xs capA :
  rep w A bufA xs capA → A ≠ B →
  (∃ w', new_Vector B (Vector_move A) w = (Ok tt, w')
         ∧ rep w' B bufA xs capA ∧ rep w' A None [] 0
         ∧ heap w' = heap w ∧ trace w' = trace w)
  ∧ (∀ bufB ys capB, rep w B bufB ys capB →
       ∃ w', Vector_move_assign B A w = (Ok tt, w')
             ∧ rep w' B bufA xs capA ∧ rep w' A bufB ys capB
             ∧ heap w' = heap w ∧ trace w' = trace w).
Proof.
  intros HA Hne. split.
  - eexists. split.
    { unfold new_Vector, Vector_move.
      step_by ltac:(
        step_by ltac:(apply this_ok; apply HA);
        cbn [RawMemory_move];
        step_by ltac:(reflexivity);
        apply ret_Ok).
      reflexivity. }
    wnorm. split; [| split; [| done]].
    + eapply rep_vecs_frame; [exact HA | done | hlookup | done].
    + split; [| done]. by hlookup.
  - intros bufB ys capB HB. eexists. split.
    { unfold Vector_move_assign. rewrite decide_True by done.
      unfold Vector_Swap.
      step_by ltac:(apply this_ok; apply HB).
      step_by ltac:(apply this_ok; apply HA).
      cbn [RawMemory_Swap].
      step_by ltac:(reflexivity).
      reflexivity. }
    wnorm. split; [| split; [| done]].
    + eapply rep_vecs_frame; [exact HA | done | hlookup | done].
    + eapply rep_vecs_frame; [exact HB | done | hlookup | done].
Qed.

(** C10.  Insertion without reallocation is alias-safe: with room in the
    buffer, inserting at any position [p] a reference to the vector's own
    element [k] inserts the value that element had before the call (the new
    value is built before any element is shifted). *)
Theorem Insert_own_element_no_growth w this a xs cap p k x :
  calm w → wf w → rep w this (Some a) xs cap →
  length xs < cap → p ≤ length xs → xs !! k = Some x →
  ∃ w',
    Insert this (Ptr (Some a) p) (At (Ptr (Some a) k)) w
    = (Ok (Ptr (Some a) p), w')
    ∧ rep w' this (Some a) (take p xs ++ x :: drop p xs) cap.
Proof.
  intros Hc Hwf Hrep Hroom Hp Hk.
  assert (Hx : arg_value w (CopyOf (At (Ptr (Some a) k))) = Some x).
  { destruct Hrep as (_ & _ & Ha). cbn. unfold slot. wsimpl. cbn.
    rewrite Ha. cbn. rewrite lookup_app_l by (apply lookup_lt_Some in Hk; list_len).
    by rewrite list_lookup_fmap, Hk. }
  destruct (Emplace_rep w this (Some a) xs cap p _ x Hc Hwf Hrep Hp Hx)
    as (buf' & cap' & w' & He & Hrep' & _ & _ & Hcap & _ & Hbuf); [lia |].
  rewrite decide_False in Hcap by lia. subst cap'.
  rewrite (Hbuf Hroom) in *. by exists w'.
Qed.

(** ** Sequences of PushBack *)

Lemma EmplaceBack_rep w this buf xs cap args x :
  calm w → wf w → rep w this buf xs cap →
  arg_value w args = Some x →
  (length xs = cap → next_capacity cap ≤ avail w) →
  ∃ buf' cap' w',
    EmplaceBack this args w = (Ok (Ptr buf' (length xs)), w')
    ∧ rep w' this buf' (xs ++ [x]) cap'
    ∧ calm w' ∧ wf w' ∧ cap ≤ cap'
    ∧ avail w' + cap' = avail w + cap.
Proof.
  intros Hc Hwf Hrep Hx Hav.
  destruct (Emplace_rep w this buf xs cap (length xs) args x)
    as (buf' & cap' & w' & He & Hrep' & Hc' & Hwf' & Hcap & Hmem & _);
    try done.
  rewrite take_ge, drop_ge in Hrep' by lia.
  exists buf', cap', w'.
  split; [| split; [done | split; [done | split; [done | split; [| done]]]]].
  - unfold EmplaceBack.
    step_by ltac:(eapply Vector_end_ok; [apply Hrep | apply Hrep]).
    done.
  - subst cap'. case_decide; [| lia].
    unfold next_capacity. case_decide; lia.
Qed.

(** C5.  Every sequence of PushBack calls on any vector, when nothing
    raises and memory suffices, leaves the old elements followed by the
    pushed values in the order pushed, and the capacity read after each call
    never goes down. *)
Theorem PushBack_sequence_appends values : ∀ w this buf xs cap,
  calm w → wf w → rep w this buf xs cap →
  3 * (length xs + length values) ≤ avail w + cap →
  ∃ buf' cap' caps w',
    PushBack_all this values w = (Ok caps, w')
    ∧ rep w' this buf' (xs ++ values.*2) cap'
    ∧ length caps = length values
    ∧ nondecreasing cap caps
    ∧ last (cap :: caps) = Some cap'.
Proof.
  induction values as [| [by_move y] values IH];
    intros w this buf xs cap Hc Hwf Hrep Hmem.
  - exists buf, cap, [], w. cbn. rewrite app_nil_r. done.
  - cbn [length] in Hmem.
    destruct (EmplaceBack_rep w this buf xs cap
                (if by_move then MoveOf (Outside y) else CopyOf (Outside y)) y)
      as (buf1 & cap1 & w1 & He & Hrep1 & Hc1 & Hwf1 & Hcap1 & Hmem1);
      try done.
    { by destruct by_move. }
    { intros Hfull. unfold next_capacity. case_decide; lia. }
    destruct (IH w1 this buf1 (xs ++ [y]) cap1) as
      (buf' & cap' & caps & w' & Hrun & Hrep' & Hlen & Hmono & Hlast);
      try done.
    { rewrite length_app. cbn [length]. lia. }
    exists buf', cap', (cap1 :: caps), w'.
    split; [| split; [| split; [| split; [done | done]]]].
    + cbn [PushBack_all].
      step_by ltac:(destruct by_move; unfold PushBack, PushBack_move;
                    step_by ltac:(exact He); apply ret_Ok).
      step_by ltac:(unfold Capacity;
                    step_by ltac:(apply this_ok; apply Hrep1); apply ret_Ok).
      step_by ltac:(exact Hrun). done.
    + rewrite fmap_cons. cbn [snd]. by rewrite <- app_assoc in Hrep'.
    + cbn [length]. by rewrite Hlen.
Qed.

(** C6.  Resize(k), when nothing raises and memory suffices, ends with
    length [k]; the elements at the positions below both the old length and
    [k] are unchanged, and the positions from the old length up to [k] hold
    the value-initialised T. *)
Theorem Resize_keeps_prefix_and_fills w this buf xs cap k :
  calm w → wf w → rep w this buf xs cap →
  (cap < k → k ≤ avail w) →
  ∃ buf' cap' ys w',
    Resize this k w = (Ok tt, w')
    ∧ rep w' this buf' ys cap'
    ∧ length ys = k
    ∧ (∀ i, i < k → i < length xs → ys !! i = xs !! i)
    ∧ (∀ i, length xs ≤ i → i < k → ys !! i = Some T_default).
Proof.
  intros Hc Hwf Hrep Hav.
  destruct (Resize_rep w this buf xs cap k Hc Hwf Hrep Hav)
    as (buf' & cap' & w' & Hr & Hrep' & _).
  exists buf', cap', (take k xs ++ replicate (k - length xs) T_default), w'.
  split; [done | split; [done | split; [list_len | split]]].
  - intros i Hik Hin.
    rewrite lookup_app_l by list_len. by rewrite lookup_take_lt.
  - intros i Hin Hik.
    rewrite lookup_app_r by list_len.
    apply lookup_replicate_2. list_len.
Qed.

Lemma insert_then_erase {A} (xs : list A) p x :
  p ≤ length xs →
  take p (take p xs ++ x :: drop p xs)
  ++ drop (S p) (take p xs ++ x :: drop p xs) = xs.
Proof.
  intros Hp.
  assert (Hl : length (take p xs) = p) by (rewrite length_take; lia).
  rewrite take_app_length' by done.
  rewrite (cons_middle x), app_assoc.
  rewrite drop_app_length' by (rewrite length_app, Hl; cbn; lia).
  apply take_drop.
Qed.

Lemma erase_then_insert {A} (xs : list A) p x :
  xs !! p = Some x →
  take p (take p xs ++ drop (S p) xs)
  ++ x :: drop p (take p xs ++ drop (S p) xs) = xs.
Proof.
  intros Hx.
  assert (Hp : p < length xs) by (by eapply lookup_lt_Some).
  assert (Hl : length (take p xs) = p) by (rewrite length_take; lia).
  rewrite take_app_length', drop_app_length' by done.
  by apply take_drop_middle.
Qed.

(** C7.  Insert at a position [p] in [0, length] followed by Erase at the
    position Insert returned restores the elements; and Erase at a position
    [p] in [0, length) followed by Insert of the erased value at the position
    Erase returned restores them as well. *)
Theorem Insert_Erase_round_trip w this buf xs cap p :
  calm w → wf w → rep w this buf xs cap →
  (∀ val x, p ≤ length xs → arg_value w (CopyOf val) = Some x →
     (length xs = cap → next_capacity cap ≤ avail w) →
     ∃ buf' cap' w',
       (it ← Insert this (Ptr buf p) val; Erase this it) w
       = (Ok (Ptr buf' p), w')
       ∧ rep w' this buf' xs cap')
  ∧ (∀ x, xs !! p = Some x →
     ∃ w',
       (it ← Erase this (Ptr buf p); Insert this it (Outside x)) w
       = (Ok (Ptr buf p), w')
       ∧ rep w' this buf xs cap).
Proof.
  intros Hc Hwf Hrep. split.
  - intros val x Hp Hx Hav.
    destruct (Emplace_rep w this buf xs cap p (CopyOf val) x)
      as (buf1 & cap1 & w1 & He & Hrep1 & Hc1 & Hwf1 & _); try done.
    destruct (Erase_rep w1 this buf1 (take p xs ++ x :: drop p xs) cap1 p)
      as (w2 & Hr & Hrep2 & _); try done.
    { list_len. }
    exists buf1, cap1, w2. split.
    + unfold Insert. step_by ltac:(exact He). done.
    + by rewrite insert_then_erase in Hrep2.
  - intros x Hx.
    assert (Hp : p < length xs) by (by eapply lookup_lt_Some).
    destruct (Erase_rep w this buf xs cap p) as (w1 & Hr & Hrep1 & Hc1 & Hwf1 & _);
      try done.
    assert (Hlen1 : length (take p xs ++ drop (S p) xs) = length xs - 1)
      by list_len.
    destruct (Emplace_rep w1 this buf (take p xs ++ drop (S p) xs) cap p
                (CopyOf (Outside x)) x)
      as (buf2 & cap2 & w2 & He & Hrep2 & _ & _ & Hcap & _ & Hbuf); try done.
    { list_len. }
    { intros Hfull. destruct Hrep as (_ & ? & _). lia. }
    assert (Hroom : length (take p xs ++ drop (S p) xs) < cap).
    { destruct Hrep as (_ & ? & _). lia. }
    rewrite decide_False in Hcap by lia. subst cap2.
    rewrite (Hbuf Hroom) in *.
    exists w2. split.
    + unfold Insert. step_by ltac:(exact Hr). done.
    + by rewrite erase_then_insert in Hrep2.
Qed.

(** ** Reserve and PopBack *)

Lemma Reserve_noop w this buf xs cap n :
  rep w this buf xs cap → n ≤ cap → Reserve this n w = (Ok tt, w).
Proof.
  intros (Hv & _ & _) Hn. unfold Reserve.
  step_by ltac:(by apply this_ok).
  by rewrite decide_True.
Qed.

Lemma destroy_n_len ys n w a o pre post :
  n = length ys →
  heap w !! a = Some (pre ++ (Some <$> ys) ++ post) → length pre = o →
  destroy_n (Ptr (Some a) o) n w
  = (Ok tt, set_heap (<[a := pre ++ replicate n None ++ post]> (heap w))
              (set_trace (trace w ++ replicate n Dtor) w)).
Proof. intros ->. apply destroy_n_ok. Qed.

Lemma Reserve_grow_ok w this a xs cap n :
  calm w → wf w → rep w this (Some a) xs cap → cap < n → n ≤ avail w →
  Reserve this n w
  = (Ok tt,
     mkWorld
       (<[fresh_addr w := (Some <$> xs) ++ replicate (n - length xs) None]>
          (delete a (heap w)))
       (S (fresh_addr w)) (avail w - n + cap)
       (<[this := mkVector (mkRawMemory (Some (fresh_addr w)) n) (length xs)]>
          (vecs w))
       (fuse w)
       (trace w ++ replicate (length xs) transfer_ctor
          ++ replicate (length xs) Dtor)).
Proof.
  intros Hc Hwf (Hv & Hle & Ha) Hn Hav.
  assert (Hfa : a ≠ fresh_addr w).
  { apply wf_fresh in Ha; [lia | done]. }
  unfold Reserve.
  step_by ltac:(by apply this_ok).
  rewrite decide_False by lia.
  erewrite with_RawMemory_ok; [ | apply RawMemory_ctor_ok; [done | lia | done] | | ].
  - reflexivity.
  - cbv beta. wsimpl.
    step_by ltac:(eapply Vector_begin_ok; hlookup).
    step_by ltac:(eapply Vector_end_ok; [hlookup | done]).
    step_by ltac:(eapply (OverwriteData_ok xs _ a 0 (length xs) _
                     [] (replicate (cap - length xs) None) _ 0 _ []
                     (replicate (length xs) None)
                     (replicate (n - length xs) None));
      [ calm_tac
      | hlookup
      | done
      | done
      | lia
      | hlookup
      | rewrite app_nil_l, <- replicate_add; f_equal; lia
      | done
      | list_len
      | done ]).
    step_by ltac:(eapply (destroy_n_len (transferred <$> xs) _ _ a 0 []
                            (replicate (cap - length xs) None));
      [ by rewrite length_fmap | hlookup | done ]).
    cbn [RawMemory_Swap buffer_ capacity_].
    step_by ltac:(reflexivity).
    reflexivity.
  - erewrite RawMemory_dtor_ok; [| hlookup]. wnorm.
    do 2 f_equal.
    + apply map_eq. intros j.
      destruct (decide (j = a)) as [-> |]; [by hlookup |].
      destruct (decide (j = fresh_addr w)) as [-> |]; hlookup.
    + list_len.
    + by rewrite <- !app_assoc.
Qed.

Lemma Reserve_grow_null_ok w this n :
  wf w → rep w this None [] 0 → 0 < n → n ≤ avail w →
  Reserve this n w
  = (Ok tt,
     mkWorld (<[fresh_addr w := replicate n None]> (heap w))
       (S (fresh_addr w)) (avail w - n)
       (<[this := mkVector (mkRawMemory (Some (fresh_addr w)) n) 0]> (vecs w))
       (fuse w) (trace w)).
Proof.
  intros Hwf (Hv & _ & _) Hn Hav. cbn [length] in Hv.
  unfold Reserve.
  step_by ltac:(by apply this_ok).
  rewrite decide_False by lia.
  erewrite with_RawMemory_ok; [ | apply RawMemory_ctor_ok; [done | lia | done] | | ].
  - reflexivity.
  - cbv beta. wsimpl.
    step_by ltac:(eapply Vector_begin_ok; hlookup).
    step_by ltac:(eapply Vector_end_ok; [hlookup | done]).
    step_by ltac:(by apply OverwriteData_nil).
    cbn [destroy_n].
    step_by ltac:(apply ret_Ok).
    cbn [RawMemory_Swap buffer_ capacity_].
    step_by ltac:(reflexivity).
    reflexivity.
  - apply RawMemory_dtor_null.
Qed.

(** Reserve when nothing raises and memory suffices: the elements are kept
    and the capacity is the larger of the old one and the request. *)
Lemma Reserve_rep w this buf xs cap n :
  calm w → wf w → rep w this buf xs cap →
  (cap < n → n ≤ avail w) →
  ∃ buf' w',
    Reserve this n w = (Ok tt, w')
    ∧ rep w' this buf' xs (cap `max` n)
    ∧ calm w' ∧ wf w'.
Proof.
  intros Hc Hwf Hrep Hav.
  destruct (decide (n ≤ cap)) as [Hfit | Hgrow].
  - exists buf, w. rewrite Nat.max_l by done.
    split; [by eapply Reserve_noop | done].
  - rewrite Nat.max_r by lia. assert (Hn : cap < n) by lia.
    specialize (Hav Hn).
    destruct buf as [a |].
    + eexists _, _. split; [by apply Reserve_grow_ok |].
      destruct Hrep as (Hv & Hle & Ha).
      split; [| split; [calm_tac |]].
      * split; [| split]; [by hlookup | lia | by hlookup].
      * apply (wf_intro w); [done | | wsimpl; lia].
        intros j Hj. wsimpl.
        rewrite lookup_insert_ne by lia.
        destruct (decide (j = a)) as [-> |]; [by rewrite lookup_delete_eq |].
        rewrite lookup_delete_ne by done. apply (wf_heap _ _ Hwf). lia.
    + assert (xs = []) as ->.
      { destruct Hrep as (_ & ? & ?). destruct xs; [done | cbn in *; lia]. }
      assert (cap = 0) as -> by (by destruct Hrep as (_ & _ & ?)).
      eexists _, _. split; [apply Reserve_grow_null_ok; [done | done | lia | done] |].
      split; [| split; [calm_tac |]].
      * split; [| split]; [by hlookup | cbn; lia |].
        hlookup. by rewrite Nat.sub_0_r.
      * apply (wf_intro w); [done | | wsimpl; lia].
        intros j Hj. wsimpl.
        rewrite lookup_insert_ne by lia. apply (wf_heap _ _ Hwf). lia.
Qed.



(** ** A copy that raises during a transfer *)

Lemma invoke_fire w k :
  may_throw k = true → fuse w = Some 0 →
  invoke k w = (Throw ElementError, set_fuse None w).
Proof. intros Hk Hf. unfold invoke. by rewrite Hk, Hf. Qed.

Lemma invoke_tick w k j :
  may_throw k = true → fuse w = Some (S j) →
  invoke k w = (Ok tt, set_trace (trace w ++ [k]) (set_fuse (Some j) w)).
Proof. intros Hk Hf. unfold invoke. by rewrite Hk, Hf. Qed.

Lemma bind_Throw_after {A B} (m : M A) (k : A → M B) w a w1 e w2 :
  m w = (Ok a, w1) → k a w1 = (Throw e, w2) → (m ≫= k) w = (Throw e, w2).
Proof. intros Hm Hk. by rewrite (bind_Ok _ _ _ _ _ Hm). Qed.

Lemma with_RawMemory_Throw {A} n (body : RawMemory → M (RawMemory * A))
    w nd0 w0 e w1 w2 :
  RawMemory_ctor n w = (Ok nd0, w0) →
  body nd0 w0 = (Throw e, w1) →
  RawMemory_dtor nd0 w1 = (Ok tt, w2) →
  with_RawMemory n body w = (Throw e, w2).
Proof.
  intros Hc Hb Hd. unfold with_RawMemory.
  rewrite (bind_Ok _ _ _ _ _ Hc). rewrite Hb.
  by rewrite (bind_Ok _ _ _ _ _ Hd).
Qed.

(** std::uninitialized_copy when the copy number [j] (from 0) raises: the
    copies made so far are destroyed, and the destination is raw again. *)
Lemma uninitialized_copy_loop_throw j :
  ∀ xs i w s so spre spost d do dpre built dpost,
  may_throw CopyCtor = true → fuse w = Some j → j < length xs →
  heap w !! s = Some (spre ++ (Some <$> xs) ++ spost) → length spre = so + i →
  heap w !! d
  = Some (dpre ++ (Some <$> built) ++ replicate (length xs) None ++ dpost) →
  length dpre = do → length built = i → s ≠ d →
  uninitialized_loop
    (λ i cur, construct_at cur (CopyOf (At (Ptr (Some s) (so + i)))))
    (Ptr (Some d) do) i (length xs) w
  = (Throw ElementError,
     mkWorld
       (<[d := dpre ++ replicate i None ++ replicate (length xs) None ++ dpost]>
          (heap w))
       (fresh_addr w) (avail w) (vecs w) None
       (trace w ++ replicate j CopyCtor ++ replicate (i + j) Dtor)).
Proof.
  induction j as [| j IH];
    intros xs i w s so spre spost d do dpre built dpost
      Hmay Hf Hj Hs Hsl Hd Hdl Hbl Hne;
    (destruct xs as [| x xs]; [cbn in Hj; lia |]);
    cbn [uninitialized_loop length] in *; wsimpl;
    rewrite fmap_cons in Hs; cbn [app] in Hs.
  - erewrite bind_Throw; [reflexivity |].
    eapply on_throw_Throw.
    + unfold construct_at, construct, deref.
      erewrite bind_Throw; [reflexivity |].
      step_by ltac:(eapply load_ok; [done | by apply lookup_middle]).
      erewrite bind_Throw; [reflexivity |].
      by apply invoke_fire.
    + wnorm. rewrite Nat.add_0_r.
      rewrite (destroy_n_len built i _ d do dpre
                 (replicate (S (length xs)) None ++ dpost)); [| done | done | done].
      by wnorm.
  - assert (Hdst :
      (dpre ++ (Some <$> built) ++ replicate (S (length xs)) None ++ dpost)
      = (dpre ++ (Some <$> built)) ++ None :: replicate (length xs) None ++ dpost).
    { by rewrite <- app_assoc. }
    erewrite bind_Ok; cycle 1.
    { apply on_throw_Ok. unfold construct_at, construct, deref.
      step_by ltac:(
        step_by ltac:(eapply load_ok; [done | by apply lookup_middle]);
        step_by ltac:(by apply invoke_tick);
        apply ret_Ok).
      eapply store_ok; [hlookup | list_len]. }
    cbv beta. wnorm.
    rewrite (IH xs (S i) _ s so (spre ++ [Some x]) spost d do dpre
               (built ++ [x]) dpost); try done.
    + wnorm. do 2 f_equal.
      * rewrite insert_insert_eq. f_equal. f_equal.
        rewrite app_assoc, <- replicate_add.
        rewrite (app_assoc (replicate i None)), <- replicate_add.
        do 2 f_equal. lia.
      * rewrite <- app_assoc. f_equal. cbn [replicate app]. f_equal.
        do 2 f_equal. lia.
    + lia.
    + hlookup. by rewrite <- app_assoc.
    + list_len.
    + hlookup. f_equal. rewrite Hdst.
      rewrite insert_middle by list_len.
      rewrite fmap_app. cbn [fmap list_fmap]. by rewrite <- !app_assoc.
    + list_len.
Qed.

Lemma alive_app tr1 tr2 : alive (tr1 ++ tr2) = (alive tr1 + alive tr2)%Z.
Proof. unfold alive. rewrite !filter_app, !length_app. lia. Qed.

Lemma alive_replicate_ctor n k :
  is_ctor k = true → alive (replicate n k) = Z.of_nat n.
Proof.
  intros Hk. unfold alive. induction n as [| n IH]; [done |].
  cbn [replicate]. rewrite filter_cons_True by done.
  rewrite filter_cons_False by (destruct k; cbn in *; congruence).
  cbn [length]. lia.
Qed.

Lemma alive_replicate_Dtor n : alive (replicate n Dtor) = (- Z.of_nat n)%Z.
Proof.
  unfold alive. induction n as [| n IH]; [done |].
  cbn [replicate]. rewrite filter_cons_False by (cbn; congruence).
  rewrite filter_cons_True by done.
  cbn [length]. lia.
Qed.

(** Copy construction when the copy number [j] raises: the copies made are
    destroyed and the new buffer is released; the source, the heap and the
    other objects are as before, and no element is left alive. *)
Lemma Vector_copy_unwinds w other a xs cap j :
  wf w → rep w other (Some a) xs cap →
  may_throw CopyCtor = true → fuse w = Some j → j < length xs →
  length xs ≤ avail w →
  Vector_copy other w
  = (Throw ElementError,
     mkWorld (heap w) (S (fresh_addr w)) (avail w) (vecs w) None
       (trace w ++ replicate j CopyCtor ++ replicate j Dtor))
  ∧ alive (trace w ++ replicate j CopyCtor ++ replicate j Dtor)
    = alive (trace w).
Proof.
  intros Hwf (Hv & Hle & Ha) Hmay Hf Hj Hav. split.
  - assert (Hfa : a ≠ fresh_addr w).
    { apply wf_fresh in Ha; [lia | done]. }
    unfold Vector_copy.
    step_by ltac:(by apply this_ok).
    step_by ltac:(apply RawMemory_ctor_ok; [done | lia ..]).
    erewrite bind_Throw; [reflexivity |].
    eapply on_throw_Throw.
    + step_by ltac:(eapply Vector_begin_ok; hlookup).
      step_by ltac:(eapply Vector_end_ok; [hlookup | done]).
      unfold uninitialized_copy, distance. wsimpl. rewrite Nat.sub_0_r.
      apply (uninitialized_copy_loop_throw j xs 0 _ a 0 []
               (replicate (cap - length xs) None) _ 0 [] [] []);
        try done; hlookup.
      by rewrite app_nil_r.
    + erewrite RawMemory_dtor_ok; [| hlookup]. wnorm.
      do 2 f_equal.
      * rewrite !delete_insert_eq. apply delete_id. apply (wf_heap _ _ Hwf). lia.
      * list_len.
  - rewrite !alive_app, alive_replicate_ctor, alive_replicate_Dtor by done. lia.
Qed.

(** Reserve for a type whose transfers copy, when the copy number [j]
    raises: the same, and the vector keeps its buffer and its elements. *)
Lemma Reserve_unwinds w this a xs cap n j :
  wf w → rep w this (Some a) xs cap → use_move = false →
  may_throw CopyCtor = true → fuse w = Some j → j < length xs →
  cap < n → n ≤ avail w →
  Reserve this n w
  = (Throw ElementError,
     mkWorld (heap w) (S (fresh_addr w)) (avail w) (vecs w) None
       (trace w ++ replicate j CopyCtor ++ replicate j Dtor)).
Proof.
  intros Hwf (Hv & Hle & Ha) Hcopy Hmay Hf Hj Hn Hav.
  assert (Hfa : a ≠ fresh_addr w).
  { apply wf_fresh in Ha; [lia | done]. }
  unfold Reserve.
  step_by ltac:(by apply this_ok).
  rewrite decide_False by lia.
  eapply with_RawMemory_Throw.
  - apply RawMemory_ctor_ok; [done | lia ..].
  - cbv beta. wsimpl.
    step_by ltac:(eapply Vector_begin_ok; hlookup).
    step_by ltac:(eapply Vector_end_ok; [hlookup | done]).
    erewrite bind_Throw; [reflexivity |].
    unfold OverwriteData. rewrite Hcopy.
    unfold uninitialized_copy, distance. wsimpl. rewrite Nat.sub_0_r.
    apply (uninitialized_copy_loop_throw j xs 0 _ a 0 []
             (replicate (cap - length xs) None) _ 0 [] []
             (replicate (n - length xs) None));
      try done; hlookup.
    rewrite app_nil_l. cbn [fmap list_fmap app].
    rewrite <- replicate_add. do 2 f_equal. lia.
  - erewrite RawMemory_dtor_ok; [| hlookup]. wnorm.
    do 2 f_equal.
    + rewrite !delete_insert_eq. apply delete_id. apply (wf_heap _ _ Hwf). lia.
    + list_len.
Qed.

(** ** Calls outside the contract, element access *)

Lemma bind_Abort {A B} (m : M A) (k : A → M B) w w' :
  m w = (Abort, w') → (m ≫= k) w = (Abort, w').
Proof. intros H. unfold mbind, M_bind. by rewrite H. Qed.

Lemma ptr_le_beyond buf i j : j < i → ptr_le (Ptr buf i) (Ptr buf j) = false.
Proof.
  intros. unfold ptr_le. wsimpl.
  rewrite (bool_decide_eq_false_2 (i ≤ j)) by lia. apply andb_false_r.
Qed.

Lemma ptr_lt_beyond buf i j : j ≤ i → ptr_lt (Ptr buf i) (Ptr buf j) = false.
Proof.
  intros. unfold ptr_lt. wsimpl.
  rewrite (bool_decide_eq_false_2 (i < j)) by lia. apply andb_false_r.
Qed.

(** X1. A call outside the contract stops at its assertion before anything
    is touched: Emplace with a position after end(), Erase with end() or a
    later position, operator[] with an index that is not below the size,
    and PopBack on an empty vector all abort and leave the state as it
    was. *)
Theorem contract_violations_abort_untouched w this buf xs cap :
  rep w this buf xs cap →
  (∀ p args, length xs < p → Emplace this (Ptr buf p) args w = (Abort, w))
  ∧ (∀ p, length xs ≤ p → Erase this (Ptr buf p) w = (Abort, w))
  ∧ (∀ i, length xs ≤ i → Vector_index this i w = (Abort, w))
  ∧ (xs = [] → PopBack this w = (Abort, w)).
Proof.
  intros (Hv & Hle & Hblk). repeat split.
  - intros p args Hp. unfold Emplace.
    step_by ltac:(by apply Vector_begin_ok).
    step_by ltac:(by apply Vector_end_ok).
    rewrite ptr_le_same by lia. rewrite ptr_le_beyond by lia. done.
  - intros p Hp. unfold Erase.
    step_by ltac:(by apply Vector_begin_ok).
    step_by ltac:(by apply Vector_end_ok).
    rewrite ptr_le_same by lia. rewrite ptr_lt_beyond by lia. done.
  - intros i Hi. unfold Vector_index.
    step_by ltac:(by apply this_ok).
    rewrite bool_decide_eq_false_2 by lia. done.
  - intros ->. unfold PopBack.
    step_by ltac:(by apply this_ok).
    cbn [length]. rewrite bool_decide_eq_false_2 by lia. done.
Qed.

(** X2. operator[] with an index below the size gives the address of that
    element, and Front() and Back() give the first and the last one; none
    of them changes the state. *)
Theorem element_access_reads_the_elements w this buf xs cap :
  rep w this buf xs cap →
  (∀ i x, xs !! i = Some x →
     (p ← Vector_index this i; load p) w = (Ok x, w))
  ∧ (∀ x, head xs = Some x → (p ← Front this; load p) w = (Ok x, w))
  ∧ (∀ x, last xs = Some x → (p ← Back this; load p) w = (Ok x, w)).
Proof.
  intros (Hv & Hle & Hblk).
  assert (Hread : ∀ i x, xs !! i = Some x →
            load (Ptr buf i) w = (Ok x, w)).
  { intros i x Hx. destruct buf as [a|].
    - eapply load_ok; [eassumption|].
      rewrite lookup_app_l by (rewrite length_fmap; by eapply lookup_lt_Some).
      by rewrite list_lookup_fmap, Hx.
    - apply lookup_lt_Some in Hx. lia. }
  repeat split.
  - intros i x Hx. pose proof (lookup_lt_Some _ _ _ Hx) as Hi.
    erewrite bind_Ok; [by apply Hread|].
    unfold Vector_index. step_by ltac:(by apply this_ok).
    rewrite bool_decide_eq_true_2 by lia. unfold RawMemory_index. wnorm.
    rewrite bool_decide_eq_true_2 by lia. done.
  - intros x Hx. erewrite bind_Ok; [apply Hread; by rewrite <- head_lookup|].
    unfold Front. erewrite Vector_begin_ok; [|eassumption]. reflexivity.
  - intros x Hx. rewrite last_lookup in Hx.
    erewrite bind_Ok; [by apply Hread|].
    unfold Back. step_by ltac:(by apply Vector_end_ok).
    rewrite ret_Ok. do 3 f_equal. lia.
Qed.

(** ** The destructor and the ownership of the buffer *)

Lemma Vector_dtor_ok w buf xs cap :
  length xs ≤ cap →
  match buf with
  | Some a => heap w !! a = Some ((Some <$> xs) ++ replicate (cap - length xs) None)
  | None => cap = 0
  end →
  Vector_dtor (mkVector (mkRawMemory buf cap) (length xs)) w
  = (Ok tt,
     mkWorld (match buf with Some a => delete a (heap w) | None => heap w end)
       (fresh_addr w) (avail w + cap) (vecs w) (fuse w)
       (trace w ++ replicate (length xs) Dtor)).
Proof.
  intros Hle Hb. unfold Vector_dtor. wsimpl. destruct buf as [a |].
  - step_by ltac:(eapply (destroy_n_ok xs _ a 0 []
                            (replicate (cap - length xs) None)); [hlookup | done]).
    erewrite RawMemory_dtor_ok; [| hlookup]. wnorm.
    do 2 f_equal.
    + by rewrite delete_insert_eq.
    + list_len.
  - subst cap. assert (xs = []) as -> by (apply length_zero_iff_nil; lia).
    step_by ltac:(apply ret_Ok).
    rewrite RawMemory_dtor_null. cbn [length replicate].
    rewrite app_nil_r, Nat.add_0_r. by rewrite world_eta.
Qed.

(** X3. The destructor destroys each of the [size_] elements once and
    gives the whole buffer back, whatever the capacity was; it needs no
    assumption on the element type and cannot fail.  The count of live
    objects drops by the size. *)
Theorem destructor_destroys_and_releases w this buf xs cap :
  rep w this buf xs cap →
  delete_Vector this w
  = (Ok tt,
     mkWorld (match buf with Some a => delete a (heap w) | None => heap w end)
       (fresh_addr w) (avail w + cap) (delete this (vecs w)) (fuse w)
       (trace w ++ replicate (length xs) Dtor))
  ∧ alive (trace w ++ replicate (length xs) Dtor)
    = (alive (trace w) - Z.of_nat (length xs))%Z.
Proof.
  intros (Hv & Hle & Hb). split.
  - unfold delete_Vector.
    step_by ltac:(by apply this_ok).
    step_by ltac:(by apply Vector_dtor_ok).
    reflexivity.
  - rewrite alive_app, alive_replicate_Dtor. lia.
Qed.

(** X4. After the move constructor has built B from A, destroying A frees
    nothing and destroys nothing: the buffer has one owner, B, which still
    holds the elements. *)
Theorem destroying_a_moved_from_vector_is_free w A B buf xs cap :
  rep w A buf xs cap → A ≠ B →
  ∃ w',
    (new_Vector B (Vector_move A);; delete_Vector A) w = (Ok tt, w')
    ∧ rep w' B buf xs cap ∧ vecs w' !! A = None
    ∧ heap w' = heap w ∧ avail w' = avail w ∧ trace w' = trace w.
Proof.
  intros HA Hne. eexists. split.
  { step_by ltac:(
      unfold new_Vector, Vector_move;
      step_by ltac:(
        step_by ltac:(apply this_ok; apply HA);
        cbn [RawMemory_move];
        step_by ltac:(reflexivity);
        apply ret_Ok);
      reflexivity).
    unfold delete_Vector.
    step_by ltac:(apply this_ok; hlookup).
    step_by ltac:(apply (Vector_dtor_ok _ None [] 0); [done | done]).
    reflexivity. }
  wnorm. cbn [length replicate]. rewrite app_nil_r, Nat.add_0_r.
  split; [| split; [| done]].
  - eapply rep_vecs_frame; [exact HA | done | hlookup | done].
  - by hlookup.
Qed.

(** X5. RawMemory(n) takes no block at all for n = 0 and a fresh block of
    n uninitialised slots otherwise, and ~RawMemory gives back exactly what
    the constructor took: the heap and the free memory are as before. *)
Theorem RawMemory_takes_and_returns_its_block w n :
  wf w → n ≤ avail w →
  ∃ m w1 w2,
    RawMemory_ctor n w = (Ok m, w1)
    ∧ capacity_ m = n
    ∧ (buffer_ m = None ↔ n = 0)
    ∧ (∀ a, buffer_ m = Some a →
         heap w !! a = None ∧ heap w1 !! a = Some (replicate n None))
    ∧ avail w1 + n = avail w
    ∧ RawMemory_dtor m w1 = (Ok tt, w2)
    ∧ heap w2 = heap w ∧ avail w2 = avail w.
Proof.
  intros Hwf Hav. destruct (decide (n = 0)) as [-> | Hn].
  - eexists _, _, _. split; [apply RawMemory_ctor_zero |].
    wsimpl. repeat split; try done; try lia.
  - eexists _, _, _. split; [apply RawMemory_ctor_ok; [done | lia ..] |].
    wsimpl. split; [done |]. split; [split; [done | lia] |].
    split.
    { intros a [= <-]. split; [apply (wf_heap _ _ Hwf); lia | by hlookup]. }
    split; [lia |].
    split; [eapply RawMemory_dtor_ok; hlookup |].
    wnorm. split.
    + rewrite delete_insert_eq. apply delete_id. apply (wf_heap _ _ Hwf). lia.
    + list_len.
Qed.

(** ** The constructors *)

(** The loop of the std::uninitialized_* algorithms when step [i] builds
    its object from arguments [mk i] that do not read the destination
    block. *)
Lemma uninitialized_loop_ok (f : nat → ptr → M unit) (mk : nat → Args) kd xs :
  ∀ i w d do dpre dmid dpost,
  calm w →
  (∀ k x, xs !! k = Some x →
     arg_kind (mk (i + k)) = kd
     ∧ (∀ cur w', f (i + k) cur w' = construct_at cur (mk (i + k)) w')
     ∧ (∀ w', (∀ a, a ≠ d → heap w' !! a = heap w !! a) →
          arg_value w' (mk (i + k)) = Some x)) →
  heap w !! d = Some (dpre ++ dmid ++ dpost) → length dpre = do + i →
  length dmid = length xs →
  uninitialized_loop f (Ptr (Some d) do) i (length xs) w
  = (Ok tt, set_heap (<[d := dpre ++ (Some <$> xs) ++ dpost]> (heap w))
              (set_trace (trace w ++ replicate (length xs) kd) w)).
Proof.
  induction xs as [| x xs IH]; intros i w d do dpre dmid dpost Hc Hf Hd Hdl Hm.
  - destruct dmid; [| done].
    cbn [uninitialized_loop length replicate fmap list_fmap].
    rewrite ret_Ok. unfold set_heap, set_trace. wsimpl.
    rewrite app_nil_r, insert_id by done. by rewrite world_eta.
  - destruct dmid as [| y dmid]; [done |].
    cbn [uninitialized_loop length]. wsimpl. cbn [app] in Hd.
    destruct (Hf 0 x eq_refl) as (Hk & Hfi & Hval).
    rewrite Nat.add_0_r in Hk, Hfi, Hval.
    step_by ltac:(apply on_throw_Ok; rewrite Hfi;
                  eapply construct_at_ok;
                  [ done | by apply Hval | eassumption
                  | rewrite length_app; cbn [length]; lia ]).
    rewrite Hk.
    rewrite (IH (S i) _ d do (dpre ++ [Some x]) dmid dpost).
    + unfold set_heap, set_trace. wsimpl. do 2 f_equal.
      * rewrite insert_insert_eq. by rewrite <- app_assoc.
      * by rewrite <- app_assoc.
    + done.
    + intros k x' Hx'. destruct (Hf (S k) x' Hx') as (Hk' & Hf' & Hv').
      replace (i + S k) with (S i + k) in * by lia.
      split; [done |]. split; [done |].
      intros w' Hw'. apply Hv'. intros a Ha.
      rewrite Hw' by done. wsimpl. by rewrite lookup_insert_ne.
    + wsimpl. rewrite lookup_insert_eq.
      rewrite insert_middle by done. by rewrite <- app_assoc.
    + rewrite length_app. cbn [length]. lia.
    + by simplify_eq/=.
Qed.

Lemma arg_value_off_block w w' d args x :
  heap w !! d = None → (∀ a, a ≠ d → heap w' !! a = heap w !! a) →
  arg_value w args = Some x → arg_value w' args = Some x.
Proof.
  intros Hd Hw. apply arg_value_frame. intros a blk Ha.
  rewrite Hw; [done |]. intros ->. congruence.
Qed.

(** A constructor body that fills the whole of a freshly taken buffer. *)
Lemma filled_buffer_ok (body : RawMemory → M unit) (fields : RawMemory → Vector)
    w n xs kd :
  wf w → n = length xs → n ≤ avail w →
  (∀ buf, fields (mkRawMemory buf n) = mkVector (mkRawMemory buf n) n) →
  (∀ w1, 0 < n → heap w1 = <[fresh_addr w := replicate n None]> (heap w) →
     vecs w1 = vecs w → fuse w1 = fuse w →
     body (mkRawMemory (Some (fresh_addr w)) n) w1
     = (Ok tt, set_heap (<[fresh_addr w := Some <$> xs]> (heap w1))
                 (set_trace (trace w1 ++ replicate n kd) w1))) →
  (n = 0 → body (mkRawMemory None 0) w = (Ok tt, w)) →
  ∃ buf w',
    (data ← RawMemory_ctor n;
     on_throw (body data) (RawMemory_dtor data);;
     mret (fields data)) w
    = (Ok (mkVector (mkRawMemory buf n) n), w')
    ∧ match buf with
      | Some a => heap w !! a = None ∧ heap w' = <[a := Some <$> xs]> (heap w)
      | None => xs = [] ∧ heap w' = heap w
      end
    ∧ avail w' + n = avail w
    ∧ vecs w' = vecs w ∧ fuse w' = fuse w
    ∧ trace w' = trace w ++ replicate n kd
    ∧ wf w'.
Proof.
  intros Hwf -> Hav Hfields Hbody Hnull. destruct xs as [| x xs].
  - eexists None, w. split.
    { cbn [length]. step_by ltac:(apply RawMemory_ctor_zero).
      step_by ltac:(apply on_throw_Ok; by apply Hnull).
      rewrite ret_Ok. by rewrite (Hfields None : fields (mkRawMemory None 0) = _). }
    cbn [length replicate]. rewrite app_nil_r.
    split; [done |]. split; [lia |]. by do 3 (split; [done |]).
  - eexists (Some (fresh_addr w)), _. split.
    { step_by ltac:(apply RawMemory_ctor_ok; [done | cbn [length]; lia | done]).
      step_by ltac:(apply on_throw_Ok; apply Hbody;
                    [cbn [length]; lia | reflexivity ..]).
      rewrite ret_Ok. by rewrite Hfields. }
    wnorm. split; [split; [apply (wf_heap _ _ Hwf); lia | by rewrite insert_insert_eq] |].
    split; [lia |]. do 3 (split; [done |]).
    apply (wf_intro w); [done | | wsimpl; lia].
    intros a Ha. wnorm. rewrite insert_insert_eq.
    rewrite lookup_insert_ne by lia. apply (wf_heap _ _ Hwf). lia.
Qed.

Lemma constructs_intro w this ctor buf xs kd w' :
  wf w →
  ctor w = (Ok (mkVector (mkRawMemory buf (length xs)) (length xs)), w') →
  match buf with
  | Some a => heap w !! a = None ∧ heap w' = <[a := Some <$> xs]> (heap w)
  | None => xs = [] ∧ heap w' = heap w
  end →
  avail w' + length xs = avail w →
  vecs w' = vecs w → fuse w' = fuse w →
  trace w' = trace w ++ replicate (length xs) kd →
  wf w' →
  constructs w this ctor xs kd.
Proof.
  intros Hwf Hrun Hheap Hav Hvecs Hfuse Htrace Hfresh.
  assert (Hframe : ∀ a blk, heap w !! a = Some blk → heap w' !! a = Some blk).
  { intros a blk Ha. destruct buf as [d |]; destruct Hheap as [H1 ->]; [| done].
    rewrite lookup_insert_ne; [done | congruence]. }
  eexists buf, _. split.
  { unfold new_Vector. step_by ltac:(exact Hrun). reflexivity. }
  wnorm. split.
  { split; [by hlookup |]. split; [done |].
    destruct buf as [d |]; [| by destruct Hheap as [-> _]].
    destruct Hheap as [_ ->].
    rewrite Nat.sub_diag. cbn [replicate]. rewrite app_nil_r. by hlookup. }
  split; [intros a ->; by destruct Hheap |].
  split; [done |].
  split; [intros other Hne; by rewrite Hvecs, lookup_insert_ne |].
  split; [done |]. split; [done |]. split; [done |].
  exact Hfresh.
Qed.

(** X6. Vector(size) builds [size] value-initialised elements in a new
    buffer of exactly [size] slots, by [size] calls of the default
    constructor. *)
Theorem Vector_sized_builds_defaults w this n :
  calm w → wf w → n ≤ avail w →
  constructs w this (Vector_sized n) (replicate n T_default) DefaultCtor.
Proof.
  intros Hc Hwf Hav.
  destruct (filled_buffer_ok
              (λ data, uninitialized_value_construct_n (GetAddress data) n)
              (λ data, mkVector data n) w n (replicate n T_default) DefaultCtor)
    as (buf & w' & Hrun & Hheap & Hav' & Hvecs & Hfuse & Htrace & Hwf');
    [ done | by rewrite length_replicate | done | done | | | ].
  - intros w1 Hpos Hh1 Hv1 Hf1. unfold uninitialized_value_construct_n. wsimpl.
    pose proof (uninitialized_value_construct_loop_ok (replicate n None) 0 w1
                  (fresh_addr w) 0 [] []) as Hloop.
    rewrite !length_replicate, ?app_nil_r in Hloop. rewrite ?app_nil_r in Hloop. cbn [app] in Hloop.
    rewrite Hloop; [by rewrite fmap_replicate | | by rewrite Hh1; hlookup | done].
    eapply calm_fuse; [exact Hf1 | done].
  - by intros ->.
  - eapply constructs_intro; rewrite ?length_replicate; try eassumption.
Qed.

(** X7. Vector(size, value) builds [size] copies of [value] in a new buffer
    of exactly [size] slots, by [size] calls of the copy constructor;
    [value] may be an element of another vector. *)
Theorem Vector_filled_builds_copies w this n value x :
  calm w → wf w → n ≤ avail w →
  arg_value w (CopyOf value) = Some x →
  constructs w this (Vector_filled n value) (replicate n x) CopyCtor.
Proof.
  intros Hc Hwf Hav Hval.
  destruct (filled_buffer_ok
              (λ data, uninitialized_fill_n (GetAddress data) n value)
              (λ data, mkVector data n) w n (replicate n x) CopyCtor)
    as (buf & w' & Hrun & Hheap & Hav' & Hvecs & Hfuse & Htrace & Hwf');
    [ done | by rewrite length_replicate | done | done | | | ].
  - intros w1 Hpos Hh1 Hv1 Hf1. unfold uninitialized_fill_n. wsimpl.
    pose proof (uninitialized_loop_ok
                  (λ _ cur, construct_at cur (CopyOf value))
                  (λ _, CopyOf value) CopyCtor (replicate n x) 0 w1
                  (fresh_addr w) 0 [] (replicate n None) []) as Hloop.
    rewrite !length_replicate, ?app_nil_r in Hloop. rewrite ?app_nil_r in Hloop. cbn [app] in Hloop.
    rewrite Hloop; [done | | | by rewrite Hh1; hlookup | done
                   | by rewrite ?length_replicate].
    + eapply calm_fuse; [exact Hf1 | done].
    + intros k x' Hx'. apply lookup_replicate in Hx' as [-> _].
      split; [done |]. split; [done |].
      intros w2 Hw2. apply (arg_value_off_block w w2 (fresh_addr w)); [| | done].
      * apply (wf_heap _ _ Hwf). lia.
      * intros a Ha. rewrite Hw2, Hh1 by done. by rewrite lookup_insert_ne.
  - by intros ->.
  - eapply constructs_intro; rewrite ?length_replicate; try eassumption.
Qed.

(** X8. Vector(std::initializer_list) builds a copy of each listed value,
    in the order of the list, in a new buffer of exactly that many slots. *)
Theorem Vector_of_list_builds_the_values w this values :
  calm w → wf w → length values ≤ avail w →
  constructs w this (Vector_of_list values) values CopyCtor.
Proof.
  intros Hc Hwf Hav.
  destruct (filled_buffer_ok
              (λ data, uninitialized_copy_values values (GetAddress data))
              (λ data, mkVector data (capacity_ data)) w (length values)
              values CopyCtor)
    as (buf & w' & Hrun & Hheap & Hav' & Hvecs & Hfuse & Htrace & Hwf');
    [ done | done | done | done | | | ].
  - intros w1 Hpos Hh1 Hv1 Hf1. unfold uninitialized_copy_values. wsimpl.
    pose proof (uninitialized_loop_ok
                  (λ i cur, match values !! i with
                            | Some x => construct_at cur (CopyOf (Outside x))
                            | None => abort
                            end)
                  (λ i, CopyOf (Outside (default T_default (values !! i))))
                  CopyCtor values 0 w1
                  (fresh_addr w) 0 [] (replicate (length values) None) [])
      as Hloop.
    rewrite ?app_nil_r in Hloop. cbn [app] in Hloop. rewrite ?app_nil_r in Hloop.
    rewrite Hloop; [done | | | by rewrite Hh1; hlookup | done
                   | by rewrite ?length_replicate].
    + eapply calm_fuse; [exact Hf1 | done].
    + intros k x' Hx'. rewrite Nat.add_0_l. rewrite Hx'. done.
  - intros H0. apply length_zero_iff_nil in H0 as ->. done.
  - eapply constructs_intro; try eassumption.
Qed.

(** X9. Vector(first, last) over a range of live elements of a block
    builds a copy of each of them, in order, in a new buffer of exactly
    that many slots, and leaves the range as it was. *)
Theorem Vector_of_range_builds_the_range w this s spre xs spost first last :
  calm w → wf w → length xs ≤ avail w →
  heap w !! s = Some (spre ++ (Some <$> xs) ++ spost) →
  first = length spre → last = first + length xs →
  constructs w this
    (Vector_of_range (Ptr (Some s) first) (Ptr (Some s) last)) xs CopyCtor.
Proof.
  intros Hc Hwf Hav Hs -> ->.
  assert (Hsf : s ≠ fresh_addr w).
  { apply wf_fresh in Hs; [lia | done]. }
  assert (Hd : distance (Ptr (Some s) (length spre))
                 (Ptr (Some s) (length spre + length xs)) = length xs).
  { unfold distance. wsimpl. lia. }
  unfold Vector_of_range. rewrite Hd.
  destruct (filled_buffer_ok
              (λ data, uninitialized_copy (Ptr (Some s) (length spre))
                         (Ptr (Some s) (length spre + length xs))
                         (GetAddress data))
              (λ data, mkVector data (capacity_ data)) w (length xs)
              xs CopyCtor)
    as (buf & w' & Hrun & Hheap & Hav' & Hvecs & Hfuse & Htrace & Hwf');
    [ done | done | done | done | | | ].
  - intros w1 Hpos Hh1 Hv1 Hf1. unfold uninitialized_copy. rewrite Hd. wsimpl.
    pose proof (uninitialized_copy_loop_ok xs 0 w1 s (length spre) spre spost
                  (fresh_addr w) 0 [] (replicate (length xs) None) []) as Hloop.
    rewrite ?app_nil_r in Hloop. cbn [app] in Hloop. rewrite ?app_nil_r in Hloop.
    rewrite Hloop; [done | | by rewrite Hh1; hlookup | lia
                   | by rewrite Hh1; hlookup | done
                   | by rewrite length_replicate | done].
    eapply calm_fuse; [exact Hf1 | done].
  - intros H0. unfold uninitialized_copy. rewrite Hd, H0. done.
  - eapply constructs_intro; try eassumption.
Qed.

(** ** Copy construction *)

Lemma Vector_copy_ok w other buf xs cap :
  calm w → wf w → rep w other buf xs cap → length xs ≤ avail w →
  ∃ buf' w',
    Vector_copy other w
    = (Ok (mkVector (mkRawMemory buf' (length xs)) (length xs)), w')
    ∧ match buf' with
      | Some a => heap w !! a = None ∧ heap w' = <[a := Some <$> xs]> (heap w)
      | None => xs = [] ∧ heap w' = heap w
      end
    ∧ avail w' + length xs = avail w
    ∧ vecs w' = vecs w ∧ fuse w' = fuse w
    ∧ trace w' = trace w ++ replicate (length xs) CopyCtor
    ∧ wf w'.
Proof.
  intros Hc Hwf (Hv & Hle & Hb) Hav.
  destruct (filled_buffer_ok
              (λ data, b ← Vector_begin other; e ← Vector_end other;
                       uninitialized_copy b e (GetAddress data))
              (λ data, mkVector data (length xs)) w (length xs) xs CopyCtor)
    as (buf' & w' & Hrun & Hrest); [ done | done | done | done | | | ].
  - intros w1 Hpos Hh1 Hv1 Hf1.
    destruct buf as [a |]; [| lia].
    assert (Hfa : a ≠ fresh_addr w).
    { apply wf_fresh in Hb; [lia | done]. }
    step_by ltac:(eapply Vector_begin_ok; by rewrite Hv1).
    step_by ltac:(eapply Vector_end_ok; [by rewrite Hv1 | done]).
    unfold uninitialized_copy, distance. wsimpl. rewrite Nat.sub_0_r.
    pose proof (uninitialized_copy_loop_ok xs 0 w1 a 0 []
                  (replicate (cap - length xs) None)
                  (fresh_addr w) 0 [] (replicate (length xs) None) []) as Hloop.
    rewrite ?app_nil_r in Hloop. cbn [app] in Hloop.
    rewrite ?app_nil_r in Hloop.
    rewrite Hloop; [done | | by rewrite Hh1; hlookup | done
                   | by rewrite Hh1; hlookup | done
                   | by rewrite length_replicate | done].
    eapply calm_fuse; [exact Hf1 | done].
  - intros H0.
    step_by ltac:(by eapply Vector_begin_ok).
    step_by ltac:(by eapply Vector_end_ok).
    unfold uninitialized_copy, distance. wsimpl. by rewrite H0.
  - exists buf', w'. split; [| exact Hrest].
    unfold Vector_copy. step_by ltac:(by apply this_ok). exact Hrun.
Qed.

(** X10. The copy constructor builds B with the elements of A in a buffer
    of its own, of exactly that many slots, by one copy construction per
    element; A keeps its buffer, its elements and its capacity. *)
Theorem copy_constructor_builds_an_independent_copy w A B bufA xs capA :
  calm w → wf w → rep w A bufA xs capA → A ≠ B → length xs ≤ avail w →
  ∃ bufB w',
    new_Vector B (Vector_copy A) w = (Ok tt, w')
    ∧ rep w' B bufB xs (length xs)
    ∧ rep w' A bufA xs capA
    ∧ (xs ≠ [] → bufB ≠ bufA)
    ∧ avail w' + length xs = avail w
    ∧ trace w' = trace w ++ replicate (length xs) CopyCtor
    ∧ calm w' ∧ wf w'.
Proof.
  intros Hc Hwf HA Hne Hav.
  destruct (Vector_copy_ok w A bufA xs capA) as
    (bufB & w1 & Hrun & Hheap & Hav' & Hvecs & Hfuse & Htrace & Hwf');
    try done.
  destruct HA as (Hv & Hle & Hb).
  exists bufB. eexists. split.
  { unfold new_Vector. step_by ltac:(exact Hrun). reflexivity. }
  wnorm. split; [| split; [| split]].
  - split; [by hlookup |]. split; [done |].
    destruct bufB as [d |]; [| by destruct Hheap as [-> _]].
    destruct Hheap as [_ ->]. wnorm.
    rewrite Nat.sub_diag. cbn [replicate]. rewrite app_nil_r. by hlookup.
  - split; [by rewrite Hvecs; hlookup |]. split; [done |].
    destruct bufA as [a |]; [| done].
    destruct bufB as [d |]; destruct Hheap as [H1 ->]; wnorm; [| done].
    rewrite lookup_insert_ne; [done | congruence].
  - intros Hxs ->. destruct bufA as [a |].
    + destruct Hheap as [H1 _]. congruence.
    + subst capA. destruct xs; [done | cbn [length] in Hle; lia].
  - split; [done |]. split; [done |]. split; [| done].
    eapply calm_fuse; [| exact Hc]. done.
Qed.

(** ** Copy assignment *)

Lemma copy_assign_blocks_ok w s sblk i x d dblk j y :
  calm w → s ≠ d →
  heap w !! s = Some sblk → sblk !! i = Some (Some x) →
  heap w !! d = Some dblk → dblk !! j = Some (Some y) →
  copy_assign (Ptr (Some d) j) (Ptr (Some s) i) w
  = (Ok tt, set_heap (<[d := <[j := Some x]> dblk]> (heap w))
              (set_trace (trace w ++ [CopyAssign]) w)).
Proof.
  intros Hc Hne Hs Hi Hd Hj. unfold copy_assign.
  step_by ltac:(by eapply load_ok).
  step_by ltac:(by eapply load_ok).
  step_by ltac:(by apply invoke_ok).
  erewrite store_ok; [done | hlookup |]. by eapply lookup_lt_Some.
Qed.

(** std::copy_n from one block into the live elements of another *)
Lemma std_copy_n_ok xs : ∀ ys w s so spre spost d do dpre dpost,
  calm w → s ≠ d → length ys = length xs →
  heap w !! s = Some (spre ++ (Some <$> xs) ++ spost) → length spre = so →
  heap w !! d = Some (dpre ++ (Some <$> ys) ++ dpost) → length dpre = do →
  std_copy_n (Ptr (Some s) so) (length xs) (Ptr (Some d) do) w
  = (Ok tt, set_heap (<[d := dpre ++ (Some <$> xs) ++ dpost]> (heap w))
              (set_trace (trace w ++ replicate (length xs) CopyAssign) w)).
Proof.
  unfold std_copy_n.
  induction xs as [| x xs IH]; intros ys w s so spre spost d do dpre dpost
    Hc Hne Hlen Hs Hsl Hd Hdl.
  - destruct ys; [| done]. cbn [assign_forward length replicate].
    rewrite ret_Ok. unfold set_heap, set_trace. wsimpl.
    rewrite app_nil_r, insert_id by done. by rewrite world_eta.
  - destruct ys as [| y ys]; [done |].
    cbn [assign_forward length]. wsimpl.
    rewrite fmap_cons in Hs, Hd. cbn [app] in Hs, Hd.
    step_by ltac:(eapply copy_assign_blocks_ok; eauto;
                  by apply lookup_middle).
    rewrite (IH ys _ s (so + 1) (spre ++ [Some x]) spost
               d (do + 1) (dpre ++ [Some x]) dpost).
    + unfold set_heap, set_trace. wsimpl. do 2 f_equal.
      * rewrite insert_insert_eq. by rewrite <- app_assoc.
      * by rewrite <- app_assoc.
    + calm_tac.
    + done.
    + by simplify_eq/=.
    + wsimpl. rewrite lookup_insert_ne by done. rewrite Hs.
      by rewrite <- app_assoc.
    + rewrite length_app. cbn [length]. lia.
    + wsimpl. rewrite lookup_insert_eq.
      rewrite insert_middle by done. by rewrite <- app_assoc.
    + rewrite length_app. cbn [length]. lia.
Qed.

Lemma std_copy_n_len xs ys n w s so spre spost d do dpre dpost :
  calm w → s ≠ d → n = length xs → length ys = length xs →
  heap w !! s = Some (spre ++ (Some <$> xs) ++ spost) → length spre = so →
  heap w !! d = Some (dpre ++ (Some <$> ys) ++ dpost) → length dpre = do →
  std_copy_n (Ptr (Some s) so) n (Ptr (Some d) do) w
  = (Ok tt, set_heap (<[d := dpre ++ (Some <$> xs) ++ dpost]> (heap w))
              (set_trace (trace w ++ replicate n CopyAssign) w)).
Proof. intros Hc Hne ->. by apply std_copy_n_ok. Qed.

Lemma block_split (xs : list T) k (post : list (option T)) :
  (Some <$> xs) ++ post = (Some <$> take k xs) ++ (Some <$> drop k xs) ++ post.
Proof. by rewrite app_assoc, fmap_take_drop. Qed.

Lemma Capacity_ok w this v :
  vecs w !! this = Some v → Capacity this w = (Ok (capacity_ (data_ v)), w).
Proof. intros H. unfold Capacity. by step_by ltac:(by apply this_ok). Qed.

Lemma Vector_copy_assign_reuse_ok w A B a xs capA bufB ys capB :
  calm w → rep w A (Some a) xs capA → rep w B bufB ys capB → A ≠ B →
  bufB ≠ Some a → length ys ≤ capA →
  Vector_copy_assign A B w
  = (Ok tt,
     mkWorld (<[a := (Some <$> ys) ++ replicate (capA - length ys) None]> (heap w))
       (fresh_addr w) (avail w)
       (<[A := mkVector (mkRawMemory (Some a) capA) (length ys)]> (vecs w))
       (fuse w)
       (trace w ++ replicate (length xs `min` length ys) CopyAssign
          ++ (if decide (length ys < length xs)
              then replicate (length xs - length ys) Dtor
              else replicate (length ys - length xs) CopyCtor))).
Proof.
  intros Hc (HvA & HleA & HbA) (HvB & HleB & HbB) Hne Hbuf Hfit.
  set (m0 := length xs `min` length ys).
  assert (Hcopy :
    std_copy_n (Ptr bufB 0) m0 (Ptr (Some a) 0) w
    = (Ok tt, set_heap (<[a := (Some <$> take m0 ys) ++ (Some <$> drop m0 xs)
                               ++ replicate (capA - length xs) None]> (heap w))
                (set_trace (trace w ++ replicate m0 CopyAssign) w))).
  { destruct bufB as [b |].
    - eapply (std_copy_n_len (take m0 ys) (take m0 xs) m0 w b 0 []
                ((Some <$> drop m0 ys) ++ replicate (capB - length ys) None)
                a 0 [] ((Some <$> drop m0 xs) ++ replicate (capA - length xs) None));
        [ done | congruence | subst m0; list_len | subst m0; list_len
        | by rewrite HbB, (block_split ys m0) | done
        | by rewrite HbA, (block_split xs m0) | done ].
    - subst capB. assert (ys = []) as -> by (apply length_zero_iff_nil; lia).
      subst m0. cbn [length]. rewrite Nat.min_0_r.
      cbn [std_copy_n assign_forward take drop fmap list_fmap replicate app].
      unfold std_copy_n. cbn [assign_forward]. rewrite ret_Ok.
      unfold set_heap, set_trace. wsimpl.
      rewrite app_nil_r, insert_id by done. by rewrite world_eta. }
  unfold Vector_copy_assign. rewrite decide_False by done.
  step_by ltac:(by apply Capacity_ok).
  step_by ltac:(by apply this_ok).
  rewrite decide_True by done.
  step_by ltac:(by apply this_ok).
  step_by ltac:(by eapply Vector_begin_ok).
  step_by ltac:(by eapply Vector_begin_ok).
  fold m0.
  step_by ltac:(exact Hcopy).
  destruct (decide (length ys < length xs)) as [Hlt | Hge].
  - assert (Hm0 : m0 = length ys) by (subst m0; lia).
    step_by ltac:(eapply (destroy_ok (drop m0 xs) _ a (0 + m0) (0 + length xs) _
                           (Some <$> take m0 ys) (replicate (capA - length xs) None));
                  [ hlookup | done | list_len | list_len ]).
    rewrite Hm0.
    unfold set_this. wnorm. do 2 f_equal.
    + rewrite insert_insert_eq. f_equal.
      rewrite take_ge by lia. rewrite length_drop.
      rewrite <- replicate_add. do 2 f_equal. lia.
    + rewrite <- app_assoc. by rewrite length_drop.
  - assert (Hm0 : m0 = length xs) by (subst m0; lia).
    assert (Hfill :
      uninitialized_copy (Ptr bufB (0 + m0)) (Ptr bufB (length ys))
        (Ptr (Some a) (0 + m0))
        (mkWorld (<[a := (Some <$> take m0 ys) ++ (Some <$> drop m0 xs)
                         ++ replicate (capA - length xs) None]> (heap w))
           (fresh_addr w) (avail w) (vecs w) (fuse w)
           (trace w ++ replicate m0 CopyAssign))
      = (Ok tt,
         mkWorld (<[a := (Some <$> ys) ++ replicate (capA - length ys) None]>
                    (heap w))
           (fresh_addr w) (avail w) (vecs w) (fuse w)
           (trace w ++ replicate m0 CopyAssign
              ++ replicate (length ys - length xs) CopyCtor))).
    { unfold uninitialized_copy, distance. wsimpl.
      destruct bufB as [b |].
      - replace (length ys - (0 + m0)) with (length (drop m0 ys)) by list_len.
        erewrite (uninitialized_copy_loop_ok (drop m0 ys) 0 _ b (0 + m0)
                    (Some <$> take m0 ys) (replicate (capB - length ys) None)
                    a (0 + m0) (Some <$> take m0 ys)
                    (replicate (length ys - length xs) None)
                    (replicate (capA - length ys) None));
          [ | calm_tac
            | hlookup; by rewrite HbB, (block_split ys m0)
            | list_len
            | hlookup; rewrite drop_ge by lia; cbn [fmap list_fmap app];
              rewrite <- replicate_add; do 3 f_equal; lia
            | list_len
            | list_len
            | congruence ].
        wnorm. do 2 f_equal.
        + rewrite insert_insert_eq. f_equal.
          by rewrite (block_split ys m0).
        + rewrite <- app_assoc. by rewrite length_drop, Hm0.
      - subst capB. assert (ys = []) as -> by (apply length_zero_iff_nil; lia).
        cbn [length] in *. assert (xs = []) as -> by (apply length_zero_iff_nil; lia).
        cbn [length] in Hm0. rewrite Hm0.
        cbn [length uninitialized_loop Nat.sub Nat.add]. rewrite ret_Ok.
        cbn [replicate take drop fmap list_fmap app]. by rewrite !app_nil_r. }
    step_by ltac:(step_by ltac:(by eapply Vector_end_ok); exact Hfill).
    rewrite Hm0. reflexivity.
Qed.

Lemma Vector_copy_assign_realloc_ok w A B bufA xs capA bufB ys capB :
  calm w → wf w → rep w A bufA xs capA → rep w B bufB ys capB → A ≠ B →
  capA < length ys → length ys ≤ avail w →
  ∃ d w',
    Vector_copy_assign A B w = (Ok tt, w')
    ∧ heap w !! d = None
    ∧ heap w' = match bufA with
                | Some a => delete a (<[d := Some <$> ys]> (heap w))
                | None => <[d := Some <$> ys]> (heap w)
                end
    ∧ vecs w' = <[A := mkVector (mkRawMemory (Some d) (length ys)) (length ys)]>
                  (vecs w)
    ∧ avail w' + length ys = avail w + capA
    ∧ fuse w' = fuse w
    ∧ trace w' = trace w ++ replicate (length ys) CopyCtor
                         ++ replicate (length xs) Dtor
    ∧ wf w'.
Proof.
  intros Hc Hwf (HvA & HleA & HbA) HB Hne Hcap Hav.
  destruct (Vector_copy_ok w B bufB ys capB) as
    (buf' & w1 & Hrun & Hheap & Hav' & Hvecs & Hfuse & Htrace & Hwf');
    try done.
  destruct HB as (HvB & HleB & HbB).
  destruct buf' as [d |]; destruct Hheap as [H1 Hh1];
    [| subst ys; cbn [length] in Hcap; lia].
  exists d. eexists. split.
  { unfold Vector_copy_assign. rewrite decide_False by done.
    step_by ltac:(by apply Capacity_ok).
    step_by ltac:(by apply this_ok).
    rewrite decide_False by lia.
    step_by ltac:(exact Hrun).
    step_by ltac:(apply this_ok; by rewrite Hvecs).
    step_by ltac:(reflexivity).
    apply Vector_dtor_ok; [done |]. wsimpl.
    destruct bufA as [a |]; [| done].
    rewrite Hh1, lookup_insert_ne; [done | congruence]. }
  wnorm. split; [done |].
  split; [by rewrite Hh1; destruct bufA |].
  split; [by rewrite Hvecs |].
  split; [lia |]. split; [done |].
  split; [by rewrite Htrace, <- app_assoc |].
  apply (wf_intro w); [done | | wsimpl; lia].
  intros k Hk. wnorm. pose proof (wf_heap _ _ Hwf' Hk) as Hfree.
  destruct bufA as [a |]; [| done].
  destruct (decide (k = a)) as [-> |]; [by rewrite lookup_delete_eq |].
  by rewrite lookup_delete_ne.
Qed.

Lemma alive_replicate_assign n k :
  is_ctor k = false → is_dtor k = false → alive (replicate n k) = 0%Z.
Proof.
  intros Hk Hd. unfold alive. induction n as [| n IH]; [done |].
  cbn [replicate].
  rewrite !filter_cons_False by (rewrite ?Hk, ?Hd; congruence).
  done.
Qed.

(** X11. Copy assignment between two different vectors makes the target
    hold the elements of the source, which stays as it was.  When the
    target's capacity suffices, its buffer is kept and nothing is
    allocated; otherwise the target gets a new buffer of exactly the
    source's size and the old one is given back.  Each element is built or
    destroyed once: the count of live objects changes by the difference of
    the sizes. *)
Theorem copy_assignment_copies_the_source w A B bufA xs capA bufB ys capB :
  calm w → wf w → rep w A bufA xs capA → rep w B bufB ys capB → A ≠ B →
  (∀ a, bufA = Some a → bufB ≠ Some a) →
  (capA < length ys → length ys ≤ avail w) →
  ∃ bufA' capA' w',
    Vector_copy_assign A B w = (Ok tt, w')
    ∧ rep w' A bufA' ys capA'
    ∧ rep w' B bufB ys capB
    ∧ (length ys ≤ capA → bufA' = bufA ∧ capA' = capA ∧ avail w' = avail w)
    ∧ (capA < length ys →
         capA' = length ys ∧ avail w' + length ys = avail w + capA)
    ∧ alive (trace w')
      = (alive (trace w) + Z.of_nat (length ys) - Z.of_nat (length xs))%Z
    ∧ calm w' ∧ wf w'.
Proof.
  intros Hc Hwf HA HB Hne Hbuf Hmem.
  destruct (decide (length ys ≤ capA)) as [Hfit | Hgrow].
  - destruct bufA as [a |].
    + exists (Some a), capA. eexists. split.
      { eapply Vector_copy_assign_reuse_ok; eauto. }
      destruct HA as (HvA & HleA & HbA). destruct HB as (HvB & HleB & HbB).
      wnorm. split; [| split; [| split; [| split; [| split; [| split]]]]].
      * split; [by hlookup |]. split; [done |]. by hlookup.
      * split; [by hlookup |]. split; [done |].
        destruct bufB as [b |]; [| done]. wnorm.
        rewrite lookup_insert_ne; [done |]. intros ->. by eapply Hbuf.
      * done.
      * lia.
      * rewrite !alive_app, alive_replicate_assign by done.
        destruct (decide (length ys < length xs)).
        -- rewrite alive_replicate_Dtor. lia.
        -- rewrite alive_replicate_ctor by done. lia.
      * calm_tac.
      * eapply wf_update; [exact Hwf | exact HbA | done | | wsimpl; lia].
        intros k Hk. wnorm. by rewrite lookup_insert_ne.
    + destruct HA as (HvA & HleA & HbA). destruct HB as (HvB & HleB & HbB).
      subst capA.
      assert (xs = []) as -> by (apply length_zero_iff_nil; lia).
      assert (ys = []) as -> by (apply length_zero_iff_nil; lia).
      cbn [length] in *.
      exists None, 0. eexists. split.
      { unfold Vector_copy_assign. rewrite decide_False by done.
        step_by ltac:(by apply Capacity_ok).
        step_by ltac:(by apply this_ok).
        rewrite decide_True by done.
        step_by ltac:(by apply this_ok).
        step_by ltac:(by eapply Vector_begin_ok).
        step_by ltac:(by eapply Vector_begin_ok).
        step_by ltac:(reflexivity).
        rewrite decide_False by lia.
        step_by ltac:(step_by ltac:(by eapply Vector_end_ok); reflexivity).
        reflexivity. }
      wnorm. split; [| split; [| split; [| split; [| split; [| split]]]]];
        try done; try lia.
      * split; [by hlookup |]. done.
      * split; [by hlookup |]. done.
  - destruct (Vector_copy_assign_realloc_ok w A B bufA xs capA bufB ys capB)
      as (d & w' & Hrun & Hd & Hh & Hv & Hav & Hf & Htr & Hwf');
      try done; [lia | apply Hmem; lia |].
    destruct HA as (HvA & HleA & HbA). destruct HB as (HvB & HleB & HbB).
    exists (Some d), (length ys), w'. split; [done |].
    split; [| split; [| split; [| split; [| split; [| split]]]]].
    + split; [by rewrite Hv; hlookup |]. split; [done |].
      rewrite Hh, Nat.sub_diag. cbn [replicate]. rewrite app_nil_r.
      destruct bufA as [a |]; [| by hlookup].
      rewrite lookup_delete_ne; [by hlookup | congruence].
    + split; [by rewrite Hv; hlookup |]. split; [done |].
      destruct bufB as [b |]; [| done]. rewrite Hh.
      assert (b ≠ d) by congruence.
      destruct bufA as [a |].
      * rewrite lookup_delete_ne; [by hlookup |]. intros ->. by eapply Hbuf.
      * by hlookup.
    + lia.
    + done.
    + rewrite Htr, !alive_app, alive_replicate_Dtor, alive_replicate_ctor by done.
      lia.
    + eapply calm_fuse; [exact Hf | done].
    + done.
Qed.

(** ** Failing copies and the strong guarantee *)

(** X12. When a copy raises during copy construction, the copies made so
    far are destroyed, the new buffer is given back and no vector comes to
    life: the state is rolled back. *)
Theorem failed_copy_construction_is_rolled_back w A B a xs cap j :
  wf w → rep w A (Some a) xs cap →
  may_throw CopyCtor = true → fuse w = Some j → j < length xs →
  length xs ≤ avail w →
  ∃ w', new_Vector B (Vector_copy A) w = (Throw ElementError, w')
        ∧ rolled_back w w'.
Proof.
  intros Hwf HA Hmay Hf Hj Hav.
  destruct (Vector_copy_unwinds w A a xs cap j) as [Hrun Halive]; try done.
  eexists. split.
  - unfold new_Vector. erewrite bind_Throw; [reflexivity | exact Hrun].
  - by repeat split.
Qed.

(** X13. When the elements are transferred by copy and a copy raises
    during Reserve, the copies made so far are destroyed and the new buffer
    is given back: the vector keeps its buffer, elements and capacity, and
    the state is rolled back. *)
Theorem failed_Reserve_is_rolled_back w this a xs cap n j :
  wf w → rep w this (Some a) xs cap → use_move = false →
  may_throw CopyCtor = true → fuse w = Some j → j < length xs →
  cap < n → n ≤ avail w →
  ∃ w', Reserve this n w = (Throw ElementError, w') ∧ rolled_back w w'.
Proof.
  intros Hwf Hrep Hmv Hmay Hf Hj Hn Hav.
  eexists. split; [by eapply Reserve_unwinds |].
  repeat split. wsimpl.
  rewrite !alive_app, alive_replicate_ctor, alive_replicate_Dtor by done. lia.
Qed.

(** X14. Copy assignment that needs a larger buffer copies the source
    into a temporary first: when one of those copies raises, the target
    has not been touched, and the state is rolled back. *)
Theorem failed_copy_assignment_is_rolled_back
    w A B bufA xs capA b ys capB j :
  wf w → rep w A bufA xs capA → rep w B (Some b) ys capB → A ≠ B →
  capA < length ys →
  may_throw CopyCtor = true → fuse w = Some j → j < length ys →
  length ys ≤ avail w →
  ∃ w', Vector_copy_assign A B w = (Throw ElementError, w')
        ∧ rolled_back w w'.
Proof.
  intros Hwf (HvA & HleA & HbA) HB Hne Hcap Hmay Hf Hj Hav.
  destruct (Vector_copy_unwinds w B b ys capB j) as [Hrun Halive]; try done.
  destruct HB as (HvB & HleB & HbB).
  eexists. split.
  - unfold Vector_copy_assign. rewrite decide_False by done.
    step_by ltac:(by apply Capacity_ok).
    step_by ltac:(by apply this_ok).
    rewrite decide_False by lia.
    erewrite bind_Throw; [reflexivity | exact Hrun].
  - by repeat split.
Qed.

(** ** A failing constructor of the new element *)

Lemma construct_fire w args :
  may_throw (arg_kind args) = true → fuse w = Some 0 → readable w args →
  construct args w = (Throw ElementError, set_fuse None w).
Proof.
  intros Hmay Hf Hr.
  destruct args as [[p | x] | [p | x] | x]; cbn [construct deref arg_kind] in *.
  - destruct Hr as [x Hx].
    step_by ltac:(by apply load_slot).
    erewrite bind_Throw; [reflexivity | by apply invoke_fire].
  - step_by ltac:(apply ret_Ok).
    erewrite bind_Throw; [reflexivity | by apply invoke_fire].
  - destruct Hr as [x Hx].
    step_by ltac:(by apply load_slot).
    erewrite bind_Throw; [reflexivity | by apply invoke_fire].
  - step_by ltac:(apply ret_Ok).
    erewrite bind_Throw; [reflexivity | by apply invoke_fire].
  - erewrite bind_Throw; [reflexivity | by apply invoke_fire].
Qed.

Lemma readable_frame w w' args :
  (∀ a blk, heap w !! a = Some blk → heap w' !! a = Some blk) →
  readable w args → readable w' args.
Proof.
  intros Hfr. destruct args as [[p | x] | [p | x] | x]; cbn [readable]; try done;
    intros [x Hx]; exists x; by eapply slot_frame.
Qed.

(** X15. When the constructor of the new element raises, Emplace has
    changed nothing yet, on each of its three paths: with growth the new
    buffer is given back and the old one was not touched, at the end the
    slot stays raw, and in the middle no element has been shifted. *)
Theorem failed_element_construction_in_Emplace_is_rolled_back
    w this buf xs cap p args :
  wf w → rep w this buf xs cap → p ≤ length xs →
  may_throw (arg_kind args) = true → fuse w = Some 0 → readable w args →
  (length xs = cap → next_capacity cap ≤ avail w) →
  ∃ w', Emplace this (Ptr buf p) args w = (Throw ElementError, w')
        ∧ rolled_back w w' ∧ trace w' = trace w.
Proof.
  intros Hwf (Hv & Hle & Hb) Hp Hmay Hf Hr Hmem.
  assert (Hnc : 0 < next_capacity cap).
  { unfold next_capacity. destruct (decide (cap = 0)); lia. }
  assert (Hstart :
    Emplace this (Ptr buf p) args w
    = ((if decide (cap = length xs) then
          with_RawMemory (if decide (length xs = 0) then 1 else length xs * 2)
            (λ new_data,
              let it_in_new_data :=
                ptr_add (GetAddress new_data)
                  (distance (Ptr buf 0) (Ptr buf p)) in
              construct_at it_in_new_data args;;
              OverwriteData (Ptr buf 0) (Ptr buf p) (GetAddress new_data);;
              OverwriteData (Ptr buf p) (Ptr buf (length xs))
                (ptr_add it_in_new_data 1);;
              destroy (Ptr buf 0) (Ptr buf (length xs));;
              let '(d, nd) := RawMemory_Swap (mkRawMemory buf cap) new_data in
              set_this this (mkVector d (length xs));;
              mret (nd, tt))
        else if decide (distance (Ptr buf 0) (Ptr buf p) = length xs) then
          construct_at (Ptr buf (length xs)) args
        else
          new_value ← construct args;
          scope_exit
            (bk ← Back this;
             (if use_move
              then construct_at (Ptr buf (length xs)) (MoveOf (At bk))
              else construct_at (Ptr buf (length xs)) (CopyOf (At bk)));;
             std_move_backward (Ptr buf p) (ptr_prev (Ptr buf (length xs)))
               (Ptr buf (length xs));;
             move_assign_local (Ptr buf p) new_value)
            (record Dtor)) ≫= λ _,
       v' ← this_ this;
       set_this this (mkVector (data_ v') (size_ v' + 1));;
       b' ← Vector_begin this;
       mret (ptr_add b' (distance (Ptr buf 0) (Ptr buf p)))) w).
  { unfold Emplace.
    step_by ltac:(by eapply Vector_begin_ok).
    step_by ltac:(by eapply Vector_end_ok).
    step_by ltac:(apply assert_ok; rewrite !ptr_le_same by lia; done).
    step_by ltac:(by apply this_ok).
    reflexivity. }
  rewrite Hstart. clear Hstart.
  destruct (decide (cap = length xs)) as [Hfull | Hroom].
  - eexists. split.
    { erewrite bind_Throw; [reflexivity |].
      fold (next_capacity (length xs)). rewrite <- Hfull.
      eapply with_RawMemory_Throw.
      + apply RawMemory_ctor_ok; [done | done | apply Hmem; lia].
      + cbv beta zeta. erewrite bind_Throw; [reflexivity |].
        unfold construct_at. erewrite bind_Throw; [reflexivity |].
        apply construct_fire; [done | done |].
        eapply readable_frame; [| exact Hr].
        intros a blk Ha. wsimpl. rewrite lookup_insert_ne; [done |].
        apply wf_fresh in Ha; [lia | done].
      + eapply RawMemory_dtor_ok. hlookup. }
    unfold rolled_back. wnorm. repeat split; [| list_len].
    rewrite delete_insert_eq. apply delete_id. apply (wf_heap _ _ Hwf). lia.
  - eexists. split.
    { erewrite bind_Throw; [reflexivity |].
      destruct (decide (distance (Ptr buf 0) (Ptr buf p) = length xs)).
      + unfold construct_at. erewrite bind_Throw; [reflexivity |].
        by apply construct_fire.
      + erewrite bind_Throw; [reflexivity |]. by apply construct_fire. }
    by repeat split.
Qed.

(** ** What the modifiers do to the elements, the buffer and [T] *)

Lemma rep_slot w this buf xs cap i :
  rep w this buf xs cap → slot w (Ptr buf i) = xs !! i.
Proof.
  intros (Hv & Hle & Hb). unfold slot. wsimpl. destruct buf as [a |].
  - cbn. rewrite Hb. cbn.
    destruct (decide (i < length xs)) as [Hi | Hi].
    + rewrite lookup_app_l by (by rewrite length_fmap).
      rewrite list_lookup_fmap. by destruct (xs !! i).
    + rewrite (lookup_ge_None_2 xs) by lia.
      rewrite lookup_app_r by (rewrite length_fmap; lia).
      destruct (replicate (cap - length xs) None !! (i - length (Some <$> xs)))
        as [s |] eqn:Hs; [| done].
      apply lookup_replicate in Hs as [-> _]. done.
  - cbn. subst cap. by rewrite lookup_ge_None_2 by lia.
Qed.

Lemma Emplace_trace_eq w this buf xs cap p args x :
  calm w → wf w → rep w this buf xs cap → p ≤ length xs →
  arg_value w args = Some x →
  (length xs = cap → next_capacity cap ≤ avail w) →
  trace (Emplace this (Ptr buf p) args w).2
  = trace w ++ Emplace_calls (length xs) cap p (arg_kind args).
Proof.
  intros Hc Hwf Hrep Hp Hx Hav. unfold Emplace_calls.
  destruct (decide (length xs = cap)) as [Hfull | Hroom].
  - specialize (Hav Hfull). subst cap. destruct buf as [a |].
    + by rewrite (Emplace_grow_ok w this a xs p args x).
    + destruct xs; [| destruct Hrep as (_ & _ & ?); done].
      cbn [length] in *. assert (p = 0) as -> by lia.
      unfold next_capacity in Hav. rewrite decide_True in Hav by done.
      by rewrite (Emplace_null_ok w this args x).
  - pose proof Hrep as (Hv & Hle & Ha).
    destruct buf as [a |]; [| lia].
    destruct (decide (p = length xs)) as [-> | Hmid].
    + by rewrite (Emplace_end_ok w this a xs cap args x) by (done || lia).
    + destruct (drop_snoc_exists xs p) as (mid & l & Hd); [lia |].
      assert (Hxs : xs = take p xs ++ mid ++ [l]) by (by rewrite <- Hd, take_drop).
      assert (Hpl : length (take p xs) = p) by (rewrite length_take; lia).
      pose proof (Emplace_mid_ok w this a (take p xs) mid l cap args x Hc) as Hm.
      rewrite <- Hxs, Hpl in Hm.
      rewrite Hm by (done || lia). wsimpl.
      assert (Hml : length xs - p = S (length mid)).
      { rewrite <- (length_drop xs p), Hd. list_len. }
      rewrite Hml, replicate_S_end. by rewrite <- !app_assoc.
Qed.

Lemma Erase_trace_eq w this buf xs cap p :
  calm w → rep w this buf xs cap → p < length xs →
  trace (Erase this (Ptr buf p) w).2 = trace w ++ Erase_calls (length xs) p.
Proof.
  intros Hc Hrep Hp. unfold Erase_calls.
  destruct buf as [a |]; [| destruct Hrep as (_ & ? & ?); lia].
  destruct (drop p xs) as [| z mid] eqn:Hd.
  { apply (f_equal length) in Hd. rewrite length_drop in Hd. cbn in Hd. lia. }
  assert (Hxs : xs = take p xs ++ z :: mid) by (by rewrite <- Hd, take_drop).
  assert (Hpl : length (take p xs) = p) by (rewrite length_take; lia).
  pose proof (Erase_ok w this a (take p xs) z mid cap Hc) as He.
  rewrite <- Hxs, Hpl in He. rewrite He by done. wsimpl.
  do 3 f_equal. rewrite <- (length_drop xs (S p)).
  replace (S p) with (p + 1) by lia. by rewrite <- drop_drop, Hd.
Qed.

Lemma Reserve_trace_eq w this buf xs cap n :
  calm w → wf w → rep w this buf xs cap → (cap < n → n ≤ avail w) →
  trace (Reserve this n w).2 = trace w ++ Reserve_calls (length xs) cap n.
Proof.
  intros Hc Hwf Hrep Hav. unfold Reserve_calls.
  destruct (decide (n ≤ cap)) as [Hfit | Hgrow].
  - rewrite (Reserve_noop w this buf xs cap n) by done. by rewrite app_nil_r.
  - destruct buf as [a |].
    + by rewrite (Reserve_grow_ok w this a xs cap n) by (done || lia).
    + assert (xs = []) as ->.
      { destruct Hrep as (_ & ? & ?). destruct xs; [done | cbn in *; lia]. }
      assert (cap = 0) as -> by (by destruct Hrep as (_ & _ & ?)).
      rewrite (Reserve_grow_null_ok w this n) by (done || lia).
      by rewrite app_nil_r.
Qed.

Lemma Resize_trace_eq w this buf xs cap k :
  calm w → wf w → rep w this buf xs cap → (cap < k → k ≤ avail w) →
  trace (Resize this k w).2 = trace w ++ Resize_calls (length xs) cap k.
Proof.
  intros Hc Hwf Hrep Hav. unfold Resize_calls.
  pose proof Hrep as (Hv & Hle & Hb).
  destruct (decide (k < length xs)) as [Hshrink | Hext].
  - destruct buf as [a |]; [| lia].
    by rewrite (Resize_shrink_ok w this a xs cap k).
  - destruct (decide (cap < k)) as [Hgrow | Hfit].
    + destruct buf as [a |].
      * by rewrite (Resize_grow_ok w this a xs cap k) by (done || lia).
      * subst cap. assert (xs = []) as -> by (apply length_zero_iff_nil; lia).
        rewrite (Resize_grow_null_ok w this k) by (done || lia).
        cbn [length replicate]. by rewrite Nat.sub_0_r, app_nil_r.
    + destruct buf as [a |].
      * by rewrite (Resize_within_ok w this a xs cap k) by (done || lia).
      * subst cap. assert (xs = []) as -> by (apply length_zero_iff_nil; lia).
        assert (k = 0) as -> by lia.
        rewrite (Resize_null_ok w this) by done.
        cbn [length replicate]. by rewrite app_nil_r.
Qed.

(** X16. Emplace puts the new element at the position asked for, keeps the
    order of the others, and returns an iterator to the new element.  With
    room left the buffer, the capacity and the free memory stay as they
    are; with a full buffer the capacity becomes 1 for an empty vector and
    twice the size otherwise. *)
Theorem Emplace_inserts_at_the_position w this buf xs cap p args x :
  calm w → wf w → rep w this buf xs cap → p ≤ length xs →
  arg_value w args = Some x →
  (length xs = cap → next_capacity cap ≤ avail w) →
  ∃ it buf' cap' w',
    Emplace this (Ptr buf p) args w = (Ok it, w')
    ∧ rep w' this buf' (take p xs ++ x :: drop p xs) cap'
    ∧ it = Ptr buf' p
    ∧ slot w' it = Some x
    ∧ (length xs < cap → buf' = buf ∧ cap' = cap ∧ avail w' = avail w)
    ∧ (length xs = cap →
         cap' = (if decide (cap = 0) then 1 else cap * 2)
         ∧ avail w' + cap' = avail w + cap).
Proof.
  intros Hc Hwf Hrep Hp Hx Hav.
  destruct (Emplace_rep w this buf xs cap p args x)
    as (buf' & cap' & w' & He & Hrep' & _ & _ & Hcap & Hmem & Hbuf);
    try done.
  exists (Ptr buf' p), buf', cap', w'.
  split; [done |]. split; [done |]. split; [done |]. split; [| split].
  - rewrite (rep_slot w' this buf' _ cap') by done.
    apply lookup_middle. rewrite length_take. lia.
  - intros Hroom. rewrite decide_False in Hcap by lia. subst cap'.
    split; [by apply Hbuf |]. split; [done | lia].
  - intros Hfull. rewrite decide_True in Hcap by done. by subst cap'.
Qed.

(** X17. The calls of [T] a successful Emplace makes.  With growth: the
    constructor of the new element, one transfer construction and one
    destruction per old element.  At the end with room: the constructor
    alone.  In the middle with room: the constructor of a temporary, one
    transfer construction of the last element, one move assignment per
    element from the position on, and the destruction of the temporary.
    On each path one more object is alive afterwards. *)
Theorem Emplace_calls_of_T w this buf xs cap p args x :
  calm w → wf w → rep w this buf xs cap → p ≤ length xs →
  arg_value w args = Some x →
  (length xs = cap → next_capacity cap ≤ avail w) →
  ∃ it w',
    Emplace this (Ptr buf p) args w = (Ok it, w')
    ∧ trace w' = trace w ++ Emplace_calls (length xs) cap p (arg_kind args)
    ∧ alive (trace w') = (alive (trace w) + 1)%Z.
Proof.
  intros Hc Hwf Hrep Hp Hx Hav.
  destruct (Emplace_rep w this buf xs cap p args x)
    as (buf' & cap' & w' & He & _); try done.
  pose proof (Emplace_trace_eq w this buf xs cap p args x Hc Hwf Hrep Hp Hx Hav)
    as Htr.
  rewrite He in Htr. cbn [snd] in Htr.
  exists (Ptr buf' p), w'. split; [done |]. split; [done |].
  rewrite Htr, alive_app. unfold Emplace_calls.
  assert (Hk : alive [arg_kind args] = 1%Z) by (by destruct args).
  assert (Ht : is_ctor transfer_ctor = true).
  { unfold transfer_ctor. by destruct use_move. }
  repeat case_decide.
  - rewrite !alive_app, Hk, alive_replicate_ctor, alive_replicate_Dtor by done.
    lia.
  - rewrite Hk. lia.
  - change [arg_kind args; transfer_ctor]
      with ([arg_kind args] ++ replicate 1 transfer_ctor).
    change [Dtor] with (replicate 1 Dtor).
    rewrite !alive_app, Hk, alive_replicate_ctor, alive_replicate_Dtor,
      alive_replicate_assign by done.
    lia.
Qed.

(** X18. Erase removes the element at the position, keeps the order of
    the others, and returns the same position, which now designates the
    element that followed (or end()).  The buffer, the capacity and the
    free memory stay as they are; the elements after the position are
    assigned one slot to the left, by move or by copy as [T] allows, and
    one object is destroyed. *)
Theorem Erase_removes_at_the_position w this buf xs cap p :
  calm w → wf w → rep w this buf xs cap → p < length xs →
  ∃ w',
    Erase this (Ptr buf p) w = (Ok (Ptr buf p), w')
    ∧ rep w' this buf (take p xs ++ drop (S p) xs) cap
    ∧ slot w' (Ptr buf p) = xs !! S p
    ∧ avail w' = avail w
    ∧ trace w' = trace w ++ Erase_calls (length xs) p
    ∧ alive (trace w') = (alive (trace w) - 1)%Z.
Proof.
  intros Hc Hwf Hrep Hp.
  destruct (Erase_rep w this buf xs cap p)
    as (w' & He & Hrep' & _ & _ & Hav); try done.
  pose proof (Erase_trace_eq w this buf xs cap p Hc Hrep Hp) as Htr.
  rewrite He in Htr. cbn [snd] in Htr.
  exists w'. split; [done |]. split; [done |]. split; [| split; [done |]].
  - rewrite (rep_slot w' this buf _ cap) by done.
    rewrite lookup_app_r by (rewrite length_take; lia).
    rewrite length_take, lookup_drop. f_equal. lia.
  - split; [done |].
    rewrite Htr, alive_app. unfold Erase_calls.
    change [Dtor] with (replicate 1 Dtor).
    rewrite alive_app, alive_replicate_Dtor, alive_replicate_assign;
      [lia | |]; unfold erase_assign; by destruct use_move.
Qed.

(** X19. Reserve keeps the elements and makes the capacity the larger of
    the old one and the one asked for.  A request that the capacity
    already covers changes nothing at all; otherwise each element is
    transferred once into a buffer of exactly the capacity asked for and
    its source is destroyed once, and the old buffer is given back. *)
Theorem Reserve_keeps_the_elements w this buf xs cap n :
  calm w → wf w → rep w this buf xs cap → (cap < n → n ≤ avail w) →
  ∃ buf' w',
    Reserve this n w = (Ok tt, w')
    ∧ rep w' this buf' xs (cap `max` n)
    ∧ (n ≤ cap → w' = w)
    ∧ avail w' + (cap `max` n) = avail w + cap
    ∧ trace w' = trace w ++ Reserve_calls (length xs) cap n
    ∧ alive (trace w') = alive (trace w).
Proof.
  intros Hc Hwf Hrep Hav.
  destruct (Reserve_rep w this buf xs cap n)
    as (buf' & w' & He & Hrep' & _); try done.
  pose proof (Reserve_trace_eq w this buf xs cap n Hc Hwf Hrep Hav) as Htr.
  rewrite He in Htr. cbn [snd] in Htr.
  exists buf', w'. split; [done |]. split; [done |].
  assert (Hfit : n ≤ cap → w' = w).
  { intros Hn. rewrite (Reserve_noop w this buf xs cap n) in He by done.
    congruence. }
  split; [done |]. split; [| split; [done |]].
  - destruct (decide (n ≤ cap)) as [Hn | Hn].
    + rewrite Hfit by done. lia.
    + pose proof Hrep as (Hv & Hle & Hb). destruct buf as [a |].
      * rewrite (Reserve_grow_ok w this a xs cap n) in He by (done || lia).
        injection He as <-. wsimpl. lia.
      * subst cap. assert (xs = []) as -> by (apply length_zero_iff_nil; lia).
        rewrite (Reserve_grow_null_ok w this n) in He by (done || lia).
        injection He as <-. wsimpl. lia.
  - rewrite Htr, alive_app. unfold Reserve_calls. case_decide.
    + unfold alive. cbn. lia.
    + rewrite alive_app, alive_replicate_ctor, alive_replicate_Dtor; [lia |].
      unfold transfer_ctor. by destruct use_move.
Qed.

(** X20. The calls of [T] a successful Resize makes: to shrink, one
    destruction per element dropped; to grow within the capacity, one
    default construction per new element; past the capacity, the default
    constructions in a buffer of exactly the new size, then one transfer
    and one destruction per old element.  The count of live objects changes
    by the difference of the sizes. *)
Theorem Resize_calls_of_T w this buf xs cap k :
  calm w → wf w → rep w this buf xs cap → (cap < k → k ≤ avail w) →
  ∃ buf' w',
    Resize this k w = (Ok tt, w')
    ∧ rep w' this buf' (take k xs ++ replicate (k - length xs) T_default)
        (if decide (cap < k) then k else cap)
    ∧ trace w' = trace w ++ Resize_calls (length xs) cap k
    ∧ alive (trace w')
      = (alive (trace w) + Z.of_nat k - Z.of_nat (length xs))%Z.
Proof.
  intros Hc Hwf Hrep Hav.
  destruct (Resize_rep w this buf xs cap k)
    as (buf' & cap' & w' & He & Hrep' & _ & _ & ->); try done.
  pose proof (Resize_trace_eq w this buf xs cap k Hc Hwf Hrep Hav) as Htr.
  rewrite He in Htr. cbn [snd] in Htr.
  exists buf', w'. split; [done |]. split; [done |]. split; [done |].
  rewrite Htr, alive_app. unfold Resize_calls.
  assert (Ht : is_ctor transfer_ctor = true).
  { unfold transfer_ctor. by destruct use_move. }
  repeat case_decide;
    rewrite ?alive_app, ?alive_replicate_Dtor, ?alive_replicate_ctor by done;
    lia.
Qed.

Lemma PopBack_effect w this buf xs x cap :
  wf w → rep w this buf (xs ++ [x]) cap →
  ∃ w',
    PopBack this w = (Ok tt, w')
    ∧ rep w' this buf xs cap
    ∧ trace w' = trace w ++ [Dtor]
    ∧ avail w' = avail w ∧ fuse w' = fuse w ∧ wf w'.
Proof.
  intros Hwf (Hv & Hle & Hb).
  assert (Hn : length (xs ++ [x]) = S (length xs)) by list_len.
  rewrite Hn in *.
  destruct buf as [a |]; [| lia].
  rewrite fmap_app in Hb. cbn [fmap list_fmap] in Hb.
  rewrite <- app_assoc in Hb. cbn [app] in Hb.
  eexists. split.
  { unfold PopBack.
    step_by ltac:(by apply this_ok).
    step_by ltac:(apply assert_ok; by apply bool_decide_eq_true).
    unfold Back.
    step_by ltac:(step_by ltac:(by eapply Vector_end_ok); apply ret_Ok).
    replace (S (length xs) - 1) with (length xs) by lia.
    step_by ltac:(eapply (destroy_at_ok _ a _ _ x);
      [ done | apply lookup_middle; list_len ]).
    reflexivity. }
  wnorm. split; [| split; [done | split; [done | split; [done |]]]].
  - split; [| split].
    + hlookup; try (do 2 f_equal; lia).
    + lia.
    + hlookup. f_equal. rewrite insert_middle by list_len. f_equal.
      replace (cap - length xs) with (S (cap - S (length xs))) by lia. done.
  - eapply (wf_update w); [done | done | done | | wsimpl; lia].
    intros j Hj. wsimpl. by rewrite lookup_insert_ne.
Qed.

(** X21. PopBack destroys the last element and nothing else: the other
    elements, the buffer, the capacity and the free memory stay as they
    are.  It calls only the destructor, so it succeeds whether or not a
    member of [T] is about to raise. *)
Theorem PopBack_removes_the_last w this buf xs x cap :
  wf w → rep w this buf (xs ++ [x]) cap →
  ∃ w',
    PopBack this w = (Ok tt, w')
    ∧ rep w' this buf xs cap
    ∧ trace w' = trace w ++ [Dtor]
    ∧ alive (trace w') = (alive (trace w) - 1)%Z
    ∧ avail w' = avail w ∧ fuse w' = fuse w.
Proof.
  intros Hwf Hrep.
  destruct (PopBack_effect w this buf xs x cap)
    as (w' & He & Hrep' & Htr & Hav & Hf & _); try done.
  exists w'. do 3 (split; [done |]). split; [| done].
  rewrite Htr, alive_app. change [Dtor] with (replicate 1 Dtor).
  rewrite alive_replicate_Dtor. lia.
Qed.

(** X22. Resize to a size that is not larger than the current one needs
    no memory and calls only destructors: it succeeds in every state,
    keeps the first elements, the buffer and the capacity, and destroys
    the others. *)
Theorem Resize_down_cannot_fail w this buf xs cap k :
  rep w this buf xs cap → k ≤ length xs →
  ∃ w',
    Resize this k w = (Ok tt, w')
    ∧ rep w' this buf (take k xs) cap
    ∧ trace w' = trace w ++ replicate (length xs - k) Dtor
    ∧ avail w' = avail w ∧ fuse w' = fuse w.
Proof.
  intros Hrep Hk. pose proof Hrep as (Hv & Hle & Hb).
  destruct (decide (k < length xs)) as [Hlt | Heq].
  - destruct buf as [a |]; [| lia].
    eexists. split; [by apply Resize_shrink_ok |].
    wnorm. split; [| done].
    split; [| split]; [hlookup; do 2 f_equal; list_len | list_len |].
    hlookup. do 3 f_equal. list_len.
  - assert (k = length xs) as -> by lia.
    eexists. split.
    { unfold Resize.
      step_by ltac:(by apply this_ok).
      rewrite decide_False by lia. rewrite decide_False by lia.
      step_by ltac:(
        step_by ltac:(by eapply Vector_end_ok);
        step_by ltac:(by eapply Vector_begin_ok);
        apply uninitialized_value_construct_nil;
        unfold distance; wsimpl; lia).
      step_by ltac:(by apply this_ok).
      reflexivity. }
    wnorm. rewrite Nat.sub_diag, take_ge by lia. cbn [replicate].
    rewrite app_nil_r. split; [| done].
    split; [by hlookup |]. split; [done |]. done.
Qed.

Lemma Forall_not_copy_replicate n k :
  is_copy k = false → Forall (λ k, is_copy k = false) (replicate n k).
Proof. intros Hk. apply Forall_forall. by intros k' ->%elem_of_replicate_inv. Qed.

(** X23. For an element type whose move constructor cannot raise (or
    that cannot be copied), Reserve, Resize and Erase copy no element at
    all, and Emplace copies none unless it is asked to copy-construct the
    new element: whatever is transferred or shifted is moved. *)
Theorem movable_elements_are_never_copied w this buf xs cap :
  use_move = true → calm w → wf w → rep w this buf xs cap →
  (∀ n, (cap < n → n ≤ avail w) → copies_nothing w (Reserve this n w).2)
  ∧ (∀ k, (cap < k → k ≤ avail w) → copies_nothing w (Resize this k w).2)
  ∧ (∀ p, p < length xs → copies_nothing w (Erase this (Ptr buf p) w).2)
  ∧ (∀ p args x, p ≤ length xs → arg_value w args = Some x →
       arg_kind args ≠ CopyCtor →
       (length xs = cap → next_capacity cap ≤ avail w) →
       copies_nothing w (Emplace this (Ptr buf p) args w).2).
Proof.
  intros Hmv Hc Hwf Hrep.
  assert (Ht : is_copy transfer_ctor = false).
  { unfold transfer_ctor. by rewrite Hmv. }
  assert (He : is_copy erase_assign = false).
  { unfold erase_assign. by rewrite Hmv. }
  split; [| split; [| split]].
  - intros n Hav. eexists. split; [by eapply Reserve_trace_eq |].
    unfold Reserve_calls. case_decide; [done |].
    apply Forall_app. split; by apply Forall_not_copy_replicate.
  - intros k Hav. eexists. split; [by eapply Resize_trace_eq |].
    unfold Resize_calls.
    repeat case_decide; rewrite ?Forall_app;
      repeat split; by apply Forall_not_copy_replicate.
  - intros p Hp. eexists. split; [by eapply Erase_trace_eq |].
    unfold Erase_calls. apply Forall_app.
    split; [by apply Forall_not_copy_replicate | by repeat constructor].
  - intros p args x Hp Hx Hk Hav.
    eexists. split; [by eapply Emplace_trace_eq |].
    assert (Ha : is_copy (arg_kind args) = false) by (by destruct args).
    unfold Emplace_calls.
    repeat case_decide; rewrite ?Forall_app;
      repeat split;
      try (by apply Forall_not_copy_replicate); by repeat constructor.
Qed.

(** X24. Swap exchanges the buffers, the sizes and the capacities of two
    vectors without touching an element or the heap, and swapping again
    gives back the state it started from. *)
Theorem Swap_exchanges_and_undoes_itself w A B bufA xs capA bufB ys capB :
  rep w A bufA xs capA → rep w B bufB ys capB → A ≠ B →
  ∃ w',
    Vector_Swap A B w = (Ok tt, w')
    ∧ rep w' A bufB ys capB ∧ rep w' B bufA xs capA
    ∧ heap w' = heap w ∧ avail w' = avail w ∧ trace w' = trace w
    ∧ Vector_Swap A B w' = (Ok tt, w).
Proof.
  intros HA HB Hne. eexists. split.
  { unfold Vector_Swap.
    step_by ltac:(apply this_ok; apply HA).
    step_by ltac:(apply this_ok; apply HB).
    cbn [RawMemory_Swap].
    step_by ltac:(reflexivity).
    reflexivity. }
  wnorm. split; [| split; [| do 3 (split; [done |])]].
  - eapply rep_vecs_frame; [exact HB | done | hlookup | done].
  - eapply rep_vecs_frame; [exact HA | done | hlookup | done].
  - unfold Vector_Swap.
    step_by ltac:(apply this_ok; hlookup).
    step_by ltac:(apply this_ok; hlookup).
    cbn [RawMemory_Swap].
    step_by ltac:(reflexivity).
    unfold set_this. wnorm.
    transitivity (Ok tt, mkWorld (heap w) (fresh_addr w) (avail w) (vecs w)
                           (fuse w) (trace w)); [| by rewrite world_eta].
    do 2 f_equal.
    destruct HA as (HvA & _). destruct HB as (HvB & _).
    apply map_eq. intros k.
    destruct (decide (k = B)) as [-> |]; [by hlookup |].
    destruct (decide (k = A)) as [-> |]; [by hlookup |].
    by hlookup.
Qed.

(** X25. PushBack followed by PopBack gives back the elements the vector
    had; the capacity may have grown, and as many objects are alive as
    before. *)
Theorem PushBack_then_PopBack_restores w this buf xs cap value x :
  calm w → wf w → rep w this buf xs cap →
  arg_value w (CopyOf value) = Some x →
  (length xs = cap → next_capacity cap ≤ avail w) →
  ∃ buf' cap' w',
    (PushBack this value;; PopBack this) w = (Ok tt, w')
    ∧ rep w' this buf' xs cap'
    ∧ cap ≤ cap'
    ∧ alive (trace w') = alive (trace w).
Proof.
  intros Hc Hwf Hrep Hx Hav.
  destruct (EmplaceBack_rep w this buf xs cap (CopyOf value) x)
    as (buf' & cap' & w1 & He & Hrep1 & Hc1 & Hwf1 & Hcap & _); try done.
  destruct (PopBack_effect w1 this buf' xs x cap')
    as (w' & Hp & Hrep' & Htr & _); try done.
  assert (Htr1 : alive (trace w1) = (alive (trace w) + 1)%Z).
  { pose proof (Emplace_trace_eq w this buf xs cap (length xs) (CopyOf value) x
                  Hc Hwf Hrep ltac:(lia) Hx Hav) as Ht.
    assert (Hrun : Emplace this (Ptr buf (length xs)) (CopyOf value) w
                   = (Ok (Ptr buf' (length xs)), w1)).
    { assert (Hend : Vector_end this w = (Ok (Ptr buf (length xs)), w)).
      { destruct Hrep as (Hv & Hle & _).
        erewrite Vector_end_ok; [| eassumption | done]. reflexivity. }
      unfold EmplaceBack in He. by rewrite (bind_Ok _ _ _ _ _ Hend) in He. }
    rewrite Hrun in Ht. cbn [snd] in Ht. rewrite Ht, alive_app.
    unfold Emplace_calls. cbn [arg_kind].
    assert (Hk : is_ctor transfer_ctor = true).
    { unfold transfer_ctor. by destruct use_move. }
    case_decide.
    - change [CopyCtor] with (replicate 1 CopyCtor).
      rewrite !alive_app, !alive_replicate_ctor, alive_replicate_Dtor by done.
      lia.
    - rewrite decide_True by done. change [CopyCtor] with (replicate 1 CopyCtor).
      rewrite alive_replicate_ctor by done. lia. }
  exists buf', cap', w'. split; [| split; [done | split; [done |]]].
  - unfold PushBack.
    step_by ltac:(step_by ltac:(exact He); apply ret_Ok).
    exact Hp.
  - rewrite Htr, alive_app, Htr1. change [Dtor] with (replicate 1 Dtor).
    rewrite alive_replicate_Dtor. lia.
Qed.

(** ** A default constructor that raises *)

(** std::uninitialized_value_construct when the construction number [j]
    (from 0) raises: the objects built so far are destroyed, and the range
    is raw again. *)
Lemma uninitialized_value_construct_loop_throw j :
  ∀ n i w d do dpre built dpost,
  may_throw DefaultCtor = true → fuse w = Some j → j < n →
  heap w !! d
  = Some (dpre ++ (Some <$> built) ++ replicate n None ++ dpost) →
  length dpre = do → length built = i →
  uninitialized_loop (λ _ cur, value_construct_at cur) (Ptr (Some d) do) i n w
  = (Throw ElementError,
     mkWorld
       (<[d := dpre ++ replicate i None ++ replicate n None ++ dpost]> (heap w))
       (fresh_addr w) (avail w) (vecs w) None
       (trace w ++ replicate j DefaultCtor ++ replicate (i + j) Dtor)).
Proof.
  induction j as [| j IH];
    intros n i w d do dpre built dpost Hmay Hf Hj Hd Hdl Hbl;
    (destruct n as [| n]; [lia |]);
    cbn [uninitialized_loop] in *; wsimpl.
  - erewrite bind_Throw; [reflexivity |].
    eapply on_throw_Throw.
    + unfold value_construct_at.
      erewrite bind_Throw; [reflexivity |].
      by apply invoke_fire.
    + wnorm. rewrite Nat.add_0_r.
      rewrite (destroy_n_len built i _ d do dpre
                 (replicate (S n) None ++ dpost)); [| done | done | done].
      by wnorm.
  - assert (Hdst :
      (dpre ++ (Some <$> built) ++ replicate (S n) None ++ dpost)
      = (dpre ++ (Some <$> built)) ++ None :: replicate n None ++ dpost).
    { by rewrite <- app_assoc. }
    erewrite bind_Ok; cycle 1.
    { apply on_throw_Ok. unfold value_construct_at.
      step_by ltac:(by apply invoke_tick).
      eapply store_ok; [hlookup | list_len]. }
    cbv beta. wnorm.
    rewrite (IH n (S i) _ d do dpre (built ++ [T_default]) dpost); try done.
    + wnorm. do 2 f_equal.
      * rewrite insert_insert_eq. f_equal. f_equal.
        rewrite app_assoc, <- replicate_add.
        rewrite (app_assoc (replicate i None)), <- replicate_add.
        do 2 f_equal. lia.
      * rewrite <- app_assoc. f_equal. cbn [replicate app]. f_equal.
        do 2 f_equal. lia.
    + lia.
    + hlookup. f_equal. rewrite Hdst.
      rewrite insert_middle by list_len.
      rewrite fmap_app. cbn [fmap list_fmap]. by rewrite <- !app_assoc.
    + list_len.
Qed.

Lemma alive_unwound tr j k :
  is_ctor k = true →
  alive (tr ++ replicate j k ++ replicate (0 + j) Dtor) = alive tr.
Proof.
  intros Hk.
  rewrite !alive_app, alive_replicate_ctor, alive_replicate_Dtor by done. lia.
Qed.

(** X26. When a default constructor raises while Resize builds the new
    elements, within the capacity or in a larger buffer, the elements built
    so far are destroyed and the vector is as it was: the state is rolled
    back. *)
Theorem failed_default_construction_in_Resize_is_rolled_back
    w this buf xs cap k j :
  wf w → rep w this buf xs cap →
  may_throw DefaultCtor = true → fuse w = Some j → j < k - length xs →
  (cap < k → k ≤ avail w) →
  ∃ w', Resize this k w = (Throw ElementError, w') ∧ rolled_back w w'.
Proof.
  intros Hwf (Hv & Hle & Hb) Hmay Hf Hj Hav.
  destruct (decide (cap < k)) as [Hgrow | Hfit].
  - eexists. split.
    { unfold Resize.
      step_by ltac:(by apply this_ok).
      rewrite decide_False by lia. rewrite decide_True by done.
      erewrite bind_Throw; [reflexivity |].
      eapply with_RawMemory_Throw.
      + apply RawMemory_ctor_ok; [done | lia | by apply Hav].
      + cbv beta.
        step_by ltac:(apply RawMemory_plus_ok; wsimpl; lia).
        step_by ltac:(apply RawMemory_plus_ok; wsimpl; lia).
        erewrite bind_Throw; [reflexivity |].
        unfold uninitialized_value_construct, uninitialized_value_construct_n,
          distance. wsimpl.
        apply (uninitialized_value_construct_loop_throw j (k - length xs) 0 _
                 (fresh_addr w) (length xs) (replicate (length xs) None) [] []);
          [ done | done | done | | list_len | done ].
        hlookup. cbn [fmap list_fmap app]. rewrite app_nil_r.
        rewrite <- replicate_add. do 2 f_equal. lia.
      + eapply RawMemory_dtor_ok. hlookup. }
    unfold rolled_back. wnorm.
    split; [| split; [done | split; [list_len | by apply alive_unwound]]].
    rewrite delete_insert_eq, delete_insert_eq. apply delete_id. apply (wf_heap _ _ Hwf). lia.
  - destruct buf as [a |]; [| lia].
    eexists. split.
    { unfold Resize.
      step_by ltac:(by apply this_ok).
      rewrite decide_False by lia. rewrite decide_False by done.
      erewrite bind_Throw; [reflexivity |].
      step_by ltac:(by eapply Vector_end_ok).
      step_by ltac:(by eapply Vector_begin_ok).
      unfold uninitialized_value_construct, uninitialized_value_construct_n,
        distance. wsimpl.
      apply (uninitialized_value_construct_loop_throw j (k - length xs) 0 _
               a (length xs) (Some <$> xs) [] (replicate (cap - k) None));
        [ done | done | done | | list_len | done ].
      rewrite Hb. cbn [fmap list_fmap app].
      rewrite <- replicate_add. do 3 f_equal. lia. }
    unfold rolled_back. wnorm.
    split; [| split; [done | split; [done | by apply alive_unwound]]].
    apply insert_id. rewrite Hb. cbn [replicate app].
    rewrite <- replicate_add. do 3 f_equal. lia.
Qed.

(** X27. When a default constructor raises in Vector(size), the elements
    built so far are destroyed, the buffer is given back and no vector
    comes to life: the state is rolled back. *)
Theorem failed_default_construction_in_Vector_sized_is_rolled_back
    w this n j :
  wf w → may_throw DefaultCtor = true → fuse w = Some j → j < n →
  n ≤ avail w →
  ∃ w', new_Vector this (Vector_sized n) w = (Throw ElementError, w')
        ∧ rolled_back w w'.
Proof.
  intros Hwf Hmay Hf Hj Hav.
  eexists. split.
  { unfold new_Vector, Vector_sized.
    erewrite bind_Throw; [reflexivity |].
    step_by ltac:(apply RawMemory_ctor_ok; [done | lia | done]).
    erewrite bind_Throw; [reflexivity |].
    eapply on_throw_Throw.
    - unfold uninitialized_value_construct_n. wsimpl.
      apply (uninitialized_value_construct_loop_throw j n 0 _
               (fresh_addr w) 0 [] [] []);
        [ done | done | done | | done | done ].
      hlookup. cbn [fmap list_fmap app]. by rewrite app_nil_r.
    - eapply RawMemory_dtor_ok. hlookup. }
  unfold rolled_back. wnorm.
  split; [| split; [done | split; [list_len | by apply alive_unwound]]].
  rewrite delete_insert_eq, delete_insert_eq. apply delete_id. apply (wf_heap _ _ Hwf). lia.
Qed.

(** ** An assignment that raises during Erase *)

Lemma assign_tick (mv : bool) w a blk i j x y n :
  may_throw (if mv then MoveAssign else CopyAssign) = true →
  fuse w = Some (S n) → heap w !! a = Some blk →
  blk !! i = Some (Some x) → blk !! j = Some (Some y) →
  (if mv then move_assign else copy_assign) (Ptr (Some a) j) (Ptr (Some a) i) w
  = (Ok tt,
     mkWorld
       (<[a := <[j := Some x]>
                 (if mv then <[i := Some (moved_from x)]> blk else blk)]> (heap w))
       (fresh_addr w) (avail w) (vecs w) (Some n)
       (trace w ++ [if mv then MoveAssign else CopyAssign])).
Proof.
  intros Hmay Hf Ha Hi Hj. destruct mv.
  - unfold move_assign.
    step_by ltac:(by eapply load_ok).
    step_by ltac:(by eapply load_ok).
    step_by ltac:(by apply invoke_tick).
    step_by ltac:(eapply store_ok; [hlookup | by eapply lookup_lt_Some]).
    erewrite store_ok; [| hlookup |].
    + wnorm. by rewrite insert_insert_eq.
    + rewrite length_insert. by eapply lookup_lt_Some.
  - unfold copy_assign.
    step_by ltac:(by eapply load_ok).
    step_by ltac:(by eapply load_ok).
    step_by ltac:(by apply invoke_tick).
    erewrite store_ok; [done | hlookup |]. by eapply lookup_lt_Some.
Qed.

Lemma assign_fire (mv : bool) w a blk i j x y :
  may_throw (if mv then MoveAssign else CopyAssign) = true →
  fuse w = Some 0 → heap w !! a = Some blk →
  blk !! i = Some (Some x) → blk !! j = Some (Some y) →
  (if mv then move_assign else copy_assign) (Ptr (Some a) j) (Ptr (Some a) i) w
  = (Throw ElementError, set_fuse None w).
Proof.
  intros Hmay Hf Ha Hi Hj. destruct mv.
  - unfold move_assign.
    step_by ltac:(by eapply load_ok).
    step_by ltac:(by eapply load_ok).
    erewrite bind_Throw; [reflexivity | by apply invoke_fire].
  - unfold copy_assign.
    step_by ltac:(by eapply load_ok).
    step_by ltac:(by eapply load_ok).
    erewrite bind_Throw; [reflexivity | by apply invoke_fire].
Qed.

(** The shift to the left when the assignment number [j] (from 0) raises:
    every slot of the range still holds an object. *)
Lemma assign_forward_loop_throw (mv : bool) j : ∀ mid w a pre z post first,
  may_throw (if mv then MoveAssign else CopyAssign) = true →
  fuse w = Some j → j < length mid →
  heap w !! a = Some (pre ++ Some z :: (Some <$> mid) ++ post) →
  first = length pre →
  ∃ zs, length zs = S (length mid) ∧
    assign_forward (if mv then move_assign else copy_assign)
      (Ptr (Some a) (first + 1)) (Ptr (Some a) first) (length mid) w
    = (Throw ElementError,
       mkWorld (<[a := pre ++ (Some <$> zs) ++ post]> (heap w))
         (fresh_addr w) (avail w) (vecs w) None
         (trace w ++ replicate j (if mv then MoveAssign else CopyAssign))).
Proof.
  induction j as [| j IH]; intros mid w a pre z post first Hmay Hf Hj Ha Hl;
    (destruct mid as [| m mid]; [cbn in Hj; lia |]);
    cbn [assign_forward length] in *; wsimpl;
    rewrite fmap_cons in Ha; cbn [app] in Ha.
  - exists (z :: m :: mid). split; [done |].
    erewrite bind_Throw; [reflexivity |].
    erewrite (assign_fire mv w a _ (first + 1) first m z); try done.
    + wnorm. cbn [replicate]. rewrite app_nil_r.
      rewrite insert_id; [done |]. by rewrite Ha.
    + change (Some z :: Some m :: (Some <$> mid) ++ post)
        with ([Some z] ++ Some m :: (Some <$> mid) ++ post).
      rewrite app_assoc. apply lookup_middle. list_len.
    + by apply lookup_middle.
  - set (leave := if mv then moved_from m else m).
    destruct (IH mid
                (mkWorld
                   (<[a := (pre ++ [Some m]) ++ Some leave
                             :: (Some <$> mid) ++ post]> (heap w))
                   (fresh_addr w) (avail w) (vecs w) (Some j)
                   (trace w ++ [if mv then MoveAssign else CopyAssign]))
                a (pre ++ [Some m]) leave post (first + 1))
      as (zs & Hzs & Hrun); try done; [cbn in Hj; lia | by hlookup | list_len |].
    exists (m :: zs). split; [cbn [length]; lia |].
    erewrite bind_Ok; cycle 1.
    { eapply (assign_tick mv w a _ (first + 1) first m z); try done.
      - change (Some z :: Some m :: (Some <$> mid) ++ post)
          with ([Some z] ++ Some m :: (Some <$> mid) ++ post).
        rewrite app_assoc. apply lookup_middle. list_len.
      - by apply lookup_middle. }
    cbv beta. wsimpl.
    assert (Hblk :
      <[first := Some m]>
        (if mv
         then <[first + 1 := Some (moved_from m)]>
                (pre ++ Some z :: Some m :: (Some <$> mid) ++ post)
         else pre ++ Some z :: Some m :: (Some <$> mid) ++ post)
      = (pre ++ [Some m]) ++ Some leave :: (Some <$> mid) ++ post).
    { subst leave. destruct mv.
      - change (Some z :: Some m :: (Some <$> mid) ++ post)
          with ([Some z] ++ Some m :: (Some <$> mid) ++ post).
        rewrite app_assoc.
        rewrite (insert_middle _ _ (Some m)) by list_len.
        rewrite <- app_assoc. cbn [app].
        rewrite (insert_middle _ _ (Some z)) by list_len.
        by rewrite <- app_assoc.
      - rewrite (insert_middle _ _ (Some z)) by list_len.
        by rewrite <- app_assoc. }
    rewrite Hblk. wsimpl. rewrite Hrun. wnorm.
    do 2 f_equal.
    + rewrite insert_insert_eq. by rewrite <- app_assoc.
    + by rewrite <- app_assoc.
Qed.

(** X28. When an assignment raises while Erase shifts the tail, the
    vector stays whole: it has the size, the buffer and the capacity it
    had, every slot below the size still holds an object, the elements
    before the position are untouched, and no object was built or
    destroyed. *)
Theorem failed_assignment_in_Erase_keeps_the_vector_whole
    w this a xs cap p j :
  rep w this (Some a) xs cap → p < length xs →
  may_throw erase_assign = true → fuse w = Some j → j < length xs - S p →
  ∃ zs w',
    Erase this (Ptr (Some a) p) w = (Throw ElementError, w')
    ∧ rep w' this (Some a) zs cap
    ∧ length zs = length xs ∧ take p zs = take p xs
    ∧ invariant w' this = true
    ∧ alive (trace w') = alive (trace w) ∧ avail w' = avail w.
Proof.
  intros Hrep Hp Hmay Hf Hj. pose proof Hrep as (Hv & Hle & Ha).
  destruct (drop p xs) as [| z mid] eqn:Hd.
  { apply (f_equal length) in Hd. rewrite length_drop in Hd. cbn in Hd. lia. }
  assert (Hxs : xs = take p xs ++ z :: mid) by (by rewrite <- Hd, take_drop).
  assert (Hpl : length (take p xs) = p) by (rewrite length_take; lia).
  assert (Hn : length xs = S (p + length mid)).
  { rewrite Hxs at 1. rewrite length_app, Hpl. cbn [length]. lia. }
  assert (Hblk : heap w !! a
                 = Some ((Some <$> take p xs) ++ Some z :: (Some <$> mid)
                         ++ replicate (cap - length xs) None)).
  { rewrite Ha. f_equal. rewrite Hxs at 1.
    rewrite fmap_app, fmap_cons, <- app_assoc. done. }
  destruct (assign_forward_loop_throw use_move j mid w a (Some <$> take p xs) z
              (replicate (cap - length xs) None) p)
    as (zs & Hzs & Hrun); try done; [lia | list_len |].
  assert (Hrep' : ∀ w', heap w' = <[a := (Some <$> take p xs) ++ (Some <$> zs)
                                         ++ replicate (cap - length xs) None]>
                                    (heap w) →
                        vecs w' = vecs w →
                        rep w' this (Some a) (take p xs ++ zs) cap).
  { intros w' Hh Hvs. split; [| split].
    - rewrite Hvs, Hv. do 2 f_equal. list_len.
    - list_len.
    - rewrite Hh. hlookup. f_equal. rewrite fmap_app, <- app_assoc.
      do 3 f_equal. list_len. }
  exists (take p xs ++ zs).
  exists (mkWorld (<[a := (Some <$> take p xs) ++ (Some <$> zs)
                          ++ replicate (cap - length xs) None]> (heap w))
            (fresh_addr w) (avail w) (vecs w) None
            (trace w ++ replicate j erase_assign)).
  split.
  { unfold Erase, erase_assign.
    step_by ltac:(by eapply Vector_begin_ok).
    step_by ltac:(by eapply Vector_end_ok).
    step_by ltac:(apply assert_ok; rewrite ptr_le_same, ptr_lt_same by lia; done).
    erewrite bind_Throw; [reflexivity |].
    unfold std_move, std_copy, distance. wsimpl.
    replace (length xs - (p + 1)) with (length mid) by lia.
    destruct use_move; exact Hrun. }
  split; [by apply Hrep' |].
  split; [list_len |].
  split; [by rewrite take_app_length' |].
  split; [eapply rep_invariant; by apply Hrep' |].
  wsimpl. split; [| done].
  rewrite alive_app, alive_replicate_assign; [lia | |];
    unfold erase_assign; by destruct use_move.
Qed.

(** ** A request whose byte count wraps *)

Lemma RawMemory_ctor_granted w n :
  0 < n → slots_of (byte_count n) ≤ avail w →
  RawMemory_ctor n w
  = (Ok (mkRawMemory (Some (fresh_addr w)) n),
     mkWorld (<[fresh_addr w := replicate (slots_of (byte_count n)) None]>
                (heap w))
             (S (fresh_addr w)) (avail w - slots_of (byte_count n))
             (vecs w) (fuse w) (trace w)).
Proof.
  intros Hn Ha. unfold RawMemory_ctor, Allocate, operator_new.
  rewrite decide_True by done.
  step_by ltac:(step_by ltac:(cbv zeta; rewrite decide_True by done;
                              reflexivity);
                apply ret_Ok).
  reflexivity.
Qed.

(** X30. Reserve does not check that the byte count of the capacity it is
    asked for fits into [size_t].  When the provider grants the wrapped
    request, Reserve on an empty vector returns normally: the vector has
    the capacity asked for over a block with room for the wrapped byte
    count only, and when that is less, the class invariant is lost. *)
Theorem Reserve_trusts_a_wrapped_byte_count w this n :
  rep w this None [] 0 → 0 < n → slots_of (byte_count n) ≤ avail w →
  ∃ w',
    Reserve this n w = (Ok tt, w')
    ∧ vecs w' !! this
      = Some (mkVector (mkRawMemory (Some (fresh_addr w)) n) 0)
    ∧ heap w' !! fresh_addr w
      = Some (replicate (slots_of (byte_count n)) None)
    ∧ (slots_of (byte_count n) < n → invariant w' this = false).
Proof.
  intros (Hv & _ & _) Hn Hav. cbn [length] in Hv.
  eexists. split.
  { unfold Reserve.
    step_by ltac:(by apply this_ok).
    rewrite decide_False by lia.
    erewrite with_RawMemory_ok; [ | by apply RawMemory_ctor_granted | | ].
    - reflexivity.
    - cbv beta. wsimpl.
      step_by ltac:(eapply Vector_begin_ok; hlookup).
      step_by ltac:(eapply Vector_end_ok; [hlookup | done]).
      step_by ltac:(by apply OverwriteData_nil).
      cbn [destroy_n].
      step_by ltac:(apply ret_Ok).
      cbn [RawMemory_Swap buffer_ capacity_].
      step_by ltac:(reflexivity).
      reflexivity.
    - apply RawMemory_dtor_null. }
  wnorm. split; [by hlookup |]. split; [by hlookup |].
  intros Hlt. unfold invariant. wnorm. rewrite !lookup_insert_eq. wsimpl.
  rewrite lookup_insert_eq, length_replicate.
  rewrite (bool_decide_eq_false_2 (slots_of (byte_count n) = n)) by lia.
  apply andb_false_r.
Qed.

End AdvancedVector.

#[global] Existing Instance M_ret.
#[global] Existing Instance M_bind.

Arguments mkWorld {T}.
Arguments heap {T}.
Arguments fresh_addr {T}.
Arguments avail {T}.
Arguments vecs {T}.
Arguments fuse {T}.
Arguments trace {T}.
Arguments At {T}.
Arguments Outside {T}.
Arguments CopyOf {T}.
Arguments MoveOf {T}.
Arguments Build {T}.
Arguments rep {T}.
Arguments wf {T T_size}.
Arguments addressable {T T_size}.
Arguments calm {T}.
Arguments invariant {T}.
Arguments contents {T}.
Arguments rolled_back {T}.
Arguments constructs {T T_size}.
Arguments copies_nothing {T}.

(** * The operations on concrete elements *)

Module Examples.

(** Elements are numbers of 8 bytes; a moved-from element reads 0, and so
    does a value-initialised one. *)
#[global] Instance nat_size : SizeOf nat := 8%positive.

Definition emptied (x : nat) : nat := 0.

(** An element type whose special members are all [noexcept]. *)
Definition nothrow (k : special) : bool := false.

(** A copyable element type whose copy and move constructors may throw:
    the transfers of the container copy. *)
Definition throwing_ctor (k : special) : bool :=
  match k with
  | CopyCtor | MoveCtor => true
  | _ => false
  end.

(** An element type with a [noexcept] move constructor whose assignments
    may throw. *)
Definition throwing_assign (k : special) : bool :=
  match k with
  | CopyAssign | MoveAssign => true
  | _ => false
  end.

(** One default-constructed vector at address 0 and 100 elements of memory. *)
Definition start (f : option nat) : World nat :=
  mkWorld ∅ 0 100 {[0 := Vector_default]} f [].

(** The vector at address 0 holds [1; 2; 3] in a buffer of capacity 4, and
    an empty vector sits at address 1. *)
Definition three (f : option nat) : World nat :=
  mkWorld {[7 := [Some 1; Some 2; Some 3; None]]} 8 10
    {[0 := mkVector (mkRawMemory (Some 7) 4) 3; 1 := Vector_default]} f [].

(** The vector at address 0 holds [7] in a full buffer, the vector at
    address 1 holds [4; 5; 6; 8; 9] in a full buffer, and the provider has
    [mem] elements left. *)
Definition full (f : option nat) (mem : nat) : World nat :=
  mkWorld {[2 := [Some 7]; 3 := [Some 4; Some 5; Some 6; Some 8; Some 9]]} 4 mem
    {[0 := mkVector (mkRawMemory (Some 2) 1) 1;
      1 := mkVector (mkRawMemory (Some 3) 5) 5]} f [].

Lemma wf_start f : wf (start f).
Proof. split; [| reflexivity]. intros a _. apply lookup_empty. Qed.

Lemma wf_three f : wf (three f).
Proof.
  split; [| reflexivity].
  intros a Ha. cbn in *. apply lookup_singleton_ne. lia.
Qed.

Lemma wf_full f mem : addressable mem → wf (full f mem).
Proof.
  intros Hmem. split; [| exact Hmem].
  intros a Ha. cbn in *.
  rewrite lookup_insert_ne by lia. apply lookup_singleton_ne. lia.
Qed.

Lemma rep_start f : rep (start f) 0 None [] 0.
Proof. by vm_compute. Qed.

Lemma rep_three f : rep (three f) 0 (Some 7) [1; 2; 3] 4.
Proof. split; [by vm_compute | split; [cbn; lia | by vm_compute]]. Qed.

Lemma rep_three_other f : rep (three f) 1 None [] 0.
Proof. by vm_compute. Qed.

Lemma rep_full f mem : rep (full f mem) 0 (Some 2) [7] 1.
Proof. split; [by vm_compute | split; [cbn; lia | by vm_compute]]. Qed.

Lemma rep_full_other f mem :
  rep (full f mem) 1 (Some 3) [4; 5; 6; 8; 9] 5.
Proof. split; [by vm_compute | split; [cbn; lia | by vm_compute]]. Qed.

Lemma calm_None {T} may_throw (w : World T) : fuse w = None → calm may_throw w.
Proof. by left. Qed.

(** ** Allocation failure (C4) *)

Lemma allocation_failure_witness :
  rep (full None 1) 0 (Some 2) [7] 1
  ∧ Reserve nat emptied nothrow true 0 50 (full None 1)
    = (Throw AllocationError, full None 1)
  ∧ Resize nat 0 emptied nothrow true 0 50 (full None 1)
    = (Throw AllocationError, full None 1)
  ∧ Insert nat emptied nothrow true 0 (Ptr (Some 2) 0) (Outside 9) (full None 1)
    = (Throw AllocationError, full None 1).
Proof.
  destruct (allocation_failure_changes_nothing nat 0 emptied nothrow true
              (full None 1) 0 (Some 2) [7] 1 (rep_full None 1))
    as (HReserve & HResize & HEmplace & _).
  split; [apply rep_full |].
  split; [apply HReserve; [lia | vm_compute; lia] |].
  split; [apply HResize; [lia | vm_compute; lia] |].
  apply HEmplace; [reflexivity | cbn; lia | vm_compute; lia].
Defined.

(** ** Moves (C2) *)

Lemma move_transfers_the_buffer_witness :
  rep (full None 20) 1 (Some 3) [4; 5; 6; 8; 9] 5 ∧ 1 ≠ 0
  ∧ (∃ w', new_Vector nat 0 (Vector_move nat 1) (full None 20) = (Ok tt, w')
           ∧ rep w' 0 (Some 3) [4; 5; 6; 8; 9] 5 ∧ rep w' 1 None [] 0
           ∧ heap w' = heap (full None 20) ∧ trace w' = [])
  ∧ (∃ w', Vector_move_assign nat 0 1 (full None 20) = (Ok tt, w')
           ∧ rep w' 0 (Some 3) [4; 5; 6; 8; 9] 5 ∧ rep w' 1 (Some 2) [7] 1
           ∧ heap w' = heap (full None 20) ∧ trace w' = []).
Proof.
  assert (Hne : 1 ≠ 0) by lia.
  destruct (move_transfers_the_buffer nat (full None 20) 1 0 (Some 3)
              [4; 5; 6; 8; 9] 5 (rep_full_other None 20) Hne)
    as (Hctor & Hassign).
  split; [apply rep_full_other |]. split; [exact Hne |].
  split; [exact Hctor |].
  exact (Hassign (Some 2) [7] 1 (rep_full None 20)).
Defined.

(** The claim as the specification states it fails for move assignment:
    after [B = std::move(A)] with B holding [7], the source A is not empty,
    it holds B's old buffer with length 1 and capacity 1. *)
Lemma move_assignment_leaves_source_nonempty :
  let w' := (Vector_move_assign nat 0 1 (full None 20)).2 in
  vecs w' !! 1 = Some (mkVector (mkRawMemory (Some 2) 1) 1)
  ∧ contents w' 1 = Some [7]
  ∧ ¬ rep w' 1 None [] 0.
Proof.
  split; [by vm_compute | split; [by vm_compute |]].
  intros (Hv & _). vm_compute in Hv. discriminate Hv.
Qed.

(** ** Sequences of PushBack (C5) *)

Lemma PushBack_sequence_witness :
  calm nothrow (start None) ∧ wf (start None) ∧ rep (start None) 0 None [] 0
  ∧ 3 * (0 + 3) ≤ 100 + 0
  ∧ ∃ buf' cap' caps w',
      PushBack_all nat emptied nothrow true 0
        [(false, 1); (true, 2); (false, 3)] (start None) = (Ok caps, w')
      ∧ rep w' 0 buf' [1; 2; 3] cap'
      ∧ length caps = 3
      ∧ nondecreasing 0 caps ∧ last (0 :: caps) = Some cap'.
Proof.
  assert (Hc : calm nothrow (start None)) by (by apply calm_None).
  assert (Hm : 3 * (0 + 3) ≤ 100 + 0) by lia.
  split; [exact Hc |]. split; [apply wf_start |].
  split; [apply rep_start |]. split; [exact Hm |].
  exact (PushBack_sequence_appends nat emptied nothrow true
           [(false, 1); (true, 2); (false, 3)] (start None) 0 None [] 0
           Hc (wf_start None) (rep_start None) Hm).
Defined.

(** The run of the specification: three pushes, an insertion at index 1,
    an erasure at index 0 and a PopBack. *)
Lemma scenario_push_insert_erase_pop :
  let w1 := (PushBack_all nat emptied nothrow true 0
               [(false, 1); (false, 2); (false, 3)] (start None)).2 in
  let w2 := (Insert nat emptied nothrow true 0 (Ptr (Some 2) 1) (Outside 9) w1).2 in
  let w3 := (Erase nat emptied nothrow true 0 (Ptr (Some 2) 0) w2).2 in
  let w4 := (PopBack nat 0 w3).2 in
  contents w1 0 = Some [1; 2; 3] ∧ contents w2 0 = Some [1; 9; 2; 3]
  ∧ contents w3 0 = Some [9; 2; 3] ∧ contents w4 0 = Some [9; 2].
Proof. by vm_compute. Qed.

(** ** Resize (C6) *)

Lemma Resize_witness :
  calm nothrow (three None) ∧ wf (three None)
  ∧ rep (three None) 0 (Some 7) [1; 2; 3] 4 ∧ (4 < 5 → 5 ≤ 10)
  ∧ ∃ buf' cap' ys w',
      Resize nat 0 emptied nothrow true 0 5 (three None) = (Ok tt, w')
      ∧ rep w' 0 buf' ys cap'
      ∧ length ys = 5
      ∧ (∀ i, i < 5 → i < 3 → ys !! i = [1; 2; 3] !! i)
      ∧ (∀ i, 3 ≤ i → i < 5 → ys !! i = Some 0).
Proof.
  assert (Hc : calm nothrow (three None)) by (by apply calm_None).
  assert (Hm : 4 < 5 → 5 ≤ 10) by lia.
  split; [exact Hc |]. split; [apply wf_three |].
  split; [apply rep_three |]. split; [exact Hm |].
  exact (Resize_keeps_prefix_and_fills nat 0 emptied nothrow true (three None)
           0 (Some 7) [1; 2; 3] 4 5 Hc (wf_three None) (rep_three None) Hm).
Defined.

Lemma scenario_resize :
  let w1 := (Resize nat 0 emptied nothrow true 0 5 (three None)).2 in
  let w2 := (Resize nat 0 emptied nothrow true 0 1 w1).2 in
  contents w1 0 = Some [1; 2; 3; 0; 0] ∧ contents w2 0 = Some [1].
Proof. by vm_compute. Qed.

(** ** Insert and Erase (C7, C10) *)

Lemma Insert_Erase_round_trip_witness :
  calm nothrow (three None) ∧ wf (three None)
  ∧ rep (three None) 0 (Some 7) [1; 2; 3] 4
  ∧ (∃ buf' cap' w',
       (it ← Insert nat emptied nothrow true 0 (Ptr (Some 7) 1) (Outside 9);
        Erase nat emptied nothrow true 0 it) (three None)
       = (Ok (Ptr buf' 1), w')
       ∧ rep w' 0 buf' [1; 2; 3] cap')
  ∧ (∃ w',
       (it ← Erase nat emptied nothrow true 0 (Ptr (Some 7) 1);
        Insert nat emptied nothrow true 0 it (Outside 2)) (three None)
       = (Ok (Ptr (Some 7) 1), w')
       ∧ rep w' 0 (Some 7) [1; 2; 3] 4).
Proof.
  assert (Hc : calm nothrow (three None)) by (by apply calm_None).
  destruct (Insert_Erase_round_trip nat emptied nothrow true (three None)
              0 (Some 7) [1; 2; 3] 4 1 Hc (wf_three None) (rep_three None))
    as (Hie & Hei).
  split; [exact Hc |]. split; [apply wf_three |]. split; [apply rep_three |].
  split.
  - apply (Hie (Outside 9) 9); [cbn; lia | reflexivity | cbn; lia].
  - apply (Hei 2). reflexivity.
Defined.

Lemma Insert_own_element_witness :
  calm nothrow (three None) ∧ wf (three None)
  ∧ rep (three None) 0 (Some 7) [1; 2; 3] 4
  ∧ 3 < 4 ∧ 1 ≤ 3 ∧ [1; 2; 3] !! 2 = Some 3
  ∧ ∃ w',
      Insert nat emptied nothrow true 0 (Ptr (Some 7) 1)
        (At (Ptr (Some 7) 2)) (three None)
      = (Ok (Ptr (Some 7) 1), w')
      ∧ rep w' 0 (Some 7) [1; 3; 2; 3] 4.
Proof.
  assert (Hc : calm nothrow (three None)) by (by apply calm_None).
  assert (Hroom : 3 < 4) by lia.
  assert (Hp : 1 ≤ 3) by lia.
  assert (Hk : [1; 2; 3] !! 2 = Some 3) by reflexivity.
  split; [exact Hc |]. split; [apply wf_three |]. split; [apply rep_three |].
  split; [exact Hroom |]. split; [exact Hp |]. split; [exact Hk |].
  exact (Insert_own_element_no_growth nat emptied nothrow true (three None)
           0 7 [1; 2; 3] 4 1 2 3 Hc (wf_three None) (rep_three None)
           Hroom Hp Hk).
Defined.

End Examples.

Module Failures.
Import Examples.

(** ** A copy that raises during a transfer (C1) *)

(** Copy construction and Reserve unwind: with the third copy raising,
    copying the five-element vector (and reserving a larger buffer for it)
    destroys the two copies already made, and the state is as before but
    for the trace. *)
Lemma copy_failure_unwound_by_copy_construction_and_Reserve :
  Vector_copy nat emptied throwing_ctor 1 (full (Some 2) 20)
  = (Throw ElementError,
     mkWorld (heap (full None 20)) 5 20 (vecs (full None 20)) None
       [CopyCtor; CopyCtor; Dtor; Dtor])
  ∧ Reserve nat emptied throwing_ctor true 1 9 (full (Some 2) 20)
    = (Throw ElementError,
       mkWorld (heap (full None 20)) 5 20 (vecs (full None 20)) None
         [CopyCtor; CopyCtor; Dtor; Dtor])
  ∧ alive [CopyCtor; CopyCtor; Dtor; Dtor] = 0%Z.
Proof. by vm_compute. Qed.

(** C1, at the inputs where the code departs from it.  For a copyable
    element whose move may throw, Resize(3) on the one-element full vector
    value-constructs two elements in the new buffer and then the copy of the
    old element raises: the exception leaves Resize with the vector and the
    source untouched, but the two elements built before the transfer are
    never destroyed (two constructions, no destruction, and their block is
    released).  An insertion at index 2 into the full five-element vector
    whose first transfer succeeds and whose second raises leaves the new
    element and the two copied prefix elements undestroyed as well. *)
Theorem copy_failure_leaks_elements_built_before_transfer :
  Resize nat 0 emptied throwing_ctor true 0 3 (full (Some 0) 20)
  = (Throw ElementError,
     mkWorld (heap (full None 20)) 5 20 (vecs (full None 20)) None
       [DefaultCtor; DefaultCtor])
  ∧ alive [DefaultCtor; DefaultCtor] = 2%Z
  ∧ Insert nat emptied throwing_ctor true 1 (Ptr (Some 3) 2) (Outside 9)
      (full (Some 3) 20)
    = (Throw ElementError,
       mkWorld (heap (full None 20)) 5 20 (vecs (full None 20)) None
         [CopyCtor; CopyCtor; CopyCtor])
  ∧ alive [CopyCtor; CopyCtor; CopyCtor] = 3%Z.
Proof. by vm_compute. Qed.

(** ** The shift of a mid-array insertion (C3) *)

(** C3, at an input where the code departs from it.  For a copyable element
    whose move may throw (the transfers copy), inserting 9 at the front of
    [1; 2; 3] with room in the buffer copy-constructs the temporary and the
    end slot, and then shifts by move assignment: the code calls
    std::move_backward whatever the traits of T, where the steps of the
    specification shift by copy assignment.  Both leave [9; 1; 2; 3]. *)
Theorem mid_insert_shifts_by_move_assignment :
  use_move throwing_ctor true = false
  ∧ trace (Insert nat emptied throwing_ctor true 0 (Ptr (Some 7) 0) (Outside 9)
             (three None)).2
    = [CopyCtor; CopyCtor; MoveAssign; MoveAssign; MoveAssign; Dtor]
  ∧ trace (insert_in_place_as_specified nat emptied throwing_ctor true 0
             (Ptr (Some 7) 0) (CopyOf (Outside 9)) (three None)).2
    = [CopyCtor; CopyCtor; CopyAssign; CopyAssign; MoveAssign; Dtor]
  ∧ heap (Insert nat emptied throwing_ctor true 0 (Ptr (Some 7) 0) (Outside 9)
            (three None)).2
    = {[7 := [Some 9; Some 1; Some 2; Some 3]]}.
Proof. by vm_compute. Qed.

(** ** An assignment that raises during a mid-array insertion (C8) *)

(** C8, at a reachable state where the invariant is lost.  Three PushBack
    calls on the empty vector give [1; 2; 3] with capacity 4, and the
    invariant holds.  Inserting at the front then constructs a copy of the
    last element in slot 3 and starts the shift; when the first assignment
    raises, Insert is left by the exception with the length still 3 and a
    live object in slot 3: the slots from the length up to the capacity are
    not all uninitialised. *)
Theorem failed_assignment_in_Insert_breaks_invariant :
  let w3 := (PushBack_all nat emptied throwing_assign true 0
               [(false, 1); (false, 2); (false, 3)] (start (Some 0))).2 in
  let r := Insert nat emptied throwing_assign true 0 (Ptr (Some 2) 0)
             (Outside 9) w3 in
  invariant w3 0 = true
  ∧ vecs w3 !! 0 = Some (mkVector (mkRawMemory (Some 2) 4) 3)
  ∧ heap w3 !! 2 = Some [Some 1; Some 2; Some 3; None]
  ∧ r.1 = Throw ElementError
  ∧ vecs r.2 !! 0 = Some (mkVector (mkRawMemory (Some 2) 4) 3)
  ∧ heap r.2 !! 2 = Some [Some 1; Some 2; Some 0; Some 3]
  ∧ invariant r.2 0 = false.
Proof. by vm_compute. Qed.

End Failures.


(** * The further properties on concrete vectors *)

Module Coverage.
Import Examples.

(** An element type whose default constructor may throw. *)
Definition throwing_default (k : special) : bool :=
  match k with
  | DefaultCtor => true
  | _ => false
  end.

Lemma calm_three : calm nothrow (three None).
Proof. by apply calm_None. Qed.

Lemma calm_full mem : calm nothrow (full None mem).
Proof. by apply calm_None. Qed.

Lemma contract_violations_witness :
  rep (three None) 0 (Some 7) [1; 2; 3] 4
  ∧ Emplace nat emptied nothrow true 0 (Ptr (Some 7) 5) (Build 9) (three None)
    = (Abort, three None)
  ∧ Erase nat emptied nothrow true 0 (Ptr (Some 7) 3) (three None)
    = (Abort, three None)
  ∧ Vector_index nat 0 3 (three None) = (Abort, three None).
Proof.
  destruct (contract_violations_abort_untouched nat emptied nothrow true
              (three None) 0 (Some 7) [1; 2; 3] 4 (rep_three None))
    as (HEmplace & HErase & Hindex & _).
  split; [apply rep_three |].
  split; [apply HEmplace; cbn; lia |].
  split; [apply HErase; cbn; lia |].
  apply Hindex; cbn; lia.
Defined.

Lemma element_access_witness :
  rep (three None) 0 (Some 7) [1; 2; 3] 4
  ∧ (p ← Vector_index nat 0 1; load nat p) (three None) = (Ok 2, three None)
  ∧ (p ← Front nat 0; load nat p) (three None) = (Ok 1, three None)
  ∧ (p ← Back nat 0; load nat p) (three None) = (Ok 3, three None).
Proof.
  destruct (element_access_reads_the_elements nat (three None) 0 (Some 7)
              [1; 2; 3] 4 (rep_three None)) as (Hindex & HFront & HBack).
  split; [apply rep_three |].
  split; [apply Hindex; reflexivity |].
  split; [apply HFront; reflexivity |].
  apply HBack; reflexivity.
Defined.

Lemma destructor_witness :
  rep (three None) 0 (Some 7) [1; 2; 3] 4
  ∧ delete_Vector nat 0 (three None)
    = (Ok tt, mkWorld (delete 7 (heap (three None))) 8 (10 + 4)
                (delete 0 (vecs (three None))) None [Dtor; Dtor; Dtor])
  ∧ alive [Dtor; Dtor; Dtor] = (-3)%Z.
Proof.
  split; [apply rep_three |].
  exact (destructor_destroys_and_releases nat (three None) 0 (Some 7)
           [1; 2; 3] 4 (rep_three None)).
Defined.

Lemma destroying_a_moved_from_vector_witness :
  rep (full None 20) 1 (Some 3) [4; 5; 6; 8; 9] 5 ∧ 1 ≠ 5
  ∧ ∃ w',
      (new_Vector nat 5 (Vector_move nat 1);; delete_Vector nat 1) (full None 20)
      = (Ok tt, w')
      ∧ rep w' 5 (Some 3) [4; 5; 6; 8; 9] 5 ∧ vecs w' !! 1 = None
      ∧ heap w' = heap (full None 20) ∧ avail w' = 20 ∧ trace w' = [].
Proof.
  assert (Hne : 1 ≠ 5) by lia.
  split; [apply rep_full_other |]. split; [exact Hne |].
  exact (destroying_a_moved_from_vector_is_free nat (full None 20) 1 5 (Some 3)
           [4; 5; 6; 8; 9] 5 (rep_full_other None 20) Hne).
Defined.

Lemma RawMemory_witness :
  wf (three None) ∧ 3 ≤ avail (three None)
  ∧ ∃ m w1 w2,
      RawMemory_ctor nat 3 (three None) = (Ok m, w1)
      ∧ capacity_ m = 3
      ∧ (buffer_ m = None ↔ 3 = 0)
      ∧ (∀ a, buffer_ m = Some a →
           heap (three None) !! a = None
           ∧ heap w1 !! a = Some (replicate 3 None))
      ∧ avail w1 + 3 = avail (three None)
      ∧ RawMemory_dtor nat m w1 = (Ok tt, w2)
      ∧ heap w2 = heap (three None) ∧ avail w2 = avail (three None).
Proof.
  assert (Hav : 3 ≤ avail (three None)) by (cbn; lia).
  split; [apply wf_three |]. split; [exact Hav |].
  exact (RawMemory_takes_and_returns_its_block nat (three None) 3
           (wf_three None) Hav).
Defined.

Lemma Vector_sized_witness :
  calm nothrow (three None) ∧ wf (three None) ∧ 3 ≤ avail (three None)
  ∧ constructs (three None) 2 (Vector_sized nat 0 nothrow 3) [0; 0; 0]
      DefaultCtor.
Proof.
  assert (Hav : 3 ≤ avail (three None)) by (cbn; lia).
  split; [apply calm_three |]. split; [apply wf_three |].
  split; [exact Hav |].
  exact (Vector_sized_builds_defaults nat 0 nothrow (three None) 2 3
           calm_three (wf_three None) Hav).
Defined.

Lemma Vector_filled_witness :
  calm nothrow (three None) ∧ wf (three None) ∧ 3 ≤ avail (three None)
  ∧ arg_value nat (three None) (CopyOf (At (Ptr (Some 7) 1))) = Some 2
  ∧ constructs (three None) 2
      (Vector_filled nat emptied nothrow 3 (At (Ptr (Some 7) 1))) [2; 2; 2]
      CopyCtor.
Proof.
  assert (Hav : 3 ≤ avail (three None)) by (cbn; lia).
  assert (Hval : arg_value nat (three None) (CopyOf (At (Ptr (Some 7) 1)))
                 = Some 2) by reflexivity.
  split; [apply calm_three |]. split; [apply wf_three |].
  split; [exact Hav |]. split; [exact Hval |].
  exact (Vector_filled_builds_copies nat emptied nothrow (three None) 2 3
           (At (Ptr (Some 7) 1)) 2 calm_three (wf_three None) Hav Hval).
Defined.

Lemma Vector_of_list_witness :
  calm nothrow (three None) ∧ wf (three None)
  ∧ length [5; 6] ≤ avail (three None)
  ∧ constructs (three None) 2 (Vector_of_list nat emptied nothrow [5; 6])
      [5; 6] CopyCtor.
Proof.
  assert (Hav : length [5; 6] ≤ avail (three None)) by (cbn; lia).
  split; [apply calm_three |]. split; [apply wf_three |].
  split; [exact Hav |].
  exact (Vector_of_list_builds_the_values nat 0 emptied nothrow (three None) 2
           [5; 6] calm_three (wf_three None) Hav).
Defined.

Lemma Vector_of_range_witness :
  calm nothrow (three None) ∧ wf (three None)
  ∧ length [2; 3] ≤ avail (three None)
  ∧ heap (three None) !! 7 = Some ([Some 1] ++ (Some <$> [2; 3]) ++ [None])
  ∧ constructs (three None) 2
      (Vector_of_range nat emptied nothrow (Ptr (Some 7) 1) (Ptr (Some 7) 3))
      [2; 3] CopyCtor.
Proof.
  assert (Hav : length [2; 3] ≤ avail (three None)) by (cbn; lia).
  assert (Hblk : heap (three None) !! 7
                 = Some ([Some 1] ++ (Some <$> [2; 3]) ++ [None]))
    by reflexivity.
  split; [apply calm_three |]. split; [apply wf_three |].
  split; [exact Hav |]. split; [exact Hblk |].
  exact (Vector_of_range_builds_the_range nat emptied nothrow (three None) 2 7
           [Some 1] [2; 3] [None] 1 3 calm_three (wf_three None) Hav Hblk
           eq_refl eq_refl).
Defined.

Lemma copy_constructor_witness :
  calm nothrow (three None) ∧ wf (three None)
  ∧ rep (three None) 0 (Some 7) [1; 2; 3] 4 ∧ 0 ≠ 2
  ∧ length [1; 2; 3] ≤ avail (three None)
  ∧ ∃ bufB w',
      new_Vector nat 2 (Vector_copy nat emptied nothrow 0) (three None)
      = (Ok tt, w')
      ∧ rep w' 2 bufB [1; 2; 3] (length [1; 2; 3])
      ∧ rep w' 0 (Some 7) [1; 2; 3] 4
      ∧ ([1; 2; 3] ≠ [] → bufB ≠ Some 7)
      ∧ avail w' + length [1; 2; 3] = avail (three None)
      ∧ trace w' = trace (three None) ++ replicate (length [1; 2; 3]) CopyCtor
      ∧ calm nothrow w' ∧ wf w'.
Proof.
  assert (Hne : 0 ≠ 2) by lia.
  assert (Hav : length [1; 2; 3] ≤ avail (three None)) by (cbn; lia).
  split; [apply calm_three |]. split; [apply wf_three |].
  split; [apply rep_three |]. split; [exact Hne |]. split; [exact Hav |].
  exact (copy_constructor_builds_an_independent_copy nat emptied nothrow
           (three None) 0 2 (Some 7) [1; 2; 3] 4 calm_three (wf_three None)
           (rep_three None) Hne Hav).
Defined.

Lemma copy_assignment_witness :
  calm nothrow (full None 20) ∧ wf (full None 20)
  ∧ rep (full None 20) 0 (Some 2) [7] 1
  ∧ rep (full None 20) 1 (Some 3) [4; 5; 6; 8; 9] 5 ∧ 0 ≠ 1
  ∧ ∃ bufA' capA' w',
      Vector_copy_assign nat emptied nothrow 0 1 (full None 20) = (Ok tt, w')
      ∧ rep w' 0 bufA' [4; 5; 6; 8; 9] capA'
      ∧ rep w' 1 (Some 3) [4; 5; 6; 8; 9] 5
      ∧ (length [4; 5; 6; 8; 9] ≤ 1 →
           bufA' = Some 2 ∧ capA' = 1 ∧ avail w' = avail (full None 20))
      ∧ (1 < length [4; 5; 6; 8; 9] →
           capA' = length [4; 5; 6; 8; 9]
           ∧ avail w' + length [4; 5; 6; 8; 9] = avail (full None 20) + 1)
      ∧ alive (trace w')
        = (alive (trace (full None 20)) + Z.of_nat (length [4; 5; 6; 8; 9])
           - Z.of_nat (length [7]))%Z
      ∧ calm nothrow w' ∧ wf w'.
Proof.
  assert (Hne : 0 ≠ 1) by lia.
  assert (Hbuf : ∀ a, Some 2 = Some a → Some 3 ≠ Some a) by (intros; congruence).
  assert (Hmem : 1 < length [4; 5; 6; 8; 9]
                 → length [4; 5; 6; 8; 9] ≤ avail (full None 20))
    by (cbn; lia).
  split; [apply calm_full |]. split; [apply wf_full; reflexivity |].
  split; [apply rep_full |]. split; [apply rep_full_other |].
  split; [exact Hne |].
  exact (copy_assignment_copies_the_source nat emptied nothrow (full None 20)
           0 1 (Some 2) [7] 1 (Some 3) [4; 5; 6; 8; 9] 5 (calm_full 20)
           (wf_full None 20 eq_refl) (rep_full None 20) (rep_full_other None 20)
           Hne Hbuf Hmem).
Defined.

Lemma failed_copy_construction_witness :
  wf (three (Some 1)) ∧ rep (three (Some 1)) 0 (Some 7) [1; 2; 3] 4
  ∧ throwing_ctor CopyCtor = true ∧ fuse (three (Some 1)) = Some 1
  ∧ 1 < length [1; 2; 3] ∧ length [1; 2; 3] ≤ avail (three (Some 1))
  ∧ ∃ w',
      new_Vector nat 2 (Vector_copy nat emptied throwing_ctor 0)
        (three (Some 1))
      = (Throw ElementError, w')
      ∧ rolled_back (three (Some 1)) w'.
Proof.
  assert (Hj : 1 < length [1; 2; 3]) by (cbn; lia).
  assert (Hav : length [1; 2; 3] ≤ avail (three (Some 1))) by (cbn; lia).
  split; [apply wf_three |]. split; [apply rep_three |].
  split; [reflexivity |]. split; [reflexivity |].
  split; [exact Hj |]. split; [exact Hav |].
  exact (failed_copy_construction_is_rolled_back nat emptied throwing_ctor
           (three (Some 1)) 0 2 7 [1; 2; 3] 4 1 (wf_three (Some 1))
           (rep_three (Some 1)) eq_refl eq_refl Hj Hav).
Defined.

Lemma failed_Reserve_witness :
  wf (three (Some 1)) ∧ rep (three (Some 1)) 0 (Some 7) [1; 2; 3] 4
  ∧ use_move throwing_ctor true = false
  ∧ throwing_ctor CopyCtor = true ∧ fuse (three (Some 1)) = Some 1
  ∧ 1 < length [1; 2; 3] ∧ 4 < 8 ∧ 8 ≤ avail (three (Some 1))
  ∧ ∃ w',
      Reserve nat emptied throwing_ctor true 0 8 (three (Some 1))
      = (Throw ElementError, w')
      ∧ rolled_back (three (Some 1)) w'.
Proof.
  assert (Hj : 1 < length [1; 2; 3]) by (cbn; lia).
  assert (Hn : 4 < 8) by lia.
  assert (Hav : 8 ≤ avail (three (Some 1))) by (cbn; lia).
  split; [apply wf_three |]. split; [apply rep_three |].
  split; [reflexivity |]. split; [reflexivity |]. split; [reflexivity |].
  split; [exact Hj |]. split; [exact Hn |]. split; [exact Hav |].
  exact (failed_Reserve_is_rolled_back nat emptied throwing_ctor true
           (three (Some 1)) 0 7 [1; 2; 3] 4 8 1 (wf_three (Some 1))
           (rep_three (Some 1)) eq_refl eq_refl eq_refl Hj Hn Hav).
Defined.

Lemma failed_copy_assignment_witness :
  wf (full (Some 2) 20) ∧ rep (full (Some 2) 20) 0 (Some 2) [7] 1
  ∧ rep (full (Some 2) 20) 1 (Some 3) [4; 5; 6; 8; 9] 5 ∧ 0 ≠ 1
  ∧ 1 < length [4; 5; 6; 8; 9]
  ∧ throwing_ctor CopyCtor = true ∧ fuse (full (Some 2) 20) = Some 2
  ∧ 2 < length [4; 5; 6; 8; 9]
  ∧ length [4; 5; 6; 8; 9] ≤ avail (full (Some 2) 20)
  ∧ ∃ w',
      Vector_copy_assign nat emptied throwing_ctor 0 1 (full (Some 2) 20)
      = (Throw ElementError, w')
      ∧ rolled_back (full (Some 2) 20) w'.
Proof.
  assert (Hne : 0 ≠ 1) by lia.
  assert (Hcap : 1 < length [4; 5; 6; 8; 9]) by (cbn; lia).
  assert (Hj : 2 < length [4; 5; 6; 8; 9]) by (cbn; lia).
  assert (Hav : length [4; 5; 6; 8; 9] ≤ avail (full (Some 2) 20))
    by (cbn; lia).
  split; [apply wf_full; reflexivity |]. split; [apply rep_full |].
  split; [apply rep_full_other |]. split; [exact Hne |].
  split; [exact Hcap |]. split; [reflexivity |]. split; [reflexivity |].
  split; [exact Hj |]. split; [exact Hav |].
  exact (failed_copy_assignment_is_rolled_back nat emptied throwing_ctor
           (full (Some 2) 20) 0 1 (Some 2) [7] 1 3 [4; 5; 6; 8; 9] 5 2
           (wf_full (Some 2) 20 eq_refl) (rep_full (Some 2) 20)
           (rep_full_other (Some 2) 20) Hne Hcap eq_refl eq_refl Hj Hav).
Defined.

Lemma failed_element_construction_witness :
  wf (full (Some 0) 20) ∧ rep (full (Some 0) 20) 0 (Some 2) [7] 1
  ∧ 0 ≤ length [7]
  ∧ throwing_ctor (arg_kind nat (CopyOf (Outside 9))) = true
  ∧ fuse (full (Some 0) 20) = Some 0
  ∧ readable nat (full (Some 0) 20) (CopyOf (Outside 9))
  ∧ ∃ w',
      Emplace nat emptied throwing_ctor true 0 (Ptr (Some 2) 0)
        (CopyOf (Outside 9)) (full (Some 0) 20)
      = (Throw ElementError, w')
      ∧ rolled_back (full (Some 0) 20) w'
      ∧ trace w' = trace (full (Some 0) 20).
Proof.
  assert (Hp : 0 ≤ length [7]) by (cbn; lia).
  assert (Hmem : length [7] = 1 → next_capacity 1 ≤ avail (full (Some 0) 20))
    by (intros _; vm_compute; lia).
  split; [apply wf_full; reflexivity |]. split; [apply rep_full |].
  split; [exact Hp |]. split; [reflexivity |]. split; [reflexivity |].
  split; [exact I |].
  exact (failed_element_construction_in_Emplace_is_rolled_back nat emptied
           throwing_ctor true (full (Some 0) 20) 0 (Some 2) [7] 1 0
           (CopyOf (Outside 9)) (wf_full (Some 0) 20 eq_refl) (rep_full (Some 0) 20)
           Hp eq_refl eq_refl I Hmem).
Defined.

Lemma Emplace_position_witness :
  calm nothrow (three None) ∧ wf (three None)
  ∧ rep (three None) 0 (Some 7) [1; 2; 3] 4 ∧ 1 ≤ length [1; 2; 3]
  ∧ arg_value nat (three None) (Build 9) = Some 9
  ∧ ∃ it buf' cap' w',
      Emplace nat emptied nothrow true 0 (Ptr (Some 7) 1) (Build 9) (three None)
      = (Ok it, w')
      ∧ rep w' 0 buf' [1; 9; 2; 3] cap'
      ∧ it = Ptr buf' 1
      ∧ slot nat w' it = Some 9
      ∧ (length [1; 2; 3] < 4 →
           buf' = Some 7 ∧ cap' = 4 ∧ avail w' = avail (three None))
      ∧ (length [1; 2; 3] = 4 →
           cap' = (if decide (4 = 0) then 1 else 4 * 2)
           ∧ avail w' + cap' = avail (three None) + 4).
Proof.
  assert (Hp : 1 ≤ length [1; 2; 3]) by (cbn; lia).
  assert (Hmem : length [1; 2; 3] = 4 → next_capacity 4 ≤ avail (three None))
    by (cbn; lia).
  split; [apply calm_three |]. split; [apply wf_three |].
  split; [apply rep_three |]. split; [exact Hp |]. split; [reflexivity |].
  exact (Emplace_inserts_at_the_position nat emptied nothrow true (three None)
           0 (Some 7) [1; 2; 3] 4 1 (Build 9) 9 calm_three (wf_three None)
           (rep_three None) Hp eq_refl Hmem).
Defined.

Lemma Emplace_calls_witness :
  calm nothrow (three None) ∧ wf (three None)
  ∧ rep (three None) 0 (Some 7) [1; 2; 3] 4 ∧ 1 ≤ length [1; 2; 3]
  ∧ arg_value nat (three None) (Build 9) = Some 9
  ∧ ∃ it w',
      Emplace nat emptied nothrow true 0 (Ptr (Some 7) 1) (Build 9) (three None)
      = (Ok it, w')
      ∧ trace w' = [ArgsCtor; MoveCtor; MoveAssign; MoveAssign; Dtor]
      ∧ alive (trace w') = 1%Z.
Proof.
  assert (Hp : 1 ≤ length [1; 2; 3]) by (cbn; lia).
  assert (Hmem : length [1; 2; 3] = 4 → next_capacity 4 ≤ avail (three None))
    by (cbn; lia).
  split; [apply calm_three |]. split; [apply wf_three |].
  split; [apply rep_three |]. split; [exact Hp |]. split; [reflexivity |].
  exact (Emplace_calls_of_T nat emptied nothrow true (three None)
           0 (Some 7) [1; 2; 3] 4 1 (Build 9) 9 calm_three (wf_three None)
           (rep_three None) Hp eq_refl Hmem).
Defined.

Lemma Erase_position_witness :
  calm nothrow (three None) ∧ wf (three None)
  ∧ rep (three None) 0 (Some 7) [1; 2; 3] 4 ∧ 1 < length [1; 2; 3]
  ∧ ∃ w',
      Erase nat emptied nothrow true 0 (Ptr (Some 7) 1) (three None)
      = (Ok (Ptr (Some 7) 1), w')
      ∧ rep w' 0 (Some 7) [1; 3] 4
      ∧ slot nat w' (Ptr (Some 7) 1) = Some 3
      ∧ avail w' = avail (three None)
      ∧ trace w' = [MoveAssign; Dtor]
      ∧ alive (trace w') = (-1)%Z.
Proof.
  assert (Hp : 1 < length [1; 2; 3]) by (cbn; lia).
  split; [apply calm_three |]. split; [apply wf_three |].
  split; [apply rep_three |]. split; [exact Hp |].
  exact (Erase_removes_at_the_position nat emptied nothrow true (three None)
           0 (Some 7) [1; 2; 3] 4 1 calm_three (wf_three None)
           (rep_three None) Hp).
Defined.

Lemma Reserve_witness :
  calm nothrow (three None) ∧ wf (three None)
  ∧ rep (three None) 0 (Some 7) [1; 2; 3] 4
  ∧ ∃ buf' w',
      Reserve nat emptied nothrow true 0 8 (three None) = (Ok tt, w')
      ∧ rep w' 0 buf' [1; 2; 3] 8
      ∧ (8 ≤ 4 → w' = three None)
      ∧ avail w' + 8 = avail (three None) + 4
      ∧ trace w' = [MoveCtor; MoveCtor; MoveCtor; Dtor; Dtor; Dtor]
      ∧ alive (trace w') = alive (trace (three None)).
Proof.
  assert (Hmem : 4 < 8 → 8 ≤ avail (three None)) by (cbn; lia).
  split; [apply calm_three |]. split; [apply wf_three |].
  split; [apply rep_three |].
  exact (Reserve_keeps_the_elements nat emptied nothrow true (three None)
           0 (Some 7) [1; 2; 3] 4 8 calm_three (wf_three None)
           (rep_three None) Hmem).
Defined.

Lemma Resize_calls_witness :
  calm nothrow (three None) ∧ wf (three None)
  ∧ rep (three None) 0 (Some 7) [1; 2; 3] 4
  ∧ ∃ buf' w',
      Resize nat 0 emptied nothrow true 0 6 (three None) = (Ok tt, w')
      ∧ rep w' 0 buf' [1; 2; 3; 0; 0; 0] 6
      ∧ trace w' = [DefaultCtor; DefaultCtor; DefaultCtor;
                    MoveCtor; MoveCtor; MoveCtor; Dtor; Dtor; Dtor]
      ∧ alive (trace w') = 3%Z.
Proof.
  assert (Hmem : 4 < 6 → 6 ≤ avail (three None)) by (cbn; lia).
  split; [apply calm_three |]. split; [apply wf_three |].
  split; [apply rep_three |].
  exact (Resize_calls_of_T nat 0 emptied nothrow true (three None)
           0 (Some 7) [1; 2; 3] 4 6 calm_three (wf_three None)
           (rep_three None) Hmem).
Defined.

Lemma PopBack_witness :
  wf (three (Some 0)) ∧ rep (three (Some 0)) 0 (Some 7) ([1; 2] ++ [3]) 4
  ∧ ∃ w',
      PopBack nat 0 (three (Some 0)) = (Ok tt, w')
      ∧ rep w' 0 (Some 7) [1; 2] 4
      ∧ trace w' = [Dtor]
      ∧ alive (trace w') = (-1)%Z
      ∧ avail w' = avail (three (Some 0)) ∧ fuse w' = Some 0.
Proof.
  split; [apply wf_three |]. split; [apply rep_three |].
  exact (PopBack_removes_the_last nat (three (Some 0)) 0 (Some 7) [1; 2] 3 4
           (wf_three (Some 0)) (rep_three (Some 0))).
Defined.

Lemma Resize_down_witness :
  rep (three (Some 0)) 0 (Some 7) [1; 2; 3] 4 ∧ 1 ≤ length [1; 2; 3]
  ∧ ∃ w',
      Resize nat 0 emptied throwing_ctor true 0 1 (three (Some 0)) = (Ok tt, w')
      ∧ rep w' 0 (Some 7) [1] 4
      ∧ trace w' = [Dtor; Dtor]
      ∧ avail w' = avail (three (Some 0)) ∧ fuse w' = Some 0.
Proof.
  assert (Hk : 1 ≤ length [1; 2; 3]) by (cbn; lia).
  split; [apply rep_three |]. split; [exact Hk |].
  exact (Resize_down_cannot_fail nat 0 emptied throwing_ctor true
           (three (Some 0)) 0 (Some 7) [1; 2; 3] 4 1 (rep_three (Some 0)) Hk).
Defined.

Lemma movable_elements_witness :
  use_move nothrow true = true ∧ calm nothrow (three None) ∧ wf (three None)
  ∧ rep (three None) 0 (Some 7) [1; 2; 3] 4
  ∧ copies_nothing (three None)
      (Reserve nat emptied nothrow true 0 8 (three None)).2
  ∧ copies_nothing (three None)
      (Resize nat 0 emptied nothrow true 0 6 (three None)).2
  ∧ copies_nothing (three None)
      (Erase nat emptied nothrow true 0 (Ptr (Some 7) 0) (three None)).2
  ∧ copies_nothing (three None)
      (Emplace nat emptied nothrow true 0 (Ptr (Some 7) 0)
         (MoveOf (Outside 9)) (three None)).2.
Proof.
  destruct (movable_elements_are_never_copied nat 0 emptied nothrow true
              (three None) 0 (Some 7) [1; 2; 3] 4 eq_refl calm_three
              (wf_three None) (rep_three None))
    as (HReserve & HResize & HErase & HEmplace).
  split; [reflexivity |]. split; [apply calm_three |].
  split; [apply wf_three |]. split; [apply rep_three |].
  split; [apply HReserve; cbn; lia |].
  split; [apply HResize; cbn; lia |].
  split; [apply HErase; cbn; lia |].
  apply (HEmplace 0 (MoveOf (Outside 9)) 9);
    [cbn; lia | reflexivity | discriminate | cbn; lia].
Defined.

Lemma Swap_witness :
  rep (full None 20) 0 (Some 2) [7] 1
  ∧ rep (full None 20) 1 (Some 3) [4; 5; 6; 8; 9] 5 ∧ 0 ≠ 1
  ∧ ∃ w',
      Vector_Swap nat 0 1 (full None 20) = (Ok tt, w')
      ∧ rep w' 0 (Some 3) [4; 5; 6; 8; 9] 5 ∧ rep w' 1 (Some 2) [7] 1
      ∧ heap w' = heap (full None 20) ∧ avail w' = avail (full None 20)
      ∧ trace w' = trace (full None 20)
      ∧ Vector_Swap nat 0 1 w' = (Ok tt, full None 20).
Proof.
  assert (Hne : 0 ≠ 1) by lia.
  split; [apply rep_full |]. split; [apply rep_full_other |].
  split; [exact Hne |].
  exact (Swap_exchanges_and_undoes_itself nat (full None 20) 0 1 (Some 2) [7] 1
           (Some 3) [4; 5; 6; 8; 9] 5 (rep_full None 20)
           (rep_full_other None 20) Hne).
Defined.

Lemma PushBack_then_PopBack_witness :
  calm nothrow (full None 20) ∧ wf (full None 20)
  ∧ rep (full None 20) 0 (Some 2) [7] 1
  ∧ arg_value nat (full None 20) (CopyOf (Outside 9)) = Some 9
  ∧ ∃ buf' cap' w',
      (PushBack nat emptied nothrow true 0 (Outside 9);; PopBack nat 0)
        (full None 20)
      = (Ok tt, w')
      ∧ rep w' 0 buf' [7] cap'
      ∧ 1 ≤ cap'
      ∧ alive (trace w') = alive (trace (full None 20)).
Proof.
  assert (Hmem : length [7] = 1 → next_capacity 1 ≤ avail (full None 20))
    by (intros _; vm_compute; lia).
  split; [apply calm_full |]. split; [apply wf_full; reflexivity |].
  split; [apply rep_full |]. split; [reflexivity |].
  exact (PushBack_then_PopBack_restores nat emptied nothrow true (full None 20)
           0 (Some 2) [7] 1 (Outside 9) 9 (calm_full 20) (wf_full None 20 eq_refl)
           (rep_full None 20) eq_refl Hmem).
Defined.

Lemma failed_default_construction_in_Resize_witness :
  wf (three (Some 1)) ∧ rep (three (Some 1)) 0 (Some 7) [1; 2; 3] 4
  ∧ throwing_default DefaultCtor = true ∧ fuse (three (Some 1)) = Some 1
  ∧ 1 < 6 - length [1; 2; 3]
  ∧ ∃ w',
      Resize nat 0 emptied throwing_default true 0 6 (three (Some 1))
      = (Throw ElementError, w')
      ∧ rolled_back (three (Some 1)) w'.
Proof.
  assert (Hj : 1 < 6 - length [1; 2; 3]) by (cbn; lia).
  assert (Hmem : 4 < 6 → 6 ≤ avail (three (Some 1))) by (cbn; lia).
  split; [apply wf_three |]. split; [apply rep_three |].
  split; [reflexivity |]. split; [reflexivity |]. split; [exact Hj |].
  exact (failed_default_construction_in_Resize_is_rolled_back nat 0 emptied
           throwing_default true (three (Some 1)) 0 (Some 7) [1; 2; 3] 4 6 1
           (wf_three (Some 1)) (rep_three (Some 1)) eq_refl eq_refl Hj Hmem).
Defined.

Lemma failed_default_construction_in_Vector_sized_witness :
  wf (three (Some 1)) ∧ throwing_default DefaultCtor = true
  ∧ fuse (three (Some 1)) = Some 1 ∧ 1 < 3 ∧ 3 ≤ avail (three (Some 1))
  ∧ ∃ w',
      new_Vector nat 2 (Vector_sized nat 0 throwing_default 3) (three (Some 1))
      = (Throw ElementError, w')
      ∧ rolled_back (three (Some 1)) w'.
Proof.
  assert (Hj : 1 < 3) by lia.
  assert (Hav : 3 ≤ avail (three (Some 1))) by (cbn; lia).
  split; [apply wf_three |]. split; [reflexivity |]. split; [reflexivity |].
  split; [exact Hj |]. split; [exact Hav |].
  exact (failed_default_construction_in_Vector_sized_is_rolled_back nat 0
           throwing_default (three (Some 1)) 2 3 1 (wf_three (Some 1))
           eq_refl eq_refl Hj Hav).
Defined.

Lemma failed_assignment_in_Erase_witness :
  rep (three (Some 1)) 0 (Some 7) [1; 2; 3] 4 ∧ 0 < length [1; 2; 3]
  ∧ throwing_assign (erase_assign throwing_assign true) = true
  ∧ fuse (three (Some 1)) = Some 1 ∧ 1 < length [1; 2; 3] - 1
  ∧ ∃ zs w',
      Erase nat emptied throwing_assign true 0 (Ptr (Some 7) 0) (three (Some 1))
      = (Throw ElementError, w')
      ∧ rep w' 0 (Some 7) zs 4
      ∧ length zs = length [1; 2; 3] ∧ take 0 zs = take 0 [1; 2; 3]
      ∧ invariant w' 0 = true
      ∧ alive (trace w') = alive (trace (three (Some 1)))
      ∧ avail w' = avail (three (Some 1)).
Proof.
  assert (Hp : 0 < length [1; 2; 3]) by (cbn; lia).
  assert (Hj : 1 < length [1; 2; 3] - 1) by (cbn; lia).
  split; [apply rep_three |]. split; [exact Hp |].
  split; [reflexivity |]. split; [reflexivity |]. split; [exact Hj |].
  exact (failed_assignment_in_Erase_keeps_the_vector_whole nat emptied
           throwing_assign true (three (Some 1)) 0 7 [1; 2; 3] 4 0 1
           (rep_three (Some 1)) Hp eq_refl eq_refl Hj).
Defined.


(** A capacity of 2^61 elements of 8 bytes: the byte count wraps to 0. *)
Lemma wrapped_Reserve_witness :
  rep (start None) 0 None [] 0
  ∧ 0 < N.to_nat 2305843009213693952
  ∧ slots_of nat (byte_count nat (N.to_nat 2305843009213693952))
    ≤ avail (start None)
  ∧ ∃ w',
      Reserve nat emptied nothrow true 0 (N.to_nat 2305843009213693952)
        (start None)
      = (Ok tt, w')
      ∧ vecs w' !! 0
        = Some (mkVector
                  (mkRawMemory (Some (fresh_addr (start None)))
                     (N.to_nat 2305843009213693952)) 0)
      ∧ heap w' !! fresh_addr (start None)
        = Some (replicate
                  (slots_of nat (byte_count nat (N.to_nat 2305843009213693952)))
                  None)
      ∧ (slots_of nat (byte_count nat (N.to_nat 2305843009213693952))
         < N.to_nat 2305843009213693952
         → invariant w' 0 = false).
Proof.
  assert (Hn : 0 < N.to_nat 2305843009213693952) by lia.
  assert (Hb : byte_count nat (N.to_nat 2305843009213693952) = 0%N).
  { unfold byte_count. rewrite N2Nat.id. reflexivity. }
  assert (Hs : slots_of nat (byte_count nat (N.to_nat 2305843009213693952))
               ≤ avail (start None)).
  { rewrite Hb. vm_compute. lia. }
  split; [apply rep_start |]. split; [exact Hn |]. split; [exact Hs |].
  exact (Reserve_trusts_a_wrapped_byte_count nat emptied nothrow true
           (start None) 0 (N.to_nat 2305843009213693952) (rep_start None)
           Hn Hs).
Defined.

End Coverage.
